(** * A shallow embedding of the VRP pointer-network decoder

    The development follows [src/PtrNet.py] (class [Decoder]: the masking
    of logits, the stochastic decoding step, the decoding loop; class
    [Struct2Vec]: the rounds of the graph embedder; the [forward] methods
    of [PointerNetwork], [CriticNetwork] and [NeuralCombOptRL]) and
    [src/Data_Generator.py] (class [VRPDataset]).

    Conventions.
    - A tensor is a nested list, outermost dimension first.  Index tensors
      ([LongTensor]) hold naturals; float tensors hold exact rationals
      ([Q]), logits hold a rational or minus infinity.  What is settled
      for the network is indexing and control flow; the concrete examples
      use small integers, on which float32 arithmetic is exact.
    - The data generator computes with Python floats and stores single
      precision: its values are binary floating-point numbers, rounded
      to nearest (ties to even) after every operation and once more when
      they are stored.
    - A Python exception is a value [Err e] of the [result] type; a
      statement that can raise is bound with [x ← c; k].
    - The numeric kernels of the network (LSTM cells, attention, softmax,
      the message passing of the graph embedder), the sampler and the
      random number generator are fields of records or class arguments:
      every theorem holds for all of them.  Module [Embedder] gives the
      message passing of [Struct2Vec] itself, over exact rationals, for
      any weights.
    - The methods of [Decoder] take their tensors in the layout their
      docstrings give ([sourceL x batch_size x ...]); a transfer with
      [.cuda()] leaves the values as they are and is not written. *)

From Stdlib Require Import ZArith QArith Qminmax Qpower Lia Lqa String.
From stdpp Require Import base option list.

Set Default Proof Using "Type".

(** ** Exceptions *)

Inductive exn : Type :=
| IndexError
| RuntimeError
| TypeError.

Inductive result (A : Type) : Type :=
| Ok (a : A)
| Err (e : exn).
Arguments Ok {A} a.
Arguments Err {A} e.

#[global] Instance result_ret : MRet result := fun A a => Ok a.
#[global] Instance result_bind : MBind result := fun A B f m =>
  match m with
  | Ok a => f a
  | Err e => Err e
  end.

Definition raises {A} (m : result A) : Prop := ∃ e, m = Err e.

(** [for i in items: s = body(s, i)] *)
Fixpoint for_each {S I} (body : S → I → result S) (items : list I) (s : S) : result S :=
  match items with
  | [] => Ok s
  | i :: items => s ← body s i; for_each body items s
  end.

(** ** Tensors and indexing *)

Abbreviation vec := (list Q) (only parsing).
Abbreviation mat := (list (list Q)) (only parsing).
Abbreviation tensor3 := (list (list (list Q))) (only parsing).

(** A value passed where the rank is only known at run time. *)
Inductive tensor : Type :=
| T2 (m : mat)
| T3 (t : tensor3).

(** A float that may be minus infinity. *)
Inductive logit : Type :=
| NegInf
| Fin (q : Q).

(** [t[i]] *)
Definition getitem {A} (t : list A) (i : nat) : result A :=
  match t !! i with
  | Some x => Ok x
  | None => Err IndexError
  end.

(** [t[i] = x] *)
Definition setitem {A} (t : list A) (i : nat) (x : A) : result (list A) :=
  if decide (i < length t) then Ok (<[i:=x]> t) else Err IndexError.

(** Entry [(i, j)] of a tensor of rank 2 or more, if there is one. *)
Definition entry {A} (t : list (list A)) (i j : nat) : option A :=
  row ← t !! i; row !! j.

(** [t[i, j]] and [t[i, j] = x] *)
Definition getitem2 {A} (t : list (list A)) (i j : nat) : result A :=
  row ← getitem t i; getitem row j.

Definition setitem2 {A} (t : list (list A)) (i j : nat) (x : A) : result (list (list A)) :=
  row ← getitem t i;
  row ← setitem row j x;
  Ok (<[i:=row]> t).

(** [t[rows, cols] = x] with two index lists already paired up. *)
Definition index_fill2 {A} (pairs : list (nat * nat)) (x : A) (t : list (list A)) :
  result (list (list A)) :=
  for_each (λ t '(i, j), setitem2 t i j x) pairs t.

(** Two index lists used together are broadcast against each other. *)
Definition broadcast (xs ys : list nat) : result (list (nat * nat)) :=
  if decide (length xs = length ys) then Ok (zip xs ys)
  else match xs, ys with
       | [x], _ => Ok (pair x <$> ys)
       | _, [y] => Ok ((λ x, (x, y)) <$> xs)
       | _, _ => Err IndexError
       end.

(** [t[idxs, list(range(batch_size)), :]] *)
Definition gather {A} (t : list (list A)) (idxs : list nat) (batch_size : nat) :
  result (list A) :=
  pairs ← broadcast idxs (seq 0 batch_size);
  mapM (λ '(n, b), getitem2 t n b) pairs.

(** [t[idxs] = vals], one value per index. *)
Definition index_put {A} (idxs : list nat) (vals : list A) (t : list A) : result (list A) :=
  if decide (length idxs = length vals)
  then for_each (λ t '(i, v), setitem t i v) (zip idxs vals) t
  else Err RuntimeError.

(** [t[:, idxs]] and [t[:, idxs] = vals] *)
Definition index_dim1 {A} (t : list (list A)) (idxs : list nat) : result (list (list A)) :=
  mapM (λ row, mapM (getitem row) idxs) t.

Definition index_put_dim1 {A} (idxs : list nat) (vals t : list (list A)) :
  result (list (list A)) :=
  if decide (length vals = length t)
  then mapM (λ '(v, row), index_put idxs v row) (zip vals t)
  else Err RuntimeError.

(** [t[idxs] = x], the same value at every index. *)
Definition index_fill {A} (idxs : list nat) (x : A) (t : list A) : result (list A) :=
  for_each (λ t i, setitem t i x) idxs t.

(** [t[0, idxs, :] = value]: a value of another rank than the slice does
    not fit it. *)
Definition setitem_0 (t : tensor3) (idxs : list nat) (value : tensor) : result tensor3 :=
  match value with
  | T2 m =>
      row0 ← getitem t 0;
      row0 ← index_put idxs m row0;
      Ok (<[0:=row0]> t)
  | T3 _ => Err RuntimeError
  end.

(** One row of the right-hand side of an assignment [t[:, :-2] = value]
    to a slice of [cols] columns (lines 278 and 379): the row has the
    [cols] entries of the slice, or a single entry, which is broadcast
    over the columns. *)
Definition fit_row (cols : nat) (row : vec) : result vec :=
  if decide (length row = cols) then Ok row
  else match row with
       | [x] => Ok (replicate cols x)
       | _ => Err RuntimeError
       end.

(** Positions of the entries that satisfy [p], in increasing order. *)
Fixpoint positions_from (p : nat → bool) (k : nat) (t : list nat) : list nat :=
  match t with
  | [] => []
  | x :: t => if p x then k :: positions_from p (S k) t else positions_from p (S k) t
  end.

(** [torch.nonzero(t).squeeze(1)] *)
Definition nonzero (t : list nat) : list nat :=
  positions_from (λ x, negb (x =? 0)) 0 t.

(** [torch.from_numpy(np.where(t == 0)[0])] *)
Definition where_zero (t : list nat) : list nat :=
  positions_from (λ x, x =? 0) 0 t.

(** [bool(t)] on a tensor: defined for exactly one element. *)
Definition tensor_bool (t : list nat) : result bool :=
  match t with
  | [x] => Ok (negb (x =? 0))
  | _ => Err RuntimeError
  end.

(** [cur_t < t_1] and the branch on it. *)
Definition Qltb (a b : Q) : bool :=
  match (a ?= b)%Q with
  | Lt => true
  | _ => false
  end.

(** The kernels of [torch] the decoder calls. *)
Class Torch : Type := {
  (** [torch.norm(v)] of one row *)
  norm : vec → Q;
  (** [torch.bmm(ref, p.unsqueeze(2)).squeeze(2)] *)
  bmm : tensor3 → mat → mat;
}.

(** [probs.multinomial(1).squeeze(1)]: one draw per row, or an error. *)
Definition sampler := mat → result (list nat).

(** ** Binary floating point *)

(** A binary floating-point number, of value [Fnum * 2 ^ Fexp]. *)
Record float : Type := { Fnum : Z; Fexp : Z }.

Definition pow2 (e : Z) : Q := (2 ^ e)%Q.

Definition F2Q (x : float) : Q := (inject_Z (Fnum x) * pow2 (Fexp x))%Q.

(** [m / 2 ^ s] rounded to the nearest integer, ties to the even one. *)
Definition rne_shift (m s : Z) : Z :=
  let q := (m / 2 ^ s)%Z in
  match (2 * (m mod 2 ^ s) ?= 2 ^ s)%Z with
  | Lt => q
  | Gt => (q + 1)%Z
  | Eq => if Z.even q then q else (q + 1)%Z
  end.

(** Rounding to the nearest number of the format with [prec] bits of
    precision and least exponent [emin], ties to even (IEEE 754
    [roundTiesToEven], subnormal numbers included).  The overflow
    threshold is not modelled: the numbers rounded below are smaller
    than 8. *)
Definition round_to (prec emin : Z) (x : float) : float :=
  let m := Z.abs (Fnum x) in
  let s := Z.max (Z.log2 m + 1 - prec) (emin - Fexp x) in
  if (s <=? 0)%Z then x
  else {| Fnum := Z.sgn (Fnum x) * rne_shift m s; Fexp := Fexp x + s |}.

(** The exact sum and product of two numbers. *)
Definition Fplus_exact (x y : float) : float :=
  let e := Z.min (Fexp x) (Fexp y) in
  {| Fnum := Fnum x * 2 ^ (Fexp x - e) + Fnum y * 2 ^ (Fexp y - e); Fexp := e |}.

Definition Fmult_exact (x y : float) : float :=
  {| Fnum := Fnum x * Fnum y; Fexp := Fexp x + Fexp y |}.

(** An integer as a number. *)
Definition Fint (n : Z) : float := {| Fnum := n; Fexp := 0 |}.

(** A Python [float] is a binary64 number; a [torch.FloatTensor] holds
    binary32 numbers. *)
Definition double (x : float) : float := round_to 53 (-1074) x.
Definition single (x : float) : float := round_to 24 (-149) x.

(** Python's [x + y] and [x * y] on floats, and [float(n)]. *)
Definition float_add (x y : float) : float := double (Fplus_exact x y).
Definition float_mul (x y : float) : float := double (Fmult_exact x y).
Definition float_of_int (n : Z) : float := double (Fint n).

(** [torch.FloatTensor([...])] on a list of Python numbers: every entry
    is converted to binary32.  A stored entry is written as the rational
    it is, in lowest terms. *)
Definition FloatTensor (l : list float) : list Q :=
  (λ x : float, Qred (F2Q (single x))) <$> l.

(** ** Data_Generator.py *)

Module DataGenerator.

(** A feature row of a node: [x, y, demand, t1, t2, h]. *)
Abbreviation node := (list Q) (only parsing).

(** The state of Python's [random] module with one raw draw from it.
    [random.seed] fixes the initial state; nothing below depends on it. *)
Class Random (G : Type) : Type := getrandbits : G → Z * G.

Section Generator.
Context {G : Type} `{Random G}.

(** [random.random()]: a multiple of 2^-53 in [0, 1). *)
Definition random (g : G) : float * G :=
  let '(k, g) := getrandbits g in
  ({| Fnum := k mod 2 ^ 53; Fexp := -53 |}, g).

(** [random.uniform(a, b)] is [a + (b - a) * random()], here with
    integers [a] and [b]: the difference is an integer, the product and
    the sum are floats. *)
Definition uniform (a b : Z) (g : G) : float * G :=
  let '(u, g) := random g in
  (float_add (float_of_int a) (float_mul (float_of_int (b - a)) u), g).

(** [random.randint(a, b)] is [a + randbelow(b - a + 1)]; [randbelow(n)]
    is a number below [n] that the state determines. *)
Definition randint (a b : Z) (g : G) : Z * G :=
  let '(k, g) := getrandbits g in
  ((a + k mod (b - a + 1))%Z, g).

(** Line 22: the depot row. *)
Definition depot_node (g : G) : node * G :=
  let '(x, g) := uniform 0 1 g in
  let '(y, g) := uniform 0 1 g in
  (FloatTensor [x; y; Fint 0; Fint 0; Fint 0; Fint 0], g).

(** Lines 24-29: one service row. *)
Definition service_node (g : G) : node * G :=
  let '(x, g) := uniform 0 1 g in
  let '(y, g) := uniform 0 1 g in
  let '(capacity, g) := randint 1 10 g in
  let '(t1, g) := uniform 0 5 g in
  let t2 := float_add t1 (float_of_int 2) in
  let h := 0%Z in
  (FloatTensor [x; y; Fint capacity; t1; t2; Fint h], g).

(** Lines 23-29: [for i in range(node_num - 1)]. *)
Fixpoint service_nodes (n : nat) (g : G) : list node * G :=
  match n with
  | O => ([], g)
  | S n =>
      let '(row, g) := service_node g in
      let '(rows, g) := service_nodes n g in
      (row :: rows, g)
  end.

(** [t.view(-1, cols)] on a flat tensor. *)
Fixpoint rows_of (cols rows : nat) (l : list Q) : list node :=
  match rows with
  | O => []
  | S r => take cols l :: rows_of cols r (drop cols l)
  end.

Definition view (cols : nat) (l : list Q) : result (list node) :=
  if (length l mod cols =? 0)%nat
  then Ok (rows_of cols (length l / cols) l)
  else Err RuntimeError.

(** Lines 21-31: one sample, [torch.cat(sample, 0).view(-1, 6)]. *)
Definition make_sample (node_num : Z) (g : G) : result (list node) * G :=
  let '(d, g) := depot_node g in
  let '(rows, g) := service_nodes (Z.to_nat (node_num - 1)) g in
  (view 6 (concat (d :: rows)), g).

(** Lines 20-31: [for _ in range(num_samples)]. *)
Fixpoint make_samples (node_num : Z) (n : nat) (g : G) : result (list (list node)) :=
  match n with
  | O => Ok []
  | S n =>
      let '(s, g) := make_sample node_num g in
      s ← s;
      rest ← make_samples node_num n g;
      Ok (s :: rest)
  end.

(** [VRPDataset.__init__]: the value of [self.dataset]. *)
Definition VRPDataset_init (node_num num_samples : Z) (g : G) : result (list (list node)) :=
  make_samples node_num (Z.to_nat num_samples) g.

End Generator.

(** [VRPDataset.__len__]: [self.size], the [len(self.dataset)] of line 33. *)
Definition VRPDataset_len (dataset : list (list node)) : Z := Z.of_nat (length dataset).

(** [VRPDataset.__getitem__]: [self.dataset[idx]] on a Python list; a
    negative index counts from the end. *)
Definition VRPDataset_getitem (dataset : list (list node)) (idx : Z) : result (list node) :=
  let n := Z.of_nat (length dataset) in
  let i := if (idx <? 0)%Z then (idx + n)%Z else idx in
  if (0 <=? i)%Z && (i <? n)%Z then getitem dataset (Z.to_nat i) else Err IndexError.

(** The shape of the rows.  The end of the window of a stored row is
    its start plus 2 up to the two roundings to single precision: the
    difference is at most 2^-20. *)
Definition depot_ok (row : node) : Prop :=
  ∃ x y : Q, row = [x; y; 0; 0; 0; 0]%Q ∧ (0 <= x <= 1)%Q ∧ (0 <= y <= 1)%Q.

Definition service_ok (row : node) : Prop :=
  ∃ (x y t1 t2 : Q) (demand : Z),
    row = [x; y; inject_Z demand; t1; t2; 0]%Q
    ∧ (1 ≤ demand ≤ 10)%Z ∧ (0 <= t1 <= 5)%Q
    ∧ (t1 + 2 - (1 # 1048576) <= t2 <= t1 + 2 + (1 # 1048576))%Q.

Definition instance_ok (node_num : Z) (sample : list node) : Prop :=
  ∃ d rows, sample = d :: rows ∧ depot_ok d ∧ Forall service_ok rows
            ∧ length rows = Z.to_nat (node_num - 1).

(** The rows with a window that ends at its start plus 2 exactly. *)
Definition service_exact (row : node) : Prop :=
  ∃ (x y t1 t2 : Q) (demand : Z),
    row = [x; y; inject_Z demand; t1; t2; 0]%Q
    ∧ (1 ≤ demand ≤ 10)%Z ∧ (0 <= t1 <= 5)%Q ∧ (t2 == t1 + 2)%Q.

Definition instance_exact (node_num : Z) (sample : list node) : Prop :=
  ∃ d rows, sample = d :: rows ∧ depot_ok d ∧ Forall service_exact rows
            ∧ length rows = Z.to_nat (node_num - 1).

End DataGenerator.

(** ** PtrNet.py *)

Module PtrNet.

(** [class Encoder]: the LSTM is a kernel. *)
Record Encoder : Type := {
  enc_hidden_dim : nat;
  lstm : tensor3 → tensor3 * tensor3 → tensor3 * (tensor3 * tensor3);
}.

(** [Encoder.forward(self, x, hidden)].  Both arguments are required: a
    call that leaves [hidden] out is the call with [None] here, which
    Python rejects before the body runs. *)
Definition Encoder_forward (self : Encoder) (x : tensor3) (hidden : option (tensor3 * tensor3)) :
  result (tensor3 * (tensor3 * tensor3)) :=
  match hidden with
  | Some hidden => Ok (lstm self x hidden)
  | None => Err TypeError
  end.

(** [class Struct2Vec]: the rounds of message passing on a
    [sourceL x batch_size x 6] input are a kernel. *)
Record Struct2Vec : Type := {
  node_num : nat;
  p_dim : nat;
  R : nat;
  message_passing : tensor3 → result tensor3;
}.

Definition zeros3 (a b c : nat) : tensor3 := replicate a (replicate b (replicate c 0%Q)).

(** [Struct2Vec.forward(self, inputs)].  On a rank-2 input every
    [inputs[i]] is a single row, and [inputs[i][:, :2]] (line 69) raises
    the first time the loop body runs; without a round the zero tensor of
    line 63 is returned. *)
Definition Struct2Vec_forward (self : Struct2Vec) (inputs : tensor) : result tensor3 :=
  match inputs with
  | T3 t => message_passing self t
  | T2 m =>
      let batch_size := match m with [] => 0 | row :: _ => length row end in
      if (0 <? R self) && (0 <? node_num self)
      then Err IndexError
      else Ok (zeros3 (node_num self) batch_size (p_dim self))
  end.

(** [Attention.forward(query, ref)] returns the projected reference and
    the logits. *)
Definition Attention := mat → tensor3 → tensor3 * list (list logit).

(** [class Decoder]: the attributes set by [__init__].  The constructor
    argument [embedding_dim] is kept; [self.embedding_dim] adds the two
    vehicle-state columns. *)
Record Decoder : Type := {
  embedding_dim : nat;
  hidden_dim : nat;
  n_glimpses : nat;
  seq_len : nat;
  decode_type : string;
  beam_size : nat;
  use_cuda : bool;
  vehicle_init_capacity : Q;
  s2v : Struct2Vec;
  encoder : Encoder;
  decoder_lstm : mat → mat * mat → mat * mat;
  pointer : Attention;
  glimpse : Attention;
  sm : list (list logit) → mat;
}.

Definition self_embedding_dim (self : Decoder) : nat := embedding_dim self + 2.

(** The vehicle state of one instance: remaining capacity, current time. *)
Abbreviation rc_ct_row := (Q * Q)%type (only parsing).

Section Decoder.
Context `{Torch}.
Variable self : Decoder.

(** Line 154: [torch.zeros(logits.size()).long()]. *)
Definition zeros_like (logits : list (list logit)) : list (list nat) :=
  (λ row : list logit, (λ _, 0) <$> row) <$> logits.

(** Line 166 for one entry [v] of the index: [logits[v] = -np.inf]. *)
Definition fill_row (logits : list (list logit)) (v : nat) : result (list (list logit)) :=
  row ← getitem logits v;
  let row : list logit := (λ _, NegInf) <$> row in
  Ok (<[v:=row]> logits).

(** Lines 152-167; [self] is read for [use_cuda] only.  The mask is a
    [LongTensor]: used as an index (line 166) its entries select rows of
    [logits]; only a byte or bool tensor would select by position. *)
Definition apply_mask_to_logits (logits : list (list logit)) (mask : option (list (list nat)))
    (prev_idxs : option (list nat)) : result (list (list logit) * list (list nat)) :=
  let mask :=
    match mask with
    | None => zeros_like logits
    | Some mask => mask
    end in
  let maskk := mask in
  match prev_idxs with
  | None => Ok (logits, maskk)
  | Some prev_idxs =>
      pairs ← broadcast (seq 0 (length logits)) prev_idxs;
      maskk ← index_fill2 pairs 1 maskk;
      maskk ← index_fill2 ((λ b : nat, (b, 0)) <$> nonzero prev_idxs) 0 maskk;
      logits ← for_each fill_row (concat maskk) logits;
      Ok (logits, maskk)
  end.

(** Lines 186-190: the glimpses. *)
Fixpoint glimpses (context : tensor3) (prev_idxs : option (list nat)) (n : nat) (g_l : mat)
    (logit_mask : option (list (list nat))) : result (mat * option (list (list nat))) :=
  match n with
  | O => Ok (g_l, logit_mask)
  | S n =>
      let '(ref, logits) := glimpse self g_l context in
      '(logits, logit_mask) ← apply_mask_to_logits logits logit_mask prev_idxs;
      let g_l := bmm ref (sm self logits) in
      glimpses context prev_idxs n g_l (Some logit_mask)
  end.

(** Lines 181-197. *)
Definition recurrence (context : tensor3) (x : mat) (hidden : mat * mat)
    (logit_mask : option (list (list nat))) (prev_idxs : option (list nat)) :
  result (mat * mat * mat * list (list nat)) :=
  let '(hy, cy) := decoder_lstm self x hidden in
  let g_l := hy in
  '(g_l, logit_mask) ← glimpses context prev_idxs (n_glimpses self) g_l logit_mask;
  let '(_, logits) := pointer self g_l context in
  '(logits, logit_mask) ← apply_mask_to_logits logits logit_mask prev_idxs;
  let probs := sm self logits in
  Ok (hy, cy, probs, logit_mask).

(** Line 267: [before_embedded_inputs[n, b, -1] = 1]. *)
Definition set_visited (before : tensor3) (nb : nat * nat) : result tensor3 :=
  let '(n, b) := nb in
  m ← getitem before n;
  v ← getitem m b;
  v ← setitem v (pred (length v)) 1%Q;
  Ok (<[n := <[b := v]> m]> before).

(** Lines 271-273. *)
Definition re_embed (before embedded : tensor3) (zero_idxs : list nat) : result tensor3 :=
  b ← tensor_bool zero_idxs;
  if b : bool then
    row0 ← getitem before 0;
    re_before_embedded_inputs ← mapM (getitem row0) zero_idxs;
    mu ← Struct2Vec_forward (s2v self) (T2 re_before_embedded_inputs);
    setitem_0 embedded zero_idxs (T3 mu)
  else Ok embedded.

(** Lines 290-297: the body of the loop over the batch. *)
Definition update_instance (nonzero_idxs : list nat) (distance required_capacity t_1 : vec)
    (rc_ct : list rc_ct_row) (i : nat) : result (list rc_ct_row) :=
  if decide (i ∈ nonzero_idxs) then
    row ← getitem rc_ct i;
    d ← getitem distance i;
    let cur_t := (row.2 + d)%Q in
    t ← getitem t_1 i;
    rc_ct ← setitem rc_ct i (row.1, if Qltb cur_t t then t else cur_t);
    row0 ← getitem rc_ct 0;
    c ← getitem required_capacity i;
    setitem rc_ct 0 ((row0.1 - c)%Q, (row0.2 - c)%Q)
  else Ok rc_ct.

(** Lines 277-278: [sels] is a zero tensor of [self.embedding_dim] columns
    whose columns but the last two receive the embeddings of the selected
    nodes.  The right-hand side has one row per index pair, as many as
    [sels] has rows or the assignment raises; a row is as wide as the
    slice, or has one column, which is broadcast. *)
Definition sels_embedded (batch_size : nat) (selected : mat) : result mat :=
  if decide (length selected = batch_size)
  then rows ← mapM (fit_row (self_embedding_dim self - 2)) selected;
       Ok ((λ row : vec, row ++ [0; 0]%Q) <$> rows)
  else Err RuntimeError.

(** Line 301, one row: the last two columns receive a vehicle state. *)
Definition write_state (row : vec) (r : rc_ct_row) : vec :=
  take (length row - 2) row ++ [r.1; r.2].

(** Line 301: the last two columns receive a copy of [rc_ct], which has
    one row per row of [sels], or a single row, which is broadcast. *)
Definition sels_state (sels : mat) (rc_ct : list rc_ct_row) : result mat :=
  if decide (length rc_ct = length sels)
  then Ok (zip_with write_state sels rc_ct)
  else match rc_ct with
       | [r] => Ok ((λ row : vec, write_state row r) <$> sels)
       | _ => Err RuntimeError
       end.

Record decoded : Type := {
  d_sels : mat;
  d_zero_idxs : list nat;
  d_idxs : list nat;
  d_rc_ct : list rc_ct_row;
  d_before_embedded_inputs : tensor3;
  d_embedded_inputs : tensor3;
}.

(** Lines 245-303. *)
Definition decode_stochastic (multinomial : sampler) (probs : mat)
    (before_embedded_inputs embedded_inputs : tensor3) (prev_idxs : list nat)
    (rc_ct : list rc_ct_row) : result decoded :=
  let batch_size := length probs in
  idxs ← multinomial probs;
  let nonzero_idxs := nonzero idxs in
  visited ← mapM (getitem idxs) nonzero_idxs;
  before_embedded_inputs ←
    for_each set_visited (zip visited nonzero_idxs) before_embedded_inputs;
  let zero_idxs := where_zero idxs in
  embedded_inputs ← re_embed before_embedded_inputs embedded_inputs zero_idxs;
  selected ← gather embedded_inputs idxs batch_size;
  sels ← sels_embedded batch_size selected;
  prev ← gather before_embedded_inputs prev_idxs batch_size;
  cur ← gather before_embedded_inputs idxs batch_size;
  let prev_x_y := take 2 <$> prev in
  let cur_x_y := take 2 <$> cur in
  let distance := norm <$> zip_with (zip_with Qminus) prev_x_y cur_x_y in
  required_capacity ← mapM (λ row, getitem row 2) cur;
  t_1 ← mapM (λ row, getitem row 3) cur;
  rc_ct ← for_each (update_instance nonzero_idxs distance required_capacity t_1)
            (seq 0 batch_size) rc_ct;
  rc_ct ← index_fill zero_idxs (vehicle_init_capacity self, 0%Q) rc_ct;
  sels ← sels_state sels rc_ct;
  Ok {| d_sels := sels; d_zero_idxs := zero_idxs; d_idxs := idxs; d_rc_ct := rc_ct;
        d_before_embedded_inputs := before_embedded_inputs;
        d_embedded_inputs := embedded_inputs |}.

(** Lines 227-229: the three writes at the columns [zero_idxs]. *)
Definition refresh (zero_idxs : list nat) (context_change : tensor3)
    (enc_h_t_change enc_c_t_change : tensor3) (context : tensor3) (hx cx : mat) :
  result (tensor3 * mat * mat) :=
  context ← index_put_dim1 zero_idxs context_change context;
  h ← getitem enc_h_t_change (pred (length enc_h_t_change));
  hx ← index_put zero_idxs h hx;
  c ← getitem enc_c_t_change (pred (length enc_c_t_change));
  cx ← index_put zero_idxs c cx;
  Ok (context, hx, cx).

(** The variables of the loop of [forward]. *)
Record loop_state : Type := {
  st_decoder_input : mat;
  st_hidden : mat * mat;
  st_mask : option (list (list nat));
  st_idxs : list nat;
  st_rc_ct : list rc_ct_row;
  st_before_embedded_inputs : tensor3;
  st_embedded_inputs : tensor3;
  st_context : tensor3;
  st_outputs : list mat;
  st_selections : list (list nat);
}.

(** Lines 218-234: one pass of the loop; [multinomial] is the sampler at
    this pass. *)
Definition step (multinomial : sampler) (st : loop_state) : result loop_state :=
  '(hx, cx, probs, mask) ←
    recurrence (st_context st) (st_decoder_input st) (st_hidden st) (st_mask st)
      (Some (st_idxs st));
  d ← decode_stochastic multinomial probs (st_before_embedded_inputs st)
        (st_embedded_inputs st) (st_idxs st) (st_rc_ct st);
  let zero_idxs := d_zero_idxs d in
  x ← index_dim1 (d_embedded_inputs d) zero_idxs;
  '(context_change, (enc_h_t_change, enc_c_t_change)) ← Encoder_forward (encoder self) x None;
  '(context, hx, cx) ←
    refresh zero_idxs context_change enc_h_t_change enc_c_t_change (st_context st) hx cx;
  Ok {| st_decoder_input := d_sels d; st_hidden := (hx, cx); st_mask := Some mask;
        st_idxs := d_idxs d; st_rc_ct := d_rc_ct d;
        st_before_embedded_inputs := d_before_embedded_inputs d;
        st_embedded_inputs := d_embedded_inputs d; st_context := context;
        st_outputs := st_outputs st ++ [probs];
        st_selections := st_selections st ++ [d_idxs d] |}.

(** Lines 199-243.  [multinomial k] is the sampler at pass [k] of the
    loop.  A mode without a [return] gives Python's [None].  Line 209
    writes column 0 of [prob_0], which a context without nodes does not
    have. *)
Definition forward (multinomial : nat → sampler) (decoder_input : mat)
    (before_embedded_inputs embedded_inputs : tensor3) (hidden : mat * mat)
    (context : tensor3) : result (option ((list mat * list (list nat)) * (mat * mat))) :=
  let batch_size := match context with [] => 0 | m :: _ => length m end in
  let sourceL := length context in
  let idxs := replicate batch_size 0 in
  prob_0 ← (row ← setitem (replicate sourceL 0%Q) 0 1%Q; Ok (replicate batch_size row));
  let rc_ct := replicate batch_size (vehicle_init_capacity self, 0%Q) in
  if String.eqb (decode_type self) "stochastic" then
    st ← for_each (λ st k, step (multinomial k) st) (seq 0 ((seq_len self - 1) * 2))
           {| st_decoder_input := decoder_input; st_hidden := hidden; st_mask := None;
              st_idxs := idxs; st_rc_ct := rc_ct;
              st_before_embedded_inputs := before_embedded_inputs;
              st_embedded_inputs := embedded_inputs; st_context := context;
              st_outputs := [prob_0]; st_selections := [idxs] |};
    Ok (Some ((st_outputs st, st_selections st), st_hidden st))
  else if String.eqb (decode_type self) "greedy" then Ok None
  else Ok None.

End Decoder.

(** The shapes [forward] works with: a tensor with [batch_size] rows per
    node, the length of every row satisfying [P]. *)
Definition shaped (batch_size : nat) (P : nat → Prop) (t : list (list (list Q))) : Prop :=
  Forall (λ m : list (list Q),
            length m = batch_size ∧ Forall (λ row : list Q, P (length row)) m) t.

(** The arguments of [decode_stochastic] fit together: one draw, one
    previous selection and one vehicle state per instance, every index a
    node, feature rows with the columns the step reads, embedding rows of
    the configured width. *)
Record shapes_ok (self : Decoder) (batch_size : nat) (idxs prev_idxs : list nat)
    (before embedded : list (list (list Q))) (rc : list (Q * Q)) : Prop := {
  so_idxs : length idxs = batch_size;
  so_prev_idxs : length prev_idxs = batch_size;
  so_idxs_lt : Forall (λ n, n < length before) idxs;
  so_prev_idxs_lt : Forall (λ n, n < length before) prev_idxs;
  so_before : shaped batch_size (λ k, 4 ≤ k) before;
  so_embedded_length : length embedded = length before;
  so_embedded : shaped batch_size (λ k, k = embedding_dim self) embedded;
  so_rc : length rc = batch_size;
}.

End PtrNet.

(** ** PtrNet.py: the graph embedder *)

Module Embedder.
Import PtrNet.

(** [nn.Linear(in_features, out_features, bias=False)]: the weight has
    [out_features] rows of [in_features] entries. *)
Record Linear : Type := {
  in_features : nat;
  weight : list (list Q);
}.

(** The constructor draws a weight of that shape; [w k j] is its entry. *)
Definition Linear_init (in_features out_features : nat) (w : nat → nat → Q) : Linear :=
  {| in_features := in_features;
     weight := (λ k, w k <$> seq 0 in_features) <$> seq 0 out_features |}.

Definition dot (x w : list Q) : Q := foldr Qplus 0%Q (zip_with Qmult x w).

(** [Linear.forward] on a [batch_size x in_features] input: every row
    times the transposed weight. *)
Definition Linear_forward (self : Linear) (x : list (list Q)) : result (list (list Q)) :=
  mapM (λ row : list Q,
          if decide (length row = in_features self)
          then Ok (dot row <$> weight self)
          else Err RuntimeError) x.

(** [torch.relu] *)
Definition relu (x : Q) : Q := if Qltb 0 x then x else 0%Q.

Definition relu_mat (x : list (list Q)) : list (list Q) :=
  (λ row : list Q, relu <$> row) <$> x.

(** [a + b] and [a - b] on tensors of one shape. *)
Definition madd (a b : list (list Q)) : list (list Q) := zip_with (zip_with Qplus) a b.
Definition msub (a b : list (list Q)) : list (list Q) := zip_with (zip_with Qminus) a b.

(** Python's [sum] of a list of tensors: [0 + t0 + t1 + ...]; of no
    tensor it is the integer 0, which is not an input for a layer. *)
Definition python_sum (terms : list (list (list Q))) : result (list (list Q)) :=
  match terms with
  | [] => Err TypeError
  | t0 :: terms => Ok (foldl madd ((λ row : list Q, Qplus 0 <$> row) <$> t0) terms)
  end.

Section Struct2Vec.
Context `{Torch}.
(** The attributes of [Struct2Vec.__init__] and the weights of its five
    layers. *)
Variables (node_num p_dim R : nat).
Variables (w1 w2 w3 w4 w5 : nat → nat → Q).

Definition theta_1 : Linear := Linear_init p_dim p_dim w1.
Definition theta_2 : Linear := Linear_init p_dim p_dim w2.
Definition theta_3 : Linear := Linear_init 1 p_dim w3.
Definition theta_4 : Linear := Linear_init 6 p_dim w4.
Definition theta_5 : Linear := Linear_init 2 p_dim w5.

(** [torch.sum(mu, dim=0)] *)
Definition sum_nodes (batch_size : nat) (mu : list (list (list Q))) : list (list Q) :=
  foldr madd (replicate batch_size (replicate p_dim 0%Q)) mu.

(** Line 69, one term of the list:
    [relu(theta_3(norm(inputs[i][:, :2] - inputs[j][:, :2], dim=1, keepdim=True)))]. *)
Definition distance_term (inputs : list (list (list Q))) (i j : nat) : result (list (list Q)) :=
  x_i ← getitem inputs i;
  x_j ← getitem inputs j;
  let d := (λ row : list Q, [norm row]) <$> msub (take 2 <$> x_i) (take 2 <$> x_j) in
  t ← Linear_forward theta_3 d;
  Ok (relu_mat t).

(** Lines 67-72: the new embedding of node [i] from the embeddings [mu]
    of the round before; the write to [mu_null[i]] needs a value of
    [batch_size] rows of [p_dim] entries. *)
Definition node_update (inputs : list (list (list Q))) (batch_size : nat)
    (mu : list (list (list Q))) (i : nat) : result (list (list Q)) :=
  mu_i ← getitem mu i;
  item_1 ← Linear_forward theta_1 (msub (sum_nodes batch_size mu) mu_i);
  terms ← mapM (distance_term inputs i) (seq 0 node_num);
  total ← python_sum terms;
  item_2 ← Linear_forward theta_2 total;
  item_3 ← (if decide (i = 0)
             then x_i ← getitem inputs i; Linear_forward theta_5 (take 2 <$> x_i)
             else x_i ← getitem inputs i; Linear_forward theta_4 x_i);
  let value := relu_mat (madd (madd item_1 item_2) item_3) in
  if decide (length value = batch_size ∧ Forall (λ row : list Q, length row = p_dim) value)
  then Ok value
  else Err RuntimeError.

(** Lines 66-73: one round; [mu] is replaced when every node is done. *)
Definition round (inputs : list (list (list Q))) (batch_size : nat)
    (mu : list (list (list Q))) : result (list (list (list Q))) :=
  mapM (node_update inputs batch_size mu) (seq 0 node_num).

(** Lines 65-73. *)
Fixpoint rounds (inputs : list (list (list Q))) (batch_size : nat) (r : nat)
    (mu : list (list (list Q))) : result (list (list (list Q))) :=
  match r with
  | O => Ok mu
  | S r => mu ← round inputs batch_size mu; rounds inputs batch_size r mu
  end.

(** Lines 61-75 on a [sourceL x batch_size x input_dim] input. *)
Definition embed (inputs : list (list (list Q))) : result (list (list (list Q))) :=
  let batch_size := match inputs with [] => 0 | m :: _ => length m end in
  rounds inputs batch_size R (zeros3 node_num batch_size p_dim).

(** The object [Struct2Vec(node_num, p_dim, R)] with these weights. *)
Definition Struct2Vec_init : Struct2Vec :=
  {| PtrNet.node_num := node_num; PtrNet.p_dim := p_dim; PtrNet.R := R;
     message_passing := embed |}.

End Struct2Vec.

(** Row [b] of a matrix as a matrix of one row, and the features of
    instance [b] alone as a batch of one. *)
Definition sel (b : nat) (m : list (list Q)) : list (list Q) := option_list (m !! b).

Definition instance (b : nat) (t : list (list (list Q))) : list (list (list Q)) :=
  sel b <$> t.

End Embedder.

(** ** PtrNet.py: the actor network *)

Module Network.
Import PtrNet Embedder.

(** [t.permute(1, 0, 2)] on a [batch_size x sourceL x input_dim] tensor:
    entry [j] holds node [j] of every instance.  A batch without an
    instance has no node dimension in this encoding. *)
Definition permute_1_0_2 (t : list (list (list Q))) : list (list (list Q)) :=
  let sourceL := match t with [] => 0 | m :: _ => length m end in
  (λ j : nat, omap (λ m : list (list Q), m !! j) t) <$> seq 0 sourceL.

(** [class PointerNetwork]: the attributes set by [__init__]. *)
Record PointerNetwork : Type := {
  pn_use_cuda : bool;
  pn_vehicle_init_capacity : Q;
  pn_embedding_dim : nat;
  pn_Struct2Vec : Struct2Vec;
  pn_encoder : Encoder;
  pn_decoder : Decoder;
}.

Section PointerNetwork.
Context `{Torch}.

(** [PointerNetwork.__init__] (lines 310-347).  The weights [w1 .. w5] of
    the graph embedder and the kernels of the two LSTMs, of the two
    attentions ([tanh_exploration] and [use_tanh] are theirs) and of the
    softmax stand for what the constructors of the layers create.  The
    decoder is built in mode ['stochastic'] and shares the embedder and
    the encoder of the network. *)
Definition PointerNetwork_init (embedding_dim hidden_dim seq_len n_glimpses beam_size : nat)
    (use_cuda : bool) (vehicle_init_capacity : Q) (p_dim R : nat)
    (w1 w2 w3 w4 w5 : nat → nat → Q)
    (lstm : list (list (list Q)) → list (list (list Q)) * list (list (list Q))
            → list (list (list Q)) * (list (list (list Q)) * list (list (list Q))))
    (decoder_lstm : list (list Q) → list (list Q) * list (list Q)
                    → list (list Q) * list (list Q))
    (pointer glimpse : Attention) (sm : list (list logit) → list (list Q)) : PointerNetwork :=
  let struct2vec := Struct2Vec_init seq_len p_dim R w1 w2 w3 w4 w5 in
  let encoder := {| enc_hidden_dim := hidden_dim; PtrNet.lstm := lstm |} in
  {| pn_use_cuda := use_cuda;
     pn_vehicle_init_capacity := vehicle_init_capacity;
     pn_embedding_dim := embedding_dim;
     pn_Struct2Vec := struct2vec;
     pn_encoder := encoder;
     pn_decoder :=
       {| PtrNet.embedding_dim := embedding_dim; PtrNet.hidden_dim := hidden_dim;
          PtrNet.n_glimpses := n_glimpses; PtrNet.seq_len := seq_len;
          decode_type := "stochastic"; PtrNet.beam_size := beam_size;
          PtrNet.use_cuda := use_cuda;
          PtrNet.vehicle_init_capacity := vehicle_init_capacity;
          s2v := struct2vec; PtrNet.encoder := encoder;
          PtrNet.decoder_lstm := decoder_lstm; PtrNet.pointer := pointer;
          PtrNet.glimpse := glimpse; PtrNet.sm := sm |} |}.

(** [PointerNetwork.forward] (lines 357-389); [multinomial k] is the
    sampler at pass [k] of the decoding loop.  [batch_size] is
    [embedded_inputs.size(1)], so the rows written at line 379 are as
    many as [decoder_input] has.  The decoder receives [inputs] itself as
    [before_embedded_inputs], in the layout
    [batch_size x sourceL x input_dim] (line 384).  A decoder that
    returns [None] makes the unpacking of line 383 raise. *)
Definition PointerNetwork_forward (self : PointerNetwork) (multinomial : nat → sampler)
    (inputs : list (list (list Q))) : result (list (list (list Q)) * list (list nat)) :=
  embedded_inputs ← Struct2Vec_forward (pn_Struct2Vec self) (T3 (permute_1_0_2 inputs));
  let batch_size := match embedded_inputs with [] => 0 | m :: _ => length m end in
  let hidden_dim := enc_hidden_dim (pn_encoder self) in
  let encoder_hx := [replicate batch_size (replicate hidden_dim 0%Q)] in
  let encoder_cx := [replicate batch_size (replicate hidden_dim 0%Q)] in
  '(context, (enc_h_t, enc_c_t)) ←
    Encoder_forward (pn_encoder self) embedded_inputs (Some (encoder_hx, encoder_cx));
  h ← getitem enc_h_t (pred (length enc_h_t));
  c ← getitem enc_c_t (pred (length enc_c_t));
  let decoder_input := replicate batch_size (replicate (pn_embedding_dim self + 2) 0%Q) in
  let decoder_input :=
    (λ row : list Q, <[pn_embedding_dim self := pn_vehicle_init_capacity self]> row)
      <$> decoder_input in
  first ← getitem embedded_inputs 0;
  rows ← mapM (fit_row (pn_embedding_dim self)) first;
  let decoder_input :=
    zip_with (λ new row : list Q, new ++ drop (pn_embedding_dim self) row)
      rows decoder_input in
  r ← forward (pn_decoder self) multinomial decoder_input inputs embedded_inputs (h, c) context;
  match r with
  | Some ((pointer_probs, input_idxs), dec_hidden_t) => Ok (pointer_probs, input_idxs)
  | None => Err TypeError
  end.

End PointerNetwork.

(** [class CriticNetwork]: the attributes set by [__init__]; the block
    [self.decoder] of two linear layers is a kernel. *)
Record CriticNetwork : Type := {
  cn_hidden_dim : nat;
  cn_n_process_blocks : nat;
  cn_encoder : Encoder;
  cn_process_block : Attention;
  cn_sm : list (list logit) → list (list Q);
  cn_decoder : list (list Q) → result (list (list Q));
}.

(** [class NeuralCombOptRL]: the attributes [forward] reads. *)
Record NeuralCombOptRL : Type := {
  is_train : bool;
  nco_use_cuda : bool;
  actor_net : PointerNetwork;
  critic_net : CriticNetwork;
}.

(** The [probs] of [NeuralCombOptRL.forward]: in training the probability
    of each selected node, otherwise the distributions themselves. *)
Inductive probs_out : Type :=
| Selected (probs : list (list Q))
| Full (probs : list (list (list Q))).

(** [t[list(range(batch_size)), action_id]] (lines 509 and 516). *)
Definition select_actions {A} (t : list (list A)) (batch_size : nat) (action_id : list nat) :
  result (list A) :=
  pairs ← broadcast (seq 0 batch_size) action_id;
  mapM (λ '(b, n), getitem2 t b n) pairs.

(** [t.view(-1, cols)] on a flat tensor. *)
Definition view_rows {A} (cols : nat) (l : list A) : result (list (list A)) :=
  if decide (cols = 0) then Err RuntimeError
  else if decide (length l mod cols = 0)
       then Ok ((λ r : nat, take cols (drop (r * cols) l)) <$> seq 0 (length l / cols))
       else Err RuntimeError.

(** [t.transpose(1, 0)] on a tensor of [cols] columns. *)
Definition transpose_1_0 {A} (cols : nat) (t : list (list A)) : list (list A) :=
  (λ j : nat, omap (λ row : list A, row !! j) t) <$> seq 0 cols.

Section NeuralCombOptRL.
Context `{Torch}.

(** Lines 437-439: the process blocks of the critic. *)
Fixpoint process_blocks (self : CriticNetwork) (enc_outputs : list (list (list Q))) (n : nat)
    (process_block_state : list (list Q)) : list (list Q) :=
  match n with
  | O => process_block_state
  | S n =>
      let '(ref, logits) := cn_process_block self process_block_state enc_outputs in
      process_blocks self enc_outputs n (bmm ref (cn_sm self logits))
  end.

(** [CriticNetwork.forward] (lines 422-442). *)
Definition CriticNetwork_forward (self : CriticNetwork) (inputs : list (list (list Q))) :
  result (list (list Q)) :=
  let size_1 := match inputs with [] => 0 | m :: _ => length m end in
  let hidden_dim := enc_hidden_dim (cn_encoder self) in
  let encoder_hx := [replicate size_1 (replicate hidden_dim 0%Q)] in
  let encoder_cx := [replicate size_1 (replicate hidden_dim 0%Q)] in
  '(enc_outputs, (enc_h_t, enc_c_t)) ←
    Encoder_forward (cn_encoder self) inputs (Some (encoder_hx, encoder_cx));
  process_block_state ← getitem enc_h_t (pred (length enc_h_t));
  cn_decoder self
    (process_blocks self enc_outputs (cn_n_process_blocks self) process_block_state).

(** [NeuralCombOptRL.__init__] (lines 451-491): the actor is built by
    [PointerNetwork.__init__]; the critic has an encoder and an attention
    of its own.  [objective_fn] is stored and not read by [forward]. *)
Definition NeuralCombOptRL_init (embedding_dim hidden_dim seq_len n_glimpses n_process_blocks
      beam_size : nat)
    (is_train use_cuda : bool) (vehicle_init_capacity : Q) (p_dim R : nat)
    (w1 w2 w3 w4 w5 : nat → nat → Q)
    (lstm critic_lstm : list (list (list Q)) → list (list (list Q)) * list (list (list Q))
            → list (list (list Q)) * (list (list (list Q)) * list (list (list Q))))
    (decoder_lstm : list (list Q) → list (list Q) * list (list Q)
                    → list (list Q) * list (list Q))
    (pointer glimpse process_block : Attention)
    (sm critic_sm : list (list logit) → list (list Q))
    (critic_decoder : list (list Q) → result (list (list Q))) : NeuralCombOptRL :=
  {| is_train := is_train;
     nco_use_cuda := use_cuda;
     actor_net :=
       PointerNetwork_init embedding_dim hidden_dim seq_len n_glimpses beam_size use_cuda
         vehicle_init_capacity p_dim R w1 w2 w3 w4 w5 lstm decoder_lstm pointer glimpse sm;
     critic_net :=
       {| cn_hidden_dim := hidden_dim;
          cn_n_process_blocks := n_process_blocks;
          cn_encoder := {| enc_hidden_dim := hidden_dim; PtrNet.lstm := critic_lstm |};
          cn_process_block := process_block;
          cn_sm := critic_sm;
          cn_decoder := critic_decoder |} |}.

(** [NeuralCombOptRL.forward] (lines 493-528) on
    [inputs : batch_size x sourceL x input_dim]; [torch.cat] needs at
    least one tensor. *)
Definition NeuralCombOptRL_forward (self : NeuralCombOptRL) (multinomial : nat → sampler)
    (inputs : list (list (list Q))) :
  result (list (list Q) * probs_out * list (list (list Q)) * list (list nat)) :=
  let batch_size := length inputs in
  '(probs_, action_idxs) ← PointerNetwork_forward (actor_net self) multinomial inputs;
  actions ← mapM (select_actions inputs batch_size) action_idxs;
  probs ←
    (if is_train self
     then selected ← mapM (λ '(prob, action_id), select_actions prob batch_size action_id)
                       (zip probs_ action_idxs);
          Ok (Selected selected)
     else Ok (Full probs_));
  b ← CriticNetwork_forward (critic_net self) inputs;
  flat ← (match action_idxs with
          | [] => Err RuntimeError
          | _ => Ok (concat action_idxs)
          end);
  rows ← view_rows batch_size flat;
  Ok (b, probs, actions, transpose_1_0 batch_size rows).

End NeuralCombOptRL.

End Network.

(** ** Concrete kernels for the examples *)

Module Examples.
Import PtrNet.

(** The Euclidean norm, exact on the rows used below (Pythagorean
    triples and zero rows). *)
Definition Qsqrt (q : Q) : Q := Qmake (Z.sqrt (Qnum q * Zpos (Qden q))) (Qden q).

#[export] Instance torch : Torch := {|
  norm v := Qsqrt (foldr Qplus 0%Q ((λ x, x * x)%Q <$> v));
  bmm ref p := p;
|}.

(** An attention kernel that scores every node with logit 0. *)
Definition flat_attention : Attention :=
  λ query ref, (ref, replicate (length query) (replicate (length ref) (Fin 0))).

Definition example_s2v : Struct2Vec := {|
  node_num := 3; p_dim := 1; R := 4;
  message_passing t := Ok ((λ m : mat, (λ v : vec, [foldr Qplus 1%Q v]) <$> m) <$> t);
|}.

Definition example_encoder : Encoder := {|
  enc_hidden_dim := 1;
  lstm x hidden := (x, hidden);
|}.

Definition example_decoder (mode : string) : Decoder := {|
  embedding_dim := 1; hidden_dim := 1; n_glimpses := 1; seq_len := 3;
  decode_type := mode; beam_size := 0; use_cuda := false;
  vehicle_init_capacity := 10;
  s2v := example_s2v; encoder := example_encoder;
  decoder_lstm x hidden := hidden;
  pointer := flat_attention; glimpse := flat_attention;
  sm logits := (λ row : list logit, (λ _, 0%Q) <$> row) <$> logits;
|}.

(** The same decoder for embeddings of three entries. *)
Definition example_wide_decoder : Decoder := {|
  embedding_dim := 3; hidden_dim := 1; n_glimpses := 1; seq_len := 3;
  decode_type := "stochastic"; beam_size := 0; use_cuda := false;
  vehicle_init_capacity := 10;
  s2v := example_s2v; encoder := example_encoder;
  decoder_lstm x hidden := hidden;
  pointer := flat_attention; glimpse := flat_attention;
  sm logits := (λ row : list logit, (λ _, 0%Q) <$> row) <$> logits;
|}.

(** Three nodes, two instances with the same features: the depot at the
    origin, node 1 at (3, 4) with demand 3 and window [1, 3], node 2 at
    (0, 5) with demand 2 and window [9, 11]. *)
Definition example_features : tensor3 :=
  [ [ [0; 0; 0; 0; 0; 0]; [0; 0; 0; 0; 0; 0] ];
    [ [3; 4; 3; 1; 3; 0]; [3; 4; 3; 1; 3; 0] ];
    [ [0; 5; 2; 9; 11; 0]; [0; 5; 2; 9; 11; 0] ] ]%Q.

Definition example_embedded : tensor3 :=
  [ [ [0]; [0] ]; [ [1]; [1] ]; [ [2]; [2] ] ]%Q.

Definition example_context : tensor3 := example_embedded.

Definition example_probs : mat := [ [0; 1; 0]; [0; 1; 0] ]%Q.

(** A sampler that draws the given indices. *)
Definition draws (idxs : list nat) : sampler := λ _, Ok idxs.


Definition example_logits (batch_size : nat) : list (list logit) :=
  replicate batch_size [Fin 0; Fin 0; Fin 0].

(** Weights for the layers of the graph embedder: every entry 1. *)
Definition example_weight : nat → nat → Q := λ _ _, 1%Q.

(** Two nodes, two instances that differ: in instance 0 the depot is at
    the origin and node 1 at (3, 4); in instance 1 both are at (1, 1). *)
Definition example_nodes : tensor3 :=
  [ [ [0; 0; 0; 0; 0; 0]; [1; 1; 0; 0; 0; 0] ];
    [ [3; 4; 3; 1; 3; 0]; [1; 1; 5; 2; 4; 0] ] ]%Q.

(** The actor network for [seq_len] nodes with the kernels above, graph
    embeddings of one entry and one round of message passing. *)
Definition example_network (seq_len : nat) : Network.PointerNetwork :=
  Network.PointerNetwork_init 1 1 seq_len 1 0 false 10 1 1
    example_weight example_weight example_weight example_weight example_weight
    (lstm example_encoder) (decoder_lstm (example_decoder "stochastic"))
    flat_attention flat_attention (sm (example_decoder "stochastic")).

(** The model with that actor and a critic of the same kernels, with one
    process block and the identity as its last block. *)
Definition example_model (seq_len : nat) (is_train : bool) : Network.NeuralCombOptRL :=
  Network.NeuralCombOptRL_init 1 1 seq_len 1 1 0 is_train false 10 1 1
    example_weight example_weight example_weight example_weight example_weight
    (lstm example_encoder) (lstm example_encoder)
    (decoder_lstm (example_decoder "stochastic"))
    flat_attention flat_attention flat_attention
    (sm (example_decoder "stochastic")) (sm (example_decoder "stochastic"))
    (λ x, Ok x).

(** Batches in the layout [batch_size x sourceL x 6]: two instances of
    one node, and two instances of two nodes. *)
Definition example_batch_1 : tensor3 :=
  [ [ [3; 4; 0; 0; 0; 0] ]; [ [0; 0; 0; 0; 0; 0] ] ]%Q.

Definition example_batch_2 : tensor3 :=
  [ [ [0; 0; 0; 0; 0; 0]; [3; 4; 3; 1; 3; 0] ];
    [ [1; 1; 0; 0; 0; 0]; [1; 1; 5; 2; 4; 0] ] ]%Q.

(** A random number generator that replays a list of raw draws. *)
#[export] Instance replay : DataGenerator.Random (list Z) :=
  λ g, match g with
       | [] => (0%Z, [])
       | k :: g => (k, g)
       end.

(** A random number generator whose state is a counter. *)
#[export] Instance counter : DataGenerator.Random Z :=
  λ g, ((g * 2 ^ 50 + 7)%Z, (g + 1)%Z).

End Examples.

(** * Properties *)

(** ** The [result] monad *)

Lemma bind_Ok {A B} (f : A → result B) (m : result A) (b : B) :
  m ≫= f = Ok b → ∃ a, m = Ok a ∧ f a = Ok b.
Proof. destruct m as [a|e]; simpl; [eauto | discriminate]. Qed.

Lemma raises_bind_l {A B} (f : A → result B) (m : result A) :
  raises m → raises (m ≫= f).
Proof. intros [e ->]. by exists e. Qed.

Lemma raises_bind_r {A B} (f : A → result B) (m : result A) :
  (∀ a, raises (f a)) → raises (m ≫= f).
Proof. intros Hf. destruct m as [a|e]; simpl; [apply Hf | by exists e]. Qed.

(** Turns [H : (x ← m; k) = Ok b] into [m = Ok x] and [k = Ok b]. *)
Tactic Notation "inv_bind" hyp(H) "as" ident(x) ident(Hx) :=
  apply bind_Ok in H as (x & Hx & H).

Lemma getitem_Ok {A} (t : list A) i x : getitem t i = Ok x ↔ t !! i = Some x.
Proof. unfold getitem. destruct (t !! i); split; congruence. Qed.

Lemma setitem_Ok {A} (t t' : list A) i x :
  setitem t i x = Ok t' ↔ i < length t ∧ t' = <[i:=x]> t.
Proof.
  unfold setitem. destruct (decide (i < length t)) as [Hi|Hi]; split.
  - by intros [= <-].
  - by intros [_ ->].
  - done.
  - by intros [? _].
Qed.

Lemma for_each_app {S I} (body : S → I → result S) (l1 l2 : list I) (s : S) :
  for_each body (l1 ++ l2) s = s' ← for_each body l1 s; for_each body l2 s'.
Proof.
  revert s. induction l1 as [|i l1 IH]; intros s; simpl; [done|].
  destruct (body s i) as [s1|e]; simpl; [apply IH | done].
Qed.

(** An invariant of every pass is an invariant of the loop. *)
Lemma for_each_invariant {S I} (P : S → Prop) (body : S → I → result S) (l : list I) (s s' : S) :
  (∀ s i s', i ∈ l → P s → body s i = Ok s' → P s') →
  P s → for_each body l s = Ok s' → P s'.
Proof.
  revert s. induction l as [|i l IH]; intros s Hbody Hs Hl; simpl in Hl.
  - by injection Hl as <-.
  - inv_bind Hl as s1 Hs1. eapply (IH s1); [| |done].
    + intros ? j ? Hj. apply Hbody. by right.
    + eapply Hbody; [|done..]. by left.
Qed.

Lemma mapM_Ok_lookup {A B} (f : A → result B) (l : list A) (k : list B) :
  mapM f l = Ok k →
  length k = length l ∧ ∀ i x, l !! i = Some x → ∃ y, k !! i = Some y ∧ f x = Ok y.
Proof.
  revert k. induction l as [|a l IH]; intros k Hk; simpl in Hk.
  - injection Hk as <-. split; [done|]. intros i x. by rewrite lookup_nil.
  - inv_bind Hk as b Hb. inv_bind Hk as k' Hk'. injection Hk as <-.
    destruct (IH _ Hk') as [Hlen Hl]. split; [simpl; by rewrite Hlen|].
    intros [|i] y Hy; simpl in *; [|by apply Hl].
    injection Hy as <-. eauto.
Qed.

(** ** Positions of zero and non-zero entries *)

Lemma elem_of_positions_from p k t b :
  b ∈ positions_from p k t ↔ k ≤ b ∧ ∃ x, t !! (b - k) = Some x ∧ p x = true.
Proof.
  revert k. induction t as [|x t IH]; intros k; simpl.
  - rewrite elem_of_nil. split; [done|]. intros (_ & y & Hy & _). by rewrite lookup_nil in Hy.
  - assert (b ∈ positions_from p (S k) t ↔
            k < b ∧ ∃ y, (x :: t) !! (b - k) = Some y ∧ p y = true) as Htail.
    { rewrite IH. split.
      - intros (Hk & y & Hy & Hp). split; [lia|]. exists y. split; [|done].
        by replace (b - k) with (S (b - S k)) by lia.
      - intros (Hk & y & Hy & Hp). split; [lia|]. exists y. split; [|done].
        by replace (b - k) with (S (b - S k)) in Hy by lia. }
    destruct (p x) eqn:Hpx.
    + rewrite elem_of_cons, Htail. split.
      * intros [->|[Hk Hy]]; [|split; [lia|done]].
        split; [done|]. exists x. by rewrite Nat.sub_diag.
      * intros (Hk & y & Hy & Hp).
        destruct (decide (b = k)) as [->|]; [by left|right].
        split; [lia|eauto].
    + rewrite Htail. split.
      * intros [Hk Hy]. split; [lia|done].
      * intros (Hk & y & Hy & Hp). split; [|eauto].
        destruct (decide (b = k)) as [->|]; [|lia].
        rewrite Nat.sub_diag in Hy. simpl in Hy. congruence.
Qed.

Lemma elem_of_nonzero t b : b ∈ nonzero t ↔ ∃ x, t !! b = Some x ∧ x ≠ 0.
Proof.
  unfold nonzero. rewrite elem_of_positions_from, Nat.sub_0_r.
  split.
  - intros (_ & x & Hx & Hp). exists x. split; [done|].
    by apply negb_true_iff, Nat.eqb_neq in Hp.
  - intros (x & Hx & Hp). split; [lia|]. exists x. split; [done|].
    by apply negb_true_iff, Nat.eqb_neq.
Qed.

Lemma elem_of_where_zero t b : b ∈ where_zero t ↔ t !! b = Some 0.
Proof.
  unfold where_zero. rewrite elem_of_positions_from, Nat.sub_0_r.
  split.
  - intros (_ & x & Hx & Hp). apply Nat.eqb_eq in Hp. by subst.
  - intros Hb. split; [lia|]. by exists 0.
Qed.

(** ** Binary floating point *)

Section FloatFacts.
Open Scope Q_scope.

Lemma pow2_pos e : 0 < pow2 e.
Proof. apply Qpower_0_lt. reflexivity. Qed.

Lemma pow2_add a b : pow2 (a + b) == pow2 a * pow2 b.
Proof. apply Qpower_plus. discriminate. Qed.

Lemma pow2_le a b : (a ≤ b)%Z → pow2 a <= pow2 b.
Proof. intros Hab. apply Qpower_le_compat_l; [done|discriminate]. Qed.

Lemma pow2_lt_inv a b : pow2 a < pow2 b → (a < b)%Z.
Proof. intros Hab. eapply Qpower_lt_compat_l_inv; [exact Hab|reflexivity]. Qed.

Lemma pow2_Z n : (0 ≤ n)%Z → pow2 n == inject_Z (2 ^ n).
Proof. intros Hn. unfold pow2. by rewrite (Zpower_Qpower 2 n Hn). Qed.

Lemma F2Q_shift m e s : (0 ≤ s)%Z →
  F2Q {| Fnum := m; Fexp := e + s |} == inject_Z (m * 2 ^ s) * pow2 e.
Proof.
  intros Hs. unfold F2Q. simpl. rewrite pow2_add, (pow2_Z s Hs), inject_Z_mult. ring.
Qed.

Lemma rne_shift_spec m s : (0 ≤ m)%Z → (0 < s)%Z →
  let r := rne_shift m s in
  (0 ≤ r ∧ - 2 ^ s ≤ 2 * (r * 2 ^ s - m) ≤ 2 ^ s)%Z.
Proof.
  intros Hm Hs. unfold rne_shift.
  assert (0 < 2 ^ s)%Z as HP by (apply Z.pow_pos_nonneg; lia).
  pose proof (Z.div_mod m (2 ^ s) ltac:(lia)) as Hdm.
  pose proof (Z.mod_pos_bound m (2 ^ s) HP) as Hmod.
  pose proof (Z.div_pos m (2 ^ s) Hm HP) as Hq.
  set (q := (m / 2 ^ s)%Z) in *. set (rem := (m mod 2 ^ s)%Z) in *.
  destruct (Z.compare_spec (2 * rem) (2 ^ s)); [destruct (Z.even q)|..]; simpl; nia.
Qed.

Lemma rne_shift_le m s K : (0 ≤ m)%Z → (0 < s)%Z → (m ≤ K * 2 ^ s)%Z → (rne_shift m s ≤ K)%Z.
Proof.
  intros Hm Hs HK. unfold rne_shift.
  assert (0 < 2 ^ s)%Z as HP by (apply Z.pow_pos_nonneg; lia).
  pose proof (Z.div_mod m (2 ^ s) ltac:(lia)) as Hdm.
  pose proof (Z.mod_pos_bound m (2 ^ s) HP) as Hmod.
  set (q := (m / 2 ^ s)%Z) in *. set (rem := (m mod 2 ^ s)%Z) in *.
  assert (q ≤ K)%Z as HqK by nia.
  destruct (Z.compare_spec (2 * rem) (2 ^ s)); [destruct (Z.even q)|..]; simpl; nia.
Qed.

Lemma round_to_id prec emin x :
  (0 < prec)%Z → (Z.abs (Fnum x) < 2 ^ prec)%Z → (emin ≤ Fexp x)%Z → round_to prec emin x = x.
Proof.
  intros Hprec Hm He. unfold round_to.
  assert (Z.log2 (Z.abs (Fnum x)) < prec)%Z as Hlog.
  { destruct (Z.eq_dec (Z.abs (Fnum x)) 0%Z) as [->|Hne]; [simpl; lia|].
    apply Z.log2_lt_pow2; lia. }
  destruct (Z.leb_spec (Z.max (Z.log2 (Z.abs (Fnum x)) + 1 - prec) (emin - Fexp x)) 0%Z); [done|lia].
Qed.

Lemma round_to_nonneg prec emin x :
  (0 ≤ Fnum x)%Z → (0 ≤ Fnum (round_to prec emin x))%Z.
Proof.
  intros Hm. unfold round_to.
  destruct (Z.leb_spec (Z.max (Z.log2 (Z.abs (Fnum x)) + 1 - prec) (emin - Fexp x)) 0%Z) as [|Hs];
    [done|]. simpl.
  destruct (rne_shift_spec (Z.abs (Fnum x)) _ ltac:(lia) Hs) as [Hr _].
  apply Z.mul_nonneg_nonneg; [|done]. by apply Z.sgn_nonneg.
Qed.

(** The exponent of the result of a rounding that shifts. *)
Lemma round_to_shift prec emin m e k :
  (0 < m)%Z → inject_Z m * pow2 e < pow2 k → (emin ≤ k - prec)%Z →
  (e + Z.max (Z.log2 m + 1 - prec) (emin - e) ≤ k - prec)%Z.
Proof.
  intros Hm Hk Hemin.
  assert (Z.log2 m + e < k)%Z; [|lia].
  apply pow2_lt_inv. eapply Qle_lt_trans; [|exact Hk].
  rewrite pow2_add, (pow2_Z (Z.log2 m)) by apply Z.log2_nonneg.
  apply Qmult_le_compat_r; [|apply Qlt_le_weak, pow2_pos].
  rewrite <- Zle_Qle. by apply Z.log2_spec.
Qed.

Lemma round_to_error prec emin x k :
  (0 ≤ Fnum x)%Z → F2Q x < pow2 k → (emin ≤ k - prec)%Z →
  - pow2 (k - prec - 1) <= F2Q (round_to prec emin x) - F2Q x
  ∧ F2Q (round_to prec emin x) - F2Q x <= pow2 (k - prec - 1).
Proof.
  intros Hm Hk Hemin. unfold round_to.
  pose proof (pow2_pos (k - prec - 1)) as Hpos.
  destruct (Z.leb_spec (Z.max (Z.log2 (Z.abs (Fnum x)) + 1 - prec) (emin - Fexp x)) 0%Z) as [|Hs].
  { split; lra. }
  destruct x as [m e]. simpl in *.
  destruct (Z.eq_dec m 0%Z) as [->|Hne].
  { unfold F2Q. simpl. change (inject_Z 0) with 0. rewrite !Qmult_0_l. split; lra. }
  rewrite Z.abs_eq in * by lia. rewrite Z.sgn_pos by lia. rewrite Z.mul_1_l.
  set (s := Z.max (Z.log2 m + 1 - prec) (emin - e)) in *.
  pose proof (round_to_shift prec emin m e k ltac:(lia) Hk Hemin) as Hshift. fold s in Hshift.
  destruct (rne_shift_spec m s Hm Hs) as [_ [Hlo Hhi]].
  rewrite (F2Q_shift _ e s) by lia. unfold F2Q. simpl.
  set (r := rne_shift m s) in *.
  assert (pow2 (e + s - 1) <= pow2 (k - prec - 1)) as Hle by (apply pow2_le; lia).
  assert (pow2 e * inject_Z (2 ^ s) == 2 * pow2 (e + s - 1)) as Heq.
  { rewrite <- (pow2_Z s) by lia. rewrite <- pow2_add.
    set (t := (e + s - 1)%Z). assert (e + s = 1 + t)%Z as -> by lia.
    rewrite pow2_add. change (pow2 1) with 2. reflexivity. }
  set (D := (r * 2 ^ s - m)%Z) in *.
  rewrite Zle_Qle in Hlo, Hhi. rewrite inject_Z_opp, inject_Z_mult in Hlo.
  rewrite inject_Z_mult in Hhi.
  change (inject_Z 2) with 2 in Hlo, Hhi.
  assert (inject_Z (r * 2 ^ s) * pow2 e - inject_Z m * pow2 e == inject_Z D * pow2 e) as ->.
  { unfold D, Z.sub. rewrite inject_Z_plus, inject_Z_opp. ring. }
  pose proof (pow2_pos e) as Hpe.
  set (p := pow2 e) in *. set (P := inject_Z (2 ^ s)) in *. set (d := inject_Z D) in *.
  set (X := pow2 (k - prec - 1)) in *. set (Y := pow2 (e + s - 1)) in *.
  split; nra.
Qed.

Lemma round_to_le prec emin x N :
  (0 < prec)%Z → (emin ≤ 0)%Z → (0 ≤ Fnum x)%Z → (0 ≤ N < 2 ^ prec)%Z →
  F2Q x <= inject_Z N → F2Q (round_to prec emin x) <= inject_Z N.
Proof.
  intros Hprec Hemin Hm HN Hx. unfold round_to.
  destruct (Z.leb_spec (Z.max (Z.log2 (Z.abs (Fnum x)) + 1 - prec) (emin - Fexp x)) 0%Z) as [|Hs];
    [done|].
  destruct x as [m e]. simpl in *. unfold F2Q in Hx. simpl in Hx.
  destruct (Z.eq_dec m 0%Z) as [->|Hne].
  { unfold F2Q. simpl. change (inject_Z 0) with 0. rewrite Qmult_0_l.
    change 0 with (inject_Z 0). rewrite <- Zle_Qle. lia. }
  rewrite Z.abs_eq in * by lia. rewrite Z.sgn_pos by lia. rewrite Z.mul_1_l.
  set (s := Z.max (Z.log2 m + 1 - prec) (emin - e)) in *.
  assert (e + s ≤ 0)%Z as Hes.
  { assert (inject_Z m * pow2 e < pow2 prec) as Hlt.
    { eapply Qle_lt_trans; [exact Hx|]. rewrite pow2_Z by lia. rewrite <- Zlt_Qlt. lia. }
    pose proof (round_to_shift prec emin m e prec ltac:(lia) Hlt ltac:(lia)). fold s in H. lia. }
  assert (m ≤ (N * 2 ^ (- (e + s))) * 2 ^ s)%Z as HmK.
  { rewrite <- Z.mul_assoc, <- Z.pow_add_r by lia.
    replace (- (e + s) + s)%Z with (- e)%Z by lia.
    rewrite Zle_Qle, inject_Z_mult, <- pow2_Z by lia.
    pose proof (pow2_pos e) as Hpe. pose proof (pow2_pos (- e)) as Hpne.
    assert (pow2 e * pow2 (- e) == 1) as Hinv.
    { rewrite <- pow2_add. replace (e + - e)%Z with 0%Z by lia. reflexivity. }
    assert (inject_Z m == inject_Z m * pow2 e * pow2 (- e)) as ->
      by (rewrite <- Qmult_assoc, Hinv; ring).
    apply Qmult_le_compat_r; [done|by apply Qlt_le_weak]. }
  pose proof (rne_shift_le m s _ Hm Hs HmK) as Hr.
  unfold F2Q. simpl. rewrite Zle_Qle in Hr. rewrite inject_Z_mult, <- pow2_Z in Hr by lia.
  pose proof (pow2_pos (e + s)) as Hp1. pose proof (pow2_pos (- (e + s))) as Hp2.
  assert (pow2 (e + s) * pow2 (- (e + s)) == 1) as Hinv.
  { rewrite <- pow2_add. replace (e + s + - (e + s))%Z with 0%Z by lia. reflexivity. }
  assert (inject_Z N == inject_Z N * pow2 (- (e + s)) * pow2 (e + s)) as ->
    by (rewrite <- Qmult_assoc, (Qmult_comm (pow2 (- (e + s)))), Hinv; ring).
  apply Qmult_le_compat_r; [done|by apply Qlt_le_weak].
Qed.

Lemma F2Q_plus x y : F2Q (Fplus_exact x y) == F2Q x + F2Q y.
Proof.
  unfold Fplus_exact, F2Q. simpl. destruct x as [mx ex], y as [my ey]. simpl.
  set (e := Z.min ex ey).
  rewrite inject_Z_plus, !inject_Z_mult, <- !pow2_Z by lia.
  replace ex with (ex - e + e)%Z at 2 by lia. replace ey with (ey - e + e)%Z at 2 by lia.
  rewrite !pow2_add. ring.
Qed.

Lemma F2Q_mult x y : F2Q (Fmult_exact x y) == F2Q x * F2Q y.
Proof. unfold Fmult_exact, F2Q. simpl. rewrite inject_Z_mult, pow2_add. ring. Qed.

(** A stored entry is the rounded number. *)
Lemma FloatTensor_entry (x : float) : Qred (F2Q (single x)) == F2Q (single x).
Proof. apply Qred_correct. Qed.

Lemma F2Q_nonneg x : (0 ≤ Fnum x)%Z → 0 <= F2Q x.
Proof.
  intros Hm. unfold F2Q. apply Qmult_le_0_compat; [|apply Qlt_le_weak, pow2_pos].
  change 0 with (inject_Z 0). by rewrite <- Zle_Qle.
Qed.

Lemma F2Q_Fint n : F2Q (Fint n) == inject_Z n.
Proof. unfold F2Q, Fint. simpl. change (pow2 0) with 1. ring. Qed.

Lemma float_of_int_small n : (0 ≤ n < 2 ^ 53)%Z → float_of_int n = Fint n.
Proof. intros Hn. apply round_to_id; simpl; lia. Qed.

(** Rounding keeps a number between 0 and an integer of the format. *)
Lemma double_range x N :
  (0 ≤ Fnum x)%Z → (0 ≤ N < 2 ^ 53)%Z → F2Q x <= inject_Z N →
  (0 ≤ Fnum (double x))%Z ∧ F2Q (double x) <= inject_Z N.
Proof.
  intros Hm HN Hx. split; [by apply round_to_nonneg|]. by apply round_to_le.
Qed.

Lemma single_range x N :
  (0 ≤ Fnum x)%Z → (0 ≤ N < 2 ^ 24)%Z → F2Q x <= inject_Z N →
  0 <= Qred (F2Q (single x)) <= inject_Z N.
Proof.
  intros Hm HN Hx. rewrite FloatTensor_entry. split.
  - by apply F2Q_nonneg, round_to_nonneg.
  - by apply round_to_le.
Qed.

Lemma Fplus_exact_nonneg x y :
  (0 ≤ Fnum x)%Z → (0 ≤ Fnum y)%Z → (0 ≤ Fnum (Fplus_exact x y))%Z.
Proof.
  intros Hx Hy. unfold Fplus_exact. simpl.
  apply Z.add_nonneg_nonneg; (apply Z.mul_nonneg_nonneg; [done|apply Z.pow_nonneg; lia]).
Qed.

(** An integer between 1 and 10 is stored as it is. *)
Lemma FloatTensor_small_int n :
  (0 ≤ n ≤ 10)%Z → Qred (F2Q (single (Fint n))) = inject_Z n.
Proof.
  intros Hn.
  assert (n = 0 ∨ n = 1 ∨ n = 2 ∨ n = 3 ∨ n = 4 ∨ n = 5 ∨ n = 6 ∨ n = 7 ∨ n = 8 ∨ n = 9
          ∨ n = 10)%Z as Hcases by lia.
  repeat (destruct Hcases as [->|Hcases]; [reflexivity|]). by subst.
Qed.

End FloatFacts.

(** ** Data_Generator.py *)

Section GeneratorFacts.
Import DataGenerator.
Context {G : Type} `{Random G}.

Lemma random_range g : (0 ≤ Fnum (random g).1)%Z ∧ (F2Q (random g).1 <= 1)%Q.
Proof.
  unfold random. destruct (getrandbits g) as [k g']. simpl.
  pose proof (Z.mod_pos_bound k (2 ^ 53) eq_refl) as Hk. split; [lia|].
  unfold F2Q. simpl.
  assert (inject_Z (k mod 2 ^ 53) <= inject_Z (2 ^ 53))%Q as Hle
    by (rewrite <- Zle_Qle; lia).
  assert (inject_Z (2 ^ 53) * pow2 (-53) == 1)%Q as Hone by reflexivity.
  pose proof (pow2_pos (-53)) as Hpos. rewrite <- Hone.
  apply Qmult_le_compat_r; [done|by apply Qlt_le_weak].
Qed.

(** [random.uniform(0, b)] is a float between 0 and [b]. *)
Lemma uniform_range b g :
  (0 ≤ b < 2 ^ 53)%Z →
  (0 ≤ Fnum (uniform 0 b g).1)%Z ∧ (F2Q (uniform 0 b g).1 <= inject_Z b)%Q.
Proof.
  intros Hb. unfold uniform.
  destruct (random_range g) as [Hu0 Hu1]. destruct (random g) as [u g']. simpl in *.
  rewrite Z.sub_0_r, (float_of_int_small 0), (float_of_int_small b) by lia.
  unfold float_mul, float_add.
  set (p := Fmult_exact (Fint b) u).
  assert (0 ≤ Fnum p)%Z as Hp0 by (unfold p; simpl; lia).
  assert (F2Q p <= inject_Z b)%Q as Hp1.
  { unfold p. rewrite F2Q_mult, F2Q_Fint.
    assert (0 <= inject_Z b)%Q as Hb0 by (change 0%Q with (inject_Z 0); rewrite <- Zle_Qle; lia).
    pose proof (F2Q_nonneg u Hu0). nra. }
  destruct (double_range p b Hp0 Hb Hp1) as [Hd0 Hd1].
  apply double_range; [by apply Fplus_exact_nonneg|done|].
  rewrite F2Q_plus, F2Q_Fint. change (inject_Z 0) with 0%Q. lra.
Qed.

Lemma randint_range a b g : (a ≤ b)%Z → (a ≤ (randint a b g).1 ≤ b)%Z.
Proof.
  intros Hab. unfold randint. destruct (getrandbits g) as [k g']. simpl.
  pose proof (Z.mod_pos_bound k (b - a + 1) ltac:(lia)). lia.
Qed.

Lemma depot_node_ok g : depot_ok (depot_node g).1.
Proof.
  unfold depot_node.
  destruct (uniform_range 1 g ltac:(lia)) as [Hx0 Hx1].
  destruct (uniform 0 1 g) as [x g1].
  destruct (uniform_range 1 g1 ltac:(lia)) as [Hy0 Hy1].
  destruct (uniform 0 1 g1) as [y g2]. simpl in *.
  exists (Qred (F2Q (single x))), (Qred (F2Q (single y))).
  split; [done|]. split; by apply (single_range _ 1).
Qed.

(** The stored end of the window against the stored start: the float
    [t1] is below 8, so are [t1 + 2] and its rounding to a double, and
    each rounding to single precision is off by 2^-22 at most. *)
Lemma window_end_rounded t1 :
  (0 ≤ Fnum t1)%Z → (F2Q t1 <= 5)%Q →
  let start := Qred (F2Q (single t1)) in
  let stop := Qred (F2Q (single (float_add t1 (float_of_int 2)))) in
  (start + 2 - (1 # 1048576) <= stop <= start + 2 + (1 # 1048576))%Q.
Proof.
  intros Ht0 Ht5 start stop. unfold start, stop. rewrite !FloatTensor_entry.
  rewrite (float_of_int_small 2) by lia. unfold float_add.
  set (a := Fplus_exact t1 (Fint 2)).
  assert (0 ≤ Fnum a)%Z as Ha0 by (apply Fplus_exact_nonneg; simpl; [done|lia]).
  assert (F2Q a == F2Q t1 + 2)%Q as Ha by (unfold a; by rewrite F2Q_plus, F2Q_Fint).
  assert (F2Q a <= inject_Z 7)%Q as Ha7 by (rewrite Ha; change (inject_Z 7) with 7%Q; lra).
  destruct (double_range a 7 Ha0 ltac:(lia) Ha7) as [Hd0 Hd7].
  change (inject_Z 7) with 7%Q in Hd7.
  assert (pow2 3 == 8)%Q as H8 by reflexivity.
  destruct (round_to_error 24 (-149) t1 3 Ht0 ltac:(rewrite H8; lra) ltac:(lia)) as [Hs1 Hs2].
  destruct (round_to_error 53 (-1074) a 3 Ha0 ltac:(rewrite H8, Ha; lra) ltac:(lia))
    as [Hd1 Hd2].
  destruct (round_to_error 24 (-149) (double a) 3 Hd0 ltac:(rewrite H8; lra) ltac:(lia))
    as [He1 He2].
  fold (single t1) in Hs1, Hs2. fold (double a) in Hd1, Hd2.
  fold (single (double a)) in He1, He2.
  assert (pow2 (3 - 24 - 1) == 1 # 4194304)%Q as H22 by reflexivity.
  assert (pow2 (3 - 53 - 1) == 1 # 2251799813685248)%Q as H51 by reflexivity.
  rewrite H22 in Hs1, Hs2, He1, He2. rewrite H51 in Hd1, Hd2.
  split; lra.
Qed.

Lemma service_node_ok g : service_ok (service_node g).1.
Proof.
  unfold service_node.
  destruct (uniform 0 1 g) as [x g1].
  destruct (uniform 0 1 g1) as [y g2].
  pose proof (randint_range 1 10 g2 ltac:(done)) as Hc.
  destruct (randint 1 10 g2) as [c g3].
  destruct (uniform_range 5 g3 ltac:(lia)) as [Ht0 Ht5].
  destruct (uniform 0 5 g3) as [t1 g4]. simpl in *.
  eexists _, _, _, _, c. split.
  { rewrite (FloatTensor_small_int c) by lia. reflexivity. }
  split; [done|]. split; [by apply (single_range _ 5)|].
  by apply window_end_rounded.
Qed.

Lemma service_nodes_ok n g :
  Forall service_ok (service_nodes n g).1 ∧ length (service_nodes n g).1 = n.
Proof.
  revert g. induction n as [|n IH]; intros g; simpl; [by split|].
  pose proof (service_node_ok g) as Hrow.
  destruct (service_node g) as [row g1].
  destruct (IH g1) as [Hrows Hlen].
  destruct (service_nodes n g1) as [rows g2]. simpl in *.
  split; [by constructor | by rewrite Hlen].
Qed.

Lemma rows_of_concat (rows : list node) :
  Forall (λ r, length r = 6) rows →
  rows_of 6 (length rows) (concat rows) = rows.
Proof.
  induction 1 as [|r rows Hr _ IH]; [done|].
  cbn [length rows_of concat].
  rewrite take_app_length' by done.
  rewrite drop_app_length' by done.
  by rewrite IH.
Qed.

Lemma length_concat_rows (rows : list node) :
  Forall (λ r, length r = 6) rows →
  length (concat rows) = length rows * 6.
Proof.
  induction 1 as [|r rows Hr _ IH]; [done|].
  cbn [concat length]. rewrite length_app, IH, Hr. lia.
Qed.

Lemma view_concat (rows : list node) :
  Forall (λ r, length r = 6) rows → view 6 (concat rows) = Ok rows.
Proof.
  intros Hrows. unfold view. rewrite length_concat_rows by done.
  rewrite Nat.Div0.mod_mul, Nat.div_mul by done. simpl.
  by rewrite rows_of_concat.
Qed.

Lemma depot_ok_length row : depot_ok row → length row = 6.
Proof. by intros (x & y & -> & _). Qed.

Lemma service_ok_length row : service_ok row → length row = 6.
Proof. by intros (x & y & t1 & t2 & d & -> & _). Qed.

Lemma make_sample_ok node_num g :
  ∃ s, (make_sample node_num g).1 = Ok s ∧ instance_ok node_num s.
Proof.
  unfold make_sample.
  pose proof (depot_node_ok g) as Hd.
  destruct (depot_node g) as [d g1].
  destruct (service_nodes_ok (Z.to_nat (node_num - 1)) g1) as [Hrows Hlen].
  destruct (service_nodes _ g1) as [rows g2]. simpl in *.
  exists (d :: rows). split.
  - apply (view_concat (d :: rows)). constructor; [by apply depot_ok_length|].
    eapply Forall_impl; [exact Hrows|]. apply service_ok_length.
  - by exists d, rows.
Qed.

(** C10, as the code has it.  Whatever the state of the random number
    generator, the constructor of [VRPDataset] returns [num_samples]
    instances, and in each of them node 0 is the depot row
    [(x, y, 0, 0, 0, 0)] with [x] and [y] in [0, 1], followed by
    [node_num - 1] service rows [(x, y, demand, t1, t2, 0)] whose demand
    is an integer between 1 and 10, whose window start [t1] lies in
    [0, 5] and whose window end [t2] is [t1 + 2] up to the rounding of
    the stored values to single precision: the two differ by 2^-20 at
    most. *)
Theorem VRPDataset_instances_ok (node_num num_samples : Z) (g : G) :
  ∃ dataset,
    VRPDataset_init node_num num_samples g = Ok dataset
    ∧ length dataset = Z.to_nat num_samples
    ∧ Forall (instance_ok node_num) dataset.
Proof.
  unfold VRPDataset_init. generalize (Z.to_nat num_samples). intros n.
  revert g. induction n as [|n IH]; intros g; simpl.
  { exists []. by repeat split. }
  destruct (make_sample_ok node_num g) as (s & Hs & Hok).
  destruct (make_sample node_num g) as [rs g1]. simpl in Hs. subst rs.
  destruct (IH g1) as (ds & -> & Hlen & Hds). simpl.
  exists (s :: ds). repeat split; [by rewrite <- Hlen | by constructor].
Qed.

End GeneratorFacts.

(** ** Writes at index lists *)

Lemma if_elem_of_cons {A B} `{EqDecision A} (a b : A) (l : list A) (x y : B) :
  (if decide (a ∈ b :: l) then x else y)
  = if decide (a = b) then x else if decide (a ∈ l) then x else y.
Proof.
  destruct (decide (a = b)) as [->|Hne].
  - rewrite decide_True; [done | by left].
  - destruct (decide (a ∈ l)) as [Hin|Hin].
    + rewrite decide_True; [done | by right].
    + rewrite decide_False; [done|]. by intros [?|?]%elem_of_cons.
Qed.

Lemma entry_setitem2 {A} (t t' : list (list A)) i j x i' j' :
  setitem2 t i j x = Ok t' →
  entry t' i' j' = (λ old, if decide ((i', j') = (i, j)) then x else old) <$> entry t i' j'.
Proof.
  unfold setitem2, entry. intros Ht.
  inv_bind Ht as row Hrow. inv_bind Ht as row' Hrow'. injection Ht as <-.
  apply getitem_Ok in Hrow. apply setitem_Ok in Hrow' as [Hj ->].
  destruct (decide (i' = i)) as [->|Hi].
  - rewrite list_lookup_insert_eq by (by eapply lookup_lt_Some). rewrite Hrow. simpl.
    destruct (decide (j' = j)) as [->|Hj'].
    + rewrite list_lookup_insert_eq by done.
      apply lookup_lt_is_Some in Hj as [old ->]. simpl. by rewrite decide_True.
    + rewrite list_lookup_insert_ne by done.
      destruct (row !! j'); simpl; [|done]. rewrite decide_False; [done|congruence].
  - rewrite list_lookup_insert_ne by done.
    destruct (t !! i') as [r|]; simpl; [|done].
    destruct (r !! j'); simpl; [|done]. rewrite decide_False; [done|congruence].
Qed.

Lemma entry_index_fill2 {A} (pairs : list (nat * nat)) (x : A) (t t' : list (list A)) i j :
  index_fill2 pairs x t = Ok t' →
  entry t' i j = (λ old, if decide ((i, j) ∈ pairs) then x else old) <$> entry t i j.
Proof.
  unfold index_fill2. revert t.
  induction pairs as [|[i0 j0] pairs IH]; intros t Ht; simpl in Ht.
  - injection Ht as <-. by destruct (entry t i j).
  - inv_bind Ht as t1 Ht1. rewrite (IH _ Ht), (entry_setitem2 _ _ _ _ _ _ _ Ht1).
    destruct (entry t i j); simpl; [|done]. f_equal.
    rewrite if_elem_of_cons. by repeat case_decide.
Qed.

Lemma index_fill_lookup {A} (idxs : list nat) (x : A) (t t' : list A) i :
  index_fill idxs x t = Ok t' →
  t' !! i = (λ old, if decide (i ∈ idxs) then x else old) <$> t !! i.
Proof.
  unfold index_fill. revert t.
  induction idxs as [|i0 idxs IH]; intros t Ht; simpl in Ht.
  - injection Ht as <-. by destruct (t !! i).
  - inv_bind Ht as t1 Ht1. apply setitem_Ok in Ht1 as [Hi0 ->]. rewrite (IH _ Ht).
    destruct (decide (i = i0)) as [->|Hne].
    + rewrite list_lookup_insert_eq by done.
      apply lookup_lt_is_Some in Hi0 as [old ->]. simpl. f_equal.
      rewrite if_elem_of_cons. by repeat case_decide.
    + rewrite list_lookup_insert_ne by done.
      destruct (t !! i); simpl; [|done]. f_equal.
      rewrite if_elem_of_cons. by repeat case_decide.
Qed.

(** A write at the indices [idxs] leaves every other index alone. *)
Lemma index_put_frame {A} (idxs : list nat) (vals t t' : list A) b :
  index_put idxs vals t = Ok t' → b ∉ idxs → t' !! b = t !! b.
Proof.
  unfold index_put. case_decide as Hlen; [clear Hlen|done].
  revert vals t. induction idxs as [|i idxs IH]; intros vals t Ht Hb.
  - simpl in Ht. by injection Ht as <-.
  - destruct vals as [|v vals]; simpl in Ht; [by injection Ht as <-|].
    inv_bind Ht as t1 Ht1. apply setitem_Ok in Ht1 as [Hi ->].
    rewrite (IH _ _ Ht) by (by apply not_elem_of_cons in Hb as [_ ?]).
    apply list_lookup_insert_ne. by apply not_elem_of_cons in Hb as [? _].
Qed.

Lemma index_put_dim1_frame {A} (idxs : list nat) (vals t t' : list (list A)) b n :
  index_put_dim1 idxs vals t = Ok t' → b ∉ idxs → entry t' n b = entry t n b.
Proof.
  unfold index_put_dim1, entry. case_decide as Hlen; [|done]. intros Ht Hb.
  apply mapM_Ok_lookup in Ht as [Hlen' Ht].
  rewrite length_zip, Hlen, Nat.min_id in Hlen'.
  destruct (t !! n) as [row|] eqn:Hrow; simpl.
  - destruct (lookup_lt_is_Some_2 vals n) as [v Hv].
    { rewrite Hlen. by eapply lookup_lt_Some. }
    destruct (Ht n (v, row)) as (row' & -> & Hrow'); simpl.
    { rewrite lookup_zip_with, Hv. simpl. by rewrite Hrow. }
    by eapply index_put_frame.
  - rewrite (lookup_ge_None_2 t'); [done|].
    rewrite Hlen'. by apply lookup_ge_None.
Qed.

Lemma setitem_0_frame (t t' : tensor3) (idxs : list nat) (value : tensor) b n :
  setitem_0 t idxs value = Ok t' → b ∉ idxs → entry t' n b = entry t n b.
Proof.
  unfold setitem_0, entry. destruct value as [m|]; [|done]. intros Ht Hb.
  inv_bind Ht as row0 Hrow0. inv_bind Ht as row0' Hrow0'. injection Ht as <-.
  apply getitem_Ok in Hrow0.
  destruct n as [|n].
  - rewrite list_lookup_insert_eq by (by eapply lookup_lt_Some). rewrite Hrow0. simpl.
    by eapply index_put_frame.
  - by rewrite list_lookup_insert_ne.
Qed.

(** ** Reading through index lists *)

Lemma getitem2_Ok {A} (t : list (list A)) i j x : getitem2 t i j = Ok x ↔ entry t i j = Some x.
Proof.
  unfold getitem2, entry, getitem.
  destruct (t !! i) as [row|]; simpl; [|split; congruence].
  destruct (row !! j); split; congruence.
Qed.

Lemma elem_of_zip_seq (l : list nat) n b j :
  length l = n → (b, j) ∈ zip (seq 0 n) l ↔ l !! b = Some j.
Proof.
  intros Hlen. rewrite list_elem_of_lookup. split.
  - intros [k Hk]. rewrite lookup_zip_with in Hk.
    destruct (seq 0 n !! k) as [b'|] eqn:Hb'; simpl in Hk; [|done].
    destruct (l !! k) as [j'|] eqn:Hj'; simpl in Hk; [|done].
    injection Hk as <- <-. apply lookup_seq in Hb' as [-> _]. done.
  - intros Hb. exists b. rewrite lookup_zip_with, Hb.
    rewrite lookup_seq_lt; [done|]. rewrite <- Hlen. by eapply lookup_lt_Some.
Qed.

Lemma gather_lookup {A} (t : list (list A)) (idxs : list nat) batch_size rows i n :
  gather t idxs batch_size = Ok rows → length idxs = batch_size →
  idxs !! i = Some n → ∃ row, rows !! i = Some row ∧ entry t n i = Some row.
Proof.
  unfold gather, broadcast. intros Hrows Hlen Hn.
  rewrite decide_True in Hrows by (by rewrite length_seq). simpl in Hrows.
  apply mapM_Ok_lookup in Hrows as [_ Hrows].
  destruct (Hrows i (n, i)) as (row & Hrow & Hget).
  { rewrite lookup_zip_with, Hn. simpl.
    rewrite lookup_seq_lt; [done|]. rewrite <- Hlen. by eapply lookup_lt_Some. }
  exists row. split; [done|]. by apply getitem2_Ok.
Qed.

(** ** When reads and loops succeed *)

Lemma mapM_Ok_intro {A B} (f : A → result B) (l : list A) :
  (∀ x, x ∈ l → ∃ y, f x = Ok y) → ∃ k, mapM f l = Ok k.
Proof.
  induction l as [|a l IH]; intros Hf; simpl; [by eexists|].
  destruct (Hf a) as [y ->]; [by left|].
  destruct IH as [k ->]; [intros x Hx; apply Hf; by right|].
  by eexists.
Qed.

Lemma mapM_Ok_same {A} (f : A → result A) (l : list A) :
  (∀ x, x ∈ l → f x = Ok x) → mapM f l = Ok l.
Proof.
  induction l as [|a l IH]; intros Hf; simpl; [done|].
  rewrite (Hf a) by (by left). simpl. rewrite IH; [done|].
  intros x Hx. apply Hf. by right.
Qed.

Lemma mapM_Ok_elem {A B} (f : A → result B) (l : list A) (k : list B) y :
  mapM f l = Ok k → y ∈ k → ∃ x, x ∈ l ∧ f x = Ok y.
Proof.
  intros Hk Hy. apply mapM_Ok_lookup in Hk as [Hlen Hk].
  apply list_elem_of_lookup in Hy as [i Hi].
  destruct (lookup_lt_is_Some_2 l i) as [x Hx].
  { rewrite <- Hlen. by eapply lookup_lt_Some. }
  destruct (Hk i x Hx) as (y' & Hy' & Hf).
  exists x. split; [by eapply list_elem_of_lookup_2|]. congruence.
Qed.

Lemma for_each_Ok_intro {S I} (P : S → Prop) (body : S → I → result S) (l : list I) (s : S) :
  (∀ s i, i ∈ l → P s → ∃ s', body s i = Ok s' ∧ P s') →
  P s → ∃ s', for_each body l s = Ok s' ∧ P s'.
Proof.
  revert s. induction l as [|i l IH]; intros s Hbody Hs; simpl; [by exists s|].
  destruct (Hbody s i) as (s1 & -> & Hs1); [by left|done|]. simpl.
  apply IH; [|done]. intros s2 j Hj. apply Hbody. by right.
Qed.

Lemma entry_is_Some {A} (t : list (list A)) batch_size n b :
  Forall (λ m, length m = batch_size) t → n < length t → b < batch_size →
  is_Some (entry t n b).
Proof.
  intros Ht Hn Hb. unfold entry.
  destruct (lookup_lt_is_Some_2 t n Hn) as [m Hm]. rewrite Hm. simpl.
  apply lookup_lt_is_Some_2.
  by rewrite (proj1 (Forall_lookup _ _) Ht n m Hm).
Qed.

Lemma gather_Ok_intro {A} (t : list (list A)) (idxs : list nat) batch_size :
  length idxs = batch_size → Forall (λ n, n < length t) idxs →
  Forall (λ m, length m = batch_size) t →
  ∃ rows, gather t idxs batch_size = Ok rows.
Proof.
  intros Hlen Hidxs Ht. unfold gather, broadcast.
  rewrite decide_True by (by rewrite length_seq). simpl.
  apply mapM_Ok_intro. intros [n b] Hnb.
  apply list_elem_of_lookup in Hnb as [k Hk]. rewrite lookup_zip_with in Hk.
  destruct (idxs !! k) as [n'|] eqn:Hn'; simpl in Hk; [|done].
  destruct (seq 0 batch_size !! k) as [b'|] eqn:Hb'; simpl in Hk; [|done].
  injection Hk as <- <-. apply lookup_seq in Hb' as [-> Hb'].
  destruct (entry_is_Some t batch_size n' k Ht) as [row Hrow]; [|done|].
  { by apply (proj1 (Forall_lookup _ _) Hidxs k). }
  exists row. by apply getitem2_Ok.
Qed.

Lemma gather_elem {A} (t : list (list A)) (idxs : list nat) batch_size rows row :
  gather t idxs batch_size = Ok rows → row ∈ rows → ∃ n b, entry t n b = Some row.
Proof.
  unfold gather. intros Hrows Hrow. inv_bind Hrows as pairs Hpairs.
  destruct (mapM_Ok_elem _ _ _ _ Hrows Hrow) as ([n b] & _ & Hget).
  exists n, b. by apply getitem2_Ok.
Qed.

Lemma gather_length {A} (t : list (list A)) (idxs : list nat) batch_size rows :
  gather t idxs batch_size = Ok rows → length idxs = batch_size →
  length rows = batch_size.
Proof.
  unfold gather, broadcast. intros Hrows Hlen.
  rewrite decide_True in Hrows by (by rewrite length_seq). simpl in Hrows.
  apply mapM_Ok_lookup in Hrows as [-> _].
  by rewrite length_zip, length_seq, Hlen, Nat.min_id.
Qed.

Section DecoderFacts.
Import PtrNet.
Context `{Torch}.
Variable self : Decoder.

(** ** Masking *)

Lemma apply_mask_to_logits_inv logits mask prev_idxs logits' maskk :
  apply_mask_to_logits logits mask (Some prev_idxs) = Ok (logits', maskk) →
  length prev_idxs = length logits →
  ∃ m1, index_fill2 (zip (seq 0 (length logits)) prev_idxs) 1
          (default (zeros_like logits) mask) = Ok m1
        ∧ index_fill2 ((λ b : nat, (b, 0)) <$> nonzero prev_idxs) 0 m1 = Ok maskk
        ∧ for_each fill_row (concat maskk) logits = Ok logits'.
Proof.
  unfold apply_mask_to_logits, broadcast. intros Hm Hlen.
  rewrite decide_True in Hm by (by rewrite length_seq). simpl in Hm.
  inv_bind Hm as m1 Hm1. inv_bind Hm as m2 Hm2. inv_bind Hm as l' Hl'.
  injection Hm as <- <-. exists m1. by destruct mask.
Qed.

(** Line 166: the logits of instance [b] are overwritten, all of them,
    exactly when the number [b] occurs as an entry of the mask. *)
Lemma fill_rows_lookup (vs : list nat) (logits logits' : list (list logit)) b :
  for_each fill_row vs logits = Ok logits' →
  logits' !! b
  = (λ row : list logit, if decide (b ∈ vs) then (λ _, NegInf) <$> row else row)
    <$> logits !! b.
Proof.
  revert logits. induction vs as [|v vs IH]; intros logits Hl; simpl in Hl.
  - injection Hl as <-. by destruct (logits !! b).
  - inv_bind Hl as logits1 Hlogits1. unfold fill_row in Hlogits1.
    inv_bind Hlogits1 as row Hrow. injection Hlogits1 as <-. apply getitem_Ok in Hrow.
    rewrite (IH _ Hl). destruct (decide (b = v)) as [->|Hne].
    + rewrite list_lookup_insert_eq by (by eapply lookup_lt_Some). rewrite Hrow. simpl.
      f_equal. rewrite (decide_True (P:=v ∈ v :: vs)) by (by left).
      case_decide; [|done]. by rewrite <- list_fmap_compose.
    + rewrite list_lookup_insert_ne by done.
      destruct (logits !! b); simpl; [|done]. f_equal.
      rewrite if_elem_of_cons. by rewrite (decide_False (P:=b = v)).
Qed.

(** C2, what the code does.  Whenever a masking call returns, the logits
    of instance [b] are minus infinity at every node when the number [b]
    occurs as an entry of the returned mask, and are the logits passed in
    otherwise: the entries of the mask (0 and 1) select instances, not
    the marked nodes. *)
Theorem apply_mask_to_logits_rows logits mask prev_idxs logits' maskk b :
  apply_mask_to_logits logits mask (Some prev_idxs) = Ok (logits', maskk) →
  logits' !! b
  = (λ row : list logit, if decide (b ∈ concat maskk) then (λ _, NegInf) <$> row else row)
    <$> logits !! b.
Proof.
  unfold apply_mask_to_logits. intros Hm.
  inv_bind Hm as pairs Hpairs. inv_bind Hm as m1 Hm1. inv_bind Hm as m2 Hm2.
  inv_bind Hm as l' Hl'. injection Hm as <- <-. by apply fill_rows_lookup.
Qed.

(** C3, as the code has it.  Whenever a masking call returns, the mask it
    returns marks, for each instance, the immediately preceding selection
    and keeps every other non-depot entry of the mask passed in (all
    zeros on the first call): the mask is carried from step to step, so
    earlier selections stay marked.  The depot entry (index 0) is 1
    exactly when the preceding selection was the depot and 0 when it was
    another node. *)
Theorem apply_mask_to_logits_mask logits mask prev_idxs logits' maskk b p j :
  apply_mask_to_logits logits mask (Some prev_idxs) = Ok (logits', maskk) →
  length prev_idxs = length logits →
  prev_idxs !! b = Some p →
  entry maskk b j =
    (λ old, if decide (j = 0) then (if decide (p = 0) then 1 else 0)
            else if decide (j = p) then 1 else old)
    <$> entry (default (zeros_like logits) mask) b j.
Proof.
  intros Hm Hlen Hp.
  destruct (apply_mask_to_logits_inv _ _ _ _ _ Hm Hlen) as (m1 & Hm1 & Hm2 & _).
  rewrite (entry_index_fill2 _ _ _ _ b j Hm2), (entry_index_fill2 _ _ _ _ b j Hm1).
  destruct (entry _ b j) as [old|]; simpl; [|done]. f_equal.
  assert ((b, j) ∈ zip (seq 0 (length logits)) prev_idxs ↔ j = p) as Hin1.
  { rewrite elem_of_zip_seq by done. rewrite Hp. naive_solver. }
  assert ((b, j) ∈ (λ b : nat, (b, 0)) <$> nonzero prev_idxs ↔ j = 0 ∧ p ≠ 0) as Hin2.
  { rewrite list_elem_of_fmap. setoid_rewrite elem_of_nonzero. split.
    - intros (b' & [= <- ->] & x & Hx & Hne). split; [done|]. congruence.
    - intros [-> Hne]. exists b. split; [done|]. by exists p. }
  repeat case_decide; subst; try done; exfalso; intuition auto.
Qed.

(** ** The stochastic decoding step *)

(** The branch of line 271 is never taken to its end: the graph embedder
    is handed one row per instance, and what it returns does not fit the
    slice it is assigned to. *)
Lemma re_embed_Ok before embedded zero_idxs embedded' :
  re_embed self before embedded zero_idxs = Ok embedded' →
  zero_idxs = [0] ∧ embedded' = embedded.
Proof.
  unfold re_embed. destruct zero_idxs as [|z [|]]; simpl; [done| |done].
  destruct z as [|z]; simpl.
  - by intros [= <-].
  - intros Hr. inv_bind Hr as row0 Hrow0. inv_bind Hr as re Hre.
    inv_bind Hr as mu Hmu. done.
Qed.

Lemma Qltb_max (a s : Q) : (if Qltb a s then s else a) = Qmax a s.
Proof. unfold Qltb, Qmax, GenericMinMax.gmax. by destruct (a ?= s)%Q. Qed.

Lemma update_instance_frame nz dist req t1 (rc rc' : list (Q * Q)) j k :
  update_instance nz dist req t1 rc j = Ok rc' → k ≠ j → k ≠ 0 → rc' !! k = rc !! k.
Proof.
  unfold update_instance. case_decide; [|by intros [= <-]]. intros Hu Hj Hne0.
  inv_bind Hu as row Hrow. inv_bind Hu as d Hd. inv_bind Hu as t Ht.
  inv_bind Hu as rc1 Hrc1. inv_bind Hu as row0 Hrow0. inv_bind Hu as c Hc.
  apply setitem_Ok in Hrc1 as [_ ->]. apply setitem_Ok in Hu as [_ ->].
  by rewrite !list_lookup_insert_ne.
Qed.

Lemma update_instance_self nz dist req t1 (rc rc' : list (Q * Q)) i c t d s :
  update_instance nz dist req t1 rc i = Ok rc' → i ∈ nz → i ≠ 0 →
  rc !! i = Some (c, t) → dist !! i = Some d → t1 !! i = Some s →
  rc' !! i = Some (c, Qmax (t + d) s).
Proof.
  unfold update_instance. intros Hu Hi Hne0 Hrc Hdist Ht1.
  rewrite decide_True in Hu by done.
  apply getitem_Ok in Hrc, Hdist, Ht1. rewrite Hrc in Hu. simpl in Hu.
  rewrite Hdist in Hu. simpl in Hu. rewrite Ht1 in Hu. simpl in Hu.
  inv_bind Hu as rc1 Hrc1. inv_bind Hu as row0 Hrow0. inv_bind Hu as c0 Hc0.
  apply setitem_Ok in Hrc1 as [Hlt ->]. apply setitem_Ok in Hu as [_ ->].
  rewrite list_lookup_insert_ne by done.
  rewrite list_lookup_insert_eq by done. by rewrite Qltb_max.
Qed.

Lemma update_loop_frame nz dist req t1 l (rc rc' : list (Q * Q)) k :
  for_each (update_instance nz dist req t1) l rc = Ok rc' →
  k ∉ l → k ≠ 0 → rc' !! k = rc !! k.
Proof.
  intros Hl Hk Hne0.
  eapply (for_each_invariant (λ s, s !! k = rc !! k)); [|done|exact Hl].
  intros s j s' Hj Hs Hbody. rewrite <- Hs.
  eapply update_instance_frame; [done| |done]. by intros ->.
Qed.

(** After the loop of lines 289-297, an instance other than instance 0
    that selected a node has kept its capacity and waited for the window. *)
Lemma update_loop_row nz dist req t1 batch_size (rc rc' : list (Q * Q)) i c t d s :
  for_each (update_instance nz dist req t1) (seq 0 batch_size) rc = Ok rc' →
  i < batch_size → i ∈ nz → i ≠ 0 →
  rc !! i = Some (c, t) → dist !! i = Some d → t1 !! i = Some s →
  rc' !! i = Some (c, Qmax (t + d) s).
Proof.
  intros Hl Hi Hnz Hne0 Hrc Hdist Ht1.
  replace batch_size with (i + S (batch_size - S i)) in Hl by lia.
  rewrite seq_app in Hl. simpl in Hl. rewrite for_each_app in Hl.
  inv_bind Hl as rc1 Hrc1. simpl in Hl. inv_bind Hl as rc2 Hrc2.
  rewrite (update_loop_frame _ _ _ _ _ _ _ i Hl); [|rewrite elem_of_seq; lia|done].
  eapply update_instance_self; [exact Hrc2|done..| |done|done].
  rewrite (update_loop_frame _ _ _ _ _ _ _ i Hrc1); [done|rewrite elem_of_seq; lia|done].
Qed.

Lemma index_fill_length {A} (idxs : list nat) (x : A) (t t' : list A) :
  index_fill idxs x t = Ok t' → length t' = length t ∧ ∀ i, i ∈ idxs → i < length t.
Proof.
  unfold index_fill. revert t. induction idxs as [|i0 idxs IH]; intros t Ht; simpl in Ht.
  - injection Ht as <-. split; [done|]. intros i Hi. by apply elem_of_nil in Hi.
  - inv_bind Ht as t1 Ht1. apply setitem_Ok in Ht1 as [Hi0 ->].
    destruct (IH _ Ht) as [Hlen Hin]. rewrite length_insert in Hlen, Hin.
    split; [done|]. intros i [->|Hi]%elem_of_cons; [done|by apply Hin].
Qed.

Lemma index_fill_lookup_in {A} (idxs : list nat) (x : A) (t t' : list A) i :
  index_fill idxs x t = Ok t' → i ∈ idxs → t' !! i = Some x.
Proof.
  intros Ht Hi. rewrite (index_fill_lookup _ _ _ _ i Ht).
  destruct (index_fill_length _ _ _ _ Ht) as [_ Hlt].
  destruct (lookup_lt_is_Some_2 t i (Hlt i Hi)) as [old ->]. simpl.
  by rewrite decide_True.
Qed.

Lemma index_fill_lookup_notin {A} (idxs : list nat) (x : A) (t t' : list A) i :
  index_fill idxs x t = Ok t' → i ∉ idxs → t' !! i = t !! i.
Proof.
  intros Ht Hi. rewrite (index_fill_lookup _ _ _ _ i Ht).
  destruct (t !! i); simpl; [|done]. by rewrite decide_False.
Qed.

(** Line 267 writes the last column of a feature row and nothing else. *)
Lemma set_visited_entry (before before' : list (list (list Q))) nb n b row :
  set_visited before nb = Ok before' → entry before n b = Some row →
  ∃ row', entry before' n b = Some row' ∧ length row' = length row
          ∧ ∀ k, k ≠ pred (length row) → row' !! k = row !! k.
Proof.
  destruct nb as [n0 b0]. unfold set_visited, entry. intros Hs Hrow.
  inv_bind Hs as m Hm. inv_bind Hs as v Hv. inv_bind Hs as v' Hv'. injection Hs as <-.
  apply getitem_Ok in Hm, Hv. apply setitem_Ok in Hv' as [Hlt ->].
  destruct (decide (n = n0)) as [->|Hn].
  - rewrite list_lookup_insert_eq by (by eapply lookup_lt_Some).
    rewrite Hm in Hrow. simpl in *.
    destruct (decide (b = b0)) as [->|Hb].
    + rewrite list_lookup_insert_eq by (by eapply lookup_lt_Some).
      rewrite Hv in Hrow. injection Hrow as <-.
      eexists. split; [done|]. split; [apply length_insert|].
      intros k Hk. by rewrite list_lookup_insert_ne.
    + rewrite list_lookup_insert_ne by done. by exists row.
  - rewrite list_lookup_insert_ne by done. by exists row.
Qed.

Lemma visited_loop_entry pairs (before before' : list (list (list Q))) n b row :
  for_each set_visited pairs before = Ok before' → entry before n b = Some row →
  ∃ row', entry before' n b = Some row' ∧ length row' = length row
          ∧ ∀ k, k ≠ pred (length row) → row' !! k = row !! k.
Proof.
  revert before row. induction pairs as [|nb pairs IH]; intros before row Hl Hrow.
  - simpl in Hl. injection Hl as <-. by exists row.
  - simpl in Hl. inv_bind Hl as before1 Hbefore1.
    destruct (set_visited_entry _ _ _ _ _ _ Hbefore1 Hrow) as (row1 & Hrow1 & Hlen1 & Hsame1).
    destruct (IH _ _ Hl Hrow1) as (row' & Hrow' & Hlen' & Hsame').
    exists row'. split; [done|]. split; [congruence|].
    intros k Hk. rewrite Hsame' by congruence. by apply Hsame1.
Qed.

Lemma take_2_same (row row' : list Q) :
  length row' = length row → (∀ k, k ≠ pred (length row) → row' !! k = row !! k) →
  3 ≤ length row → take 2 row' = take 2 row.
Proof.
  intros Hlen Hsame Hrow. apply list_eq. intros k. rewrite !lookup_take.
  case_decide; [|done]. apply Hsame. lia.
Qed.

(** What a call of [decode_stochastic] that returns has gone through. *)
Lemma decode_stochastic_inv multinomial probs before embedded prev_idxs rc out :
  decode_stochastic self multinomial probs before embedded prev_idxs rc = Ok out →
  let idxs := d_idxs out in
  let before' := d_before_embedded_inputs out in
  multinomial probs = Ok idxs
  ∧ d_zero_idxs out = where_zero idxs
  ∧ where_zero idxs = [0]
  ∧ d_embedded_inputs out = embedded
  ∧ (∃ visited, for_each set_visited (zip visited (nonzero idxs)) before = Ok before')
  ∧ ∃ prev cur required_capacity t_1 rc1,
      gather before' prev_idxs (length probs) = Ok prev
      ∧ gather before' idxs (length probs) = Ok cur
      ∧ mapM (λ row : list Q, getitem row 2) cur = Ok required_capacity
      ∧ mapM (λ row : list Q, getitem row 3) cur = Ok t_1
      ∧ for_each (update_instance (nonzero idxs)
                    (norm <$> zip_with (zip_with Qminus) (take 2 <$> prev) (take 2 <$> cur))
                    required_capacity t_1) (seq 0 (length probs)) rc = Ok rc1
      ∧ index_fill (where_zero idxs) (vehicle_init_capacity self, 0%Q) rc1 = Ok (d_rc_ct out).
Proof.
  unfold decode_stochastic. intros Hd.
  inv_bind Hd as idxs Hidxs. inv_bind Hd as visited Hvisited.
  inv_bind Hd as before' Hbefore'. inv_bind Hd as embedded' Hembedded'.
  inv_bind Hd as selected Hselected. inv_bind Hd as sels0 Hsels0.
  inv_bind Hd as prev Hprev. inv_bind Hd as cur Hcur.
  inv_bind Hd as required_capacity Hreq. inv_bind Hd as t_1 Ht_1.
  inv_bind Hd as rc1 Hrc1. inv_bind Hd as rc2 Hrc2. inv_bind Hd as sels Hsels.
  injection Hd as <-. simpl.
  apply re_embed_Ok in Hembedded' as [Hzero ->].
  repeat split; [done..|by exists visited|]. by exists prev, cur, required_capacity, t_1, rc1.
Qed.

(** An instance that selected a node is not instance 0 when the call
    returns: instance 0 is then the one at the depot. *)
Lemma where_zero_singleton idxs i n :
  where_zero idxs = [0] → idxs !! i = Some n → n ≠ 0 → i ≠ 0.
Proof.
  intros Hz Hi Hn ->.
  assert (0 ∈ where_zero idxs) as Hin by (rewrite Hz; by left).
  apply elem_of_where_zero in Hin. congruence.
Qed.

(** The vehicle state of an instance that selected a node, after a call
    that returns: the capacity is the one it had, the time is the later
    of its arrival and of the opening of the window. *)
Lemma decode_stochastic_row multinomial probs before embedded prev_idxs rc out
    i n p c t prev_row cur_row s :
  decode_stochastic self multinomial probs before embedded prev_idxs rc = Ok out →
  length (d_idxs out) = length probs → length prev_idxs = length probs →
  d_idxs out !! i = Some n → n ≠ 0 → prev_idxs !! i = Some p → rc !! i = Some (c, t) →
  entry before p i = Some prev_row → entry before n i = Some cur_row →
  3 ≤ length prev_row → 5 ≤ length cur_row → cur_row !! 3 = Some s →
  d_rc_ct out !! i
  = Some (c, Qmax (t + norm (zip_with Qminus (take 2 prev_row) (take 2 cur_row))) s).
Proof.
  intros Hd Hlen Hlenp Hn Hn0 Hp Hrc Hprev_row Hcur_row Hlenprev Hlencur Hs.
  destruct (decode_stochastic_inv _ _ _ _ _ _ _ Hd)
    as (_ & _ & Hzero & _ & [visited Hvisited] & prev & cur & req & t_1 & rc1
        & Hprev & Hcur & Hreq & Ht_1 & Hrc1 & Hrc2).
  destruct (visited_loop_entry _ _ _ _ _ _ Hvisited Hprev_row)
    as (prev_row' & Hprev_row' & Hlenprev' & Hsameprev).
  destruct (visited_loop_entry _ _ _ _ _ _ Hvisited Hcur_row)
    as (cur_row' & Hcur_row' & Hlencur' & Hsamecur).
  destruct (gather_lookup _ _ _ _ _ _ Hprev Hlenp Hp) as (prev_row2 & Hprev_i & Hprev_row2).
  destruct (gather_lookup _ _ _ _ _ _ Hcur Hlen Hn) as (cur_row2 & Hcur_i & Hcur_row2).
  assert (prev_row2 = prev_row') as -> by congruence.
  assert (cur_row2 = cur_row') as -> by congruence.
  apply mapM_Ok_lookup in Ht_1 as [_ Ht_1].
  destruct (Ht_1 _ _ Hcur_i) as (s' & Hs' & Hs''). apply getitem_Ok in Hs''.
  rewrite Hsamecur in Hs'' by lia. assert (s' = s) as -> by congruence.
  rewrite <- (take_2_same _ _ Hlenprev' Hsameprev Hlenprev).
  rewrite <- (take_2_same _ _ Hlencur' Hsamecur ltac:(lia)).
  assert (i ≠ 0) as Hi0 by (by eapply where_zero_singleton).
  rewrite (index_fill_lookup_notin _ _ _ _ i Hrc2).
  2:{ rewrite Hzero. by intros ->%list_elem_of_singleton. }
  eapply update_loop_row; [exact Hrc1| | |done|done| |done].
  - rewrite <- Hlen. by eapply lookup_lt_Some.
  - apply elem_of_nonzero. by exists n.
  - rewrite list_lookup_fmap, lookup_zip_with, !list_lookup_fmap, Hprev_i, Hcur_i. done.
Qed.

(** Whenever the decoding step returns, every instance whose sampled
    node is the depot has the vehicle state [(vehicle_init_capacity, 0)],
    whatever its vehicle state [rc] was before the step.  In a call that
    returns this is instance 0 and no other: see
    [decode_stochastic_depot_raises]. *)
Theorem decode_stochastic_depot_reset multinomial probs before embedded prev_idxs rc out i :
  decode_stochastic self multinomial probs before embedded prev_idxs rc = Ok out →
  d_idxs out !! i = Some 0 →
  d_rc_ct out !! i = Some (vehicle_init_capacity self, 0%Q).
Proof.
  intros Hd Hi.
  destruct (decode_stochastic_inv _ _ _ _ _ _ _ Hd)
    as (_ & _ & _ & _ & _ & prev & cur & req & t_1 & rc1 & _ & _ & _ & _ & _ & Hrc2).
  eapply index_fill_lookup_in; [exact Hrc2|]. by apply elem_of_where_zero.
Qed.

(** Whenever the decoding step returns, an instance whose sampled
    node [n] is not the depot has the elapsed time [max (t + d) s]: [t]
    is its elapsed time before the step, [d] the norm of the difference
    of the coordinates (columns 0 and 1) of the previously selected node
    [p] and of [n], and [s] the window start (column 3) of [n]. *)
Theorem decode_stochastic_elapsed_time multinomial probs before embedded prev_idxs rc out
    i n p c t prev_row cur_row s :
  decode_stochastic self multinomial probs before embedded prev_idxs rc = Ok out →
  length (d_idxs out) = length probs → length prev_idxs = length probs →
  d_idxs out !! i = Some n → n ≠ 0 → prev_idxs !! i = Some p → rc !! i = Some (c, t) →
  entry before p i = Some prev_row → entry before n i = Some cur_row →
  3 ≤ length prev_row → 5 ≤ length cur_row → cur_row !! 3 = Some s →
  snd <$> d_rc_ct out !! i
  = Some (Qmax (t + norm (zip_with Qminus (take 2 prev_row) (take 2 cur_row))) s).
Proof.
  intros Hd Hlen Hlenp Hn Hn0 Hp Hrc Hprev Hcur Hlenprev Hlencur Hs.
  by rewrite (decode_stochastic_row _ _ _ _ _ _ _ _ _ _ _ _ _ _ _
                Hd Hlen Hlenp Hn Hn0 Hp Hrc Hprev Hcur Hlenprev Hlencur Hs).
Qed.

(** C1, what the code does.  Whenever the decoding step returns, an
    instance whose sampled node is not the depot has the remaining
    capacity it had before the step, whatever the demand of the node:
    line 297 writes to row 0. *)
Theorem decode_stochastic_capacity multinomial probs before embedded prev_idxs rc out
    i n p c t prev_row cur_row s :
  decode_stochastic self multinomial probs before embedded prev_idxs rc = Ok out →
  length (d_idxs out) = length probs → length prev_idxs = length probs →
  d_idxs out !! i = Some n → n ≠ 0 → prev_idxs !! i = Some p → rc !! i = Some (c, t) →
  entry before p i = Some prev_row → entry before n i = Some cur_row →
  3 ≤ length prev_row → 5 ≤ length cur_row → cur_row !! 3 = Some s →
  fst <$> d_rc_ct out !! i = Some c.
Proof.
  intros Hd Hlen Hlenp Hn Hn0 Hp Hrc Hprev Hcur Hlenprev Hlencur Hs.
  by rewrite (decode_stochastic_row _ _ _ _ _ _ _ _ _ _ _ _ _ _ _
                Hd Hlen Hlenp Hn Hn0 Hp Hrc Hprev Hcur Hlenprev Hlencur Hs).
Qed.

(** C4, what the code does.  A call of the decoding step returns only
    when instance 0 alone has sampled the depot, and it returns the
    embeddings it was given: no instance is ever re-embedded. *)
Theorem decode_stochastic_keeps_embeddings multinomial probs before embedded prev_idxs rc out :
  decode_stochastic self multinomial probs before embedded prev_idxs rc = Ok out →
  d_zero_idxs out = [0] ∧ d_embedded_inputs out = embedded.
Proof.
  intros Hd.
  destruct (decode_stochastic_inv _ _ _ _ _ _ _ Hd) as (_ & Hz & Hzero & He & _).
  split; [congruence|done].
Qed.

(** When two instances sample the depot the step does not return. *)
Lemma decode_stochastic_two_depots multinomial probs before embedded prev_idxs rc idxs i j :
  multinomial probs = Ok idxs → idxs !! i = Some 0 → idxs !! j = Some 0 → i ≠ j →
  raises (decode_stochastic self multinomial probs before embedded prev_idxs rc).
Proof.
  intros Hidxs Hi Hj Hij.
  destruct (decode_stochastic self multinomial probs before embedded prev_idxs rc)
    as [out|e] eqn:Hd; [exfalso|by exists e].
  destruct (decode_stochastic_inv _ _ _ _ _ _ _ Hd) as (Hidxs' & _ & Hzero & _).
  rewrite Hidxs in Hidxs'. injection Hidxs' as Heq.
  apply elem_of_where_zero in Hi, Hj. rewrite Heq, Hzero in Hi, Hj.
  apply list_elem_of_singleton in Hi, Hj. congruence.
Qed.

(** C5, what the code does.  When an instance other than instance 0
    samples the depot, the decoding step raises: line 299 is not reached
    and no vehicle state is reset. *)
Theorem decode_stochastic_depot_raises multinomial probs before embedded prev_idxs rc idxs i :
  multinomial probs = Ok idxs → idxs !! i = Some 0 → i ≠ 0 →
  raises (decode_stochastic self multinomial probs before embedded prev_idxs rc).
Proof.
  intros Hidxs Hi Hne.
  destruct (decode_stochastic self multinomial probs before embedded prev_idxs rc)
    as [out|e] eqn:Hd; [exfalso|by exists e].
  destruct (decode_stochastic_inv _ _ _ _ _ _ _ Hd) as (Hidxs' & _ & Hzero & _).
  rewrite Hidxs in Hidxs'. injection Hidxs' as Heq.
  apply elem_of_where_zero in Hi. rewrite Heq, Hzero in Hi.
  by apply list_elem_of_singleton in Hi.
Qed.

(** C6, what the code does.  When instance 0 samples a node other than
    the depot, as in every step in which no instance returns to the
    depot, the decoding step raises: no elapsed time is updated. *)
Theorem decode_stochastic_node_raises multinomial probs before embedded prev_idxs rc idxs n :
  multinomial probs = Ok idxs → idxs !! 0 = Some n → n ≠ 0 →
  raises (decode_stochastic self multinomial probs before embedded prev_idxs rc).
Proof.
  intros Hidxs Hn Hne.
  destruct (decode_stochastic self multinomial probs before embedded prev_idxs rc)
    as [out|e] eqn:Hd; [exfalso|by exists e].
  destruct (decode_stochastic_inv _ _ _ _ _ _ _ Hd) as (Hidxs' & _ & Hzero & _).
  rewrite Hidxs in Hidxs'. injection Hidxs' as Heq. rewrite <- Heq in Hzero.
  by apply (where_zero_singleton idxs 0 n Hzero Hn Hne).
Qed.

(** *** When the step returns *)

Lemma shaped_rows batch_size P (t : list (list (list Q))) :
  shaped batch_size P t → Forall (λ m, length m = batch_size) t.
Proof. intros Ht. eapply Forall_impl; [exact Ht|]. by intros m [? _]. Qed.

Lemma shaped_entry batch_size P (t : list (list (list Q))) n b row :
  shaped batch_size P t → entry t n b = Some row → P (length row).
Proof.
  unfold entry. intros Ht Hrow.
  destruct (t !! n) as [m|] eqn:Hm; simpl in Hrow; [|done].
  destruct (proj1 (Forall_lookup _ _) Ht n m Hm) as [_ Hrows].
  by apply (proj1 (Forall_lookup _ _) Hrows b row).
Qed.

Lemma set_visited_Ok batch_size (before : list (list (list Q))) n b :
  shaped batch_size (λ k, 4 ≤ k) before → n < length before → b < batch_size →
  ∃ before', set_visited before (n, b) = Ok before'
             ∧ length before' = length before ∧ shaped batch_size (λ k, 4 ≤ k) before'.
Proof.
  intros Hshape Hn Hb. unfold set_visited.
  destruct (lookup_lt_is_Some_2 before n Hn) as [m Hm].
  destruct (proj1 (Forall_lookup _ _) Hshape n m Hm) as [Hlen Hrows].
  destruct (lookup_lt_is_Some_2 m b ltac:(lia)) as [v Hv].
  pose proof (proj1 (Forall_lookup _ _) Hrows b v Hv) as Hcols. simpl in Hcols.
  rewrite (proj2 (getitem_Ok _ _ _) Hm). simpl.
  rewrite (proj2 (getitem_Ok _ _ _) Hv). simpl.
  unfold setitem. rewrite decide_True by lia. simpl.
  eexists. split; [done|]. split; [apply length_insert|].
  apply Forall_insert; [done|]. split; [by rewrite length_insert|].
  apply Forall_insert; [done|]. simpl. by rewrite length_insert.
Qed.

Lemma visited_loop_Ok batch_size pairs (before : list (list (list Q))) :
  shaped batch_size (λ k, 4 ≤ k) before →
  Forall (λ nb : nat * nat, nb.1 < length before ∧ nb.2 < batch_size) pairs →
  ∃ before', for_each set_visited pairs before = Ok before'
             ∧ length before' = length before ∧ shaped batch_size (λ k, 4 ≤ k) before'.
Proof.
  intros Hshape Hpairs.
  destruct (for_each_Ok_intro
              (λ s, length s = length before ∧ shaped batch_size (λ k, 4 ≤ k) s)
              set_visited pairs before) as (before' & Hbefore' & Hlen & Hshape'); [|done|].
  - intros s [n b] Hnb [Hlen Hs].
    destruct (proj1 (Forall_forall _ _) Hpairs _ Hnb) as [Hn Hb]. simpl in *.
    destruct (set_visited_Ok batch_size s n b Hs) as (s' & Hs' & Hlen' & Hshape');
      [lia|done|].
    exists s'. split; [done|]. split; [congruence|done].
  - by exists before'.
Qed.

Lemma update_instance_Ok nz (dist req t1 : list Q) (rc : list (Q * Q)) batch_size i :
  i < batch_size → length rc = batch_size → length dist = batch_size →
  length req = batch_size → length t1 = batch_size →
  ∃ rc', update_instance nz dist req t1 rc i = Ok rc' ∧ length rc' = batch_size.
Proof.
  intros Hi Hrc Hdist Hreq Ht1. unfold update_instance.
  case_decide; [|by exists rc].
  destruct (lookup_lt_is_Some_2 rc i ltac:(lia)) as [row Hrow].
  destruct (lookup_lt_is_Some_2 dist i ltac:(lia)) as [d Hd].
  destruct (lookup_lt_is_Some_2 t1 i ltac:(lia)) as [t Ht].
  destruct (lookup_lt_is_Some_2 req i ltac:(lia)) as [c Hc].
  rewrite (proj2 (getitem_Ok _ _ _) Hrow). simpl.
  rewrite (proj2 (getitem_Ok _ _ _) Hd). simpl.
  rewrite (proj2 (getitem_Ok _ _ _) Ht). simpl.
  unfold setitem at 2. rewrite decide_True by lia. simpl.
  destruct (lookup_lt_is_Some_2 (<[i:=(row.1, if Qltb (row.2 + d) t then t else (row.2 + d)%Q)]> rc) 0)
    as [row0 Hrow0]; [rewrite length_insert; lia|].
  rewrite (proj2 (getitem_Ok _ _ _) Hrow0). simpl.
  rewrite (proj2 (getitem_Ok _ _ _) Hc). simpl.
  unfold setitem. rewrite decide_True by (rewrite length_insert; lia).
  eexists. split; [done|]. by rewrite !length_insert.
Qed.

(** X12.  With arguments that fit together, the step returns when
    instance 0, and no other instance, has sampled the depot. *)
Lemma decode_stochastic_returns multinomial probs before embedded prev_idxs rc idxs :
  shapes_ok self (length probs) idxs prev_idxs before embedded rc →
  multinomial probs = Ok idxs → where_zero idxs = [0] →
  ∃ out, decode_stochastic self multinomial probs before embedded prev_idxs rc = Ok out.
Proof.
  intros [Hidxs Hprev Hidxs_lt Hprev_lt Hbefore Hemb_len Hemb Hrc] Hdraw Hzero.
  unfold decode_stochastic. rewrite Hdraw. simpl.
  (* line 267 *)
  destruct (mapM_Ok_intro (getitem idxs) (nonzero idxs)) as [visited Hvisited].
  { intros b (x & Hx & _)%elem_of_nonzero. exists x. by apply getitem_Ok. }
  rewrite Hvisited. simpl.
  destruct (visited_loop_Ok (length probs) (zip visited (nonzero idxs)) before Hbefore)
    as (before' & Hbefore' & Hlen' & Hshape').
  { apply Forall_forall. intros [n b] Hnb.
    apply list_elem_of_lookup in Hnb as [k Hk]. rewrite lookup_zip_with in Hk.
    destruct (visited !! k) as [n'|] eqn:Hn'; simpl in Hk; [|done].
    destruct (nonzero idxs !! k) as [b'|] eqn:Hb'; simpl in Hk; [|done].
    injection Hk as <- <-.
    destruct (proj2 (mapM_Ok_lookup _ _ _ Hvisited) k b' Hb') as (n & Hn & Hget).
    apply getitem_Ok in Hget. assert (n = n') as -> by congruence. simpl. split.
    - by apply (proj1 (Forall_lookup _ _) Hidxs_lt b').
    - rewrite <- Hidxs. by eapply lookup_lt_Some. }
  rewrite Hbefore'. simpl.
  (* lines 271-273 *)
  rewrite Hzero. simpl.
  (* lines 278-286 *)
  destruct (gather_Ok_intro embedded idxs (length probs) Hidxs) as [selected Hselected];
    [by rewrite Hemb_len | by eapply shaped_rows|].
  rewrite Hselected. simpl.
  pose proof (gather_length _ _ _ _ Hselected Hidxs) as Hlensel.
  unfold sels_embedded. rewrite decide_True by done.
  rewrite (mapM_Ok_same (fit_row (self_embedding_dim self - 2)) selected).
  2:{ intros row Hrow. destruct (gather_elem _ _ _ _ _ Hselected Hrow) as (n & b & Hnb).
      unfold fit_row. rewrite decide_True; [done|].
      rewrite (shaped_entry _ _ _ _ _ _ Hemb Hnb). unfold self_embedding_dim. lia. }
  simpl.
  destruct (gather_Ok_intro before' prev_idxs (length probs) Hprev) as [prev Hprev_rows];
    [by rewrite Hlen' | by eapply shaped_rows|].
  rewrite Hprev_rows. simpl.
  destruct (gather_Ok_intro before' idxs (length probs) Hidxs) as [cur Hcur];
    [by rewrite Hlen' | by eapply shaped_rows|].
  rewrite Hcur. simpl.
  assert (∀ row, row ∈ cur → 4 ≤ length row) as Hcols.
  { intros row Hrow. destruct (gather_elem _ _ _ _ _ Hcur Hrow) as (n & b & Hnb).
    by apply (shaped_entry _ _ _ _ _ _ Hshape' Hnb). }
  destruct (mapM_Ok_intro (λ row : list Q, getitem row 2) cur) as [req Hreq].
  { intros row Hrow. apply Hcols in Hrow.
    destruct (lookup_lt_is_Some_2 row 2 ltac:(lia)) as [x Hx]. exists x. by apply getitem_Ok. }
  rewrite Hreq. simpl.
  destruct (mapM_Ok_intro (λ row : list Q, getitem row 3) cur) as [t_1 Ht_1].
  { intros row Hrow. apply Hcols in Hrow.
    destruct (lookup_lt_is_Some_2 row 3 ltac:(lia)) as [x Hx]. exists x. by apply getitem_Ok. }
  rewrite Ht_1. simpl.
  pose proof (gather_length _ _ _ _ Hprev_rows Hprev) as Hlenprev.
  pose proof (gather_length _ _ _ _ Hcur Hidxs) as Hlencur.
  apply mapM_Ok_lookup in Hreq as [Hlenreq _]. apply mapM_Ok_lookup in Ht_1 as [Hlent_1 _].
  (* lines 289-297 *)
  set (distance := norm <$> _).
  assert (length distance = length probs) as Hlendist.
  { unfold distance. rewrite length_fmap, length_zip_with, !length_fmap. lia. }
  destruct (for_each_Ok_intro (λ s : list (Q * Q), length s = length probs)
              (update_instance (nonzero idxs) distance req t_1) (seq 0 (length probs)) rc)
    as (rc1 & Hrc1 & Hlenrc1); [|done|].
  { intros s i Hi%elem_of_seq Hs.
    apply (update_instance_Ok _ _ _ _ _ (length probs)); [lia|done|done|lia|lia]. }
  rewrite Hrc1. simpl.
  (* line 299 *)
  assert (0 < length probs) as Hpos.
  { assert (0 ∈ where_zero idxs) as Hin by (rewrite Hzero; by left).
    apply elem_of_where_zero in Hin. rewrite <- Hidxs. by eapply lookup_lt_Some. }
  unfold index_fill. simpl. unfold setitem. rewrite decide_True by lia. simpl.
  (* line 301 *)
  unfold sels_state. rewrite decide_True; [by eexists|].
  rewrite length_insert, length_fmap. lia.
Qed.

(** ** The writes of the refresh *)

(** The writes that splice re-computed values in at the columns
    [zero_idxs] (line 273 for the embeddings, lines 227-229 for the
    context and the hidden and cell state) leave every instance outside
    [zero_idxs] with the embeddings, the context, the hidden state and
    the cell state it had.  No pass of the loop gets as far as these
    writes: see [step_refreshes_nothing]. *)
Theorem refresh_frame zero_idxs value embedded embedded' context_change enc_h_t_change
    enc_c_t_change context hx cx context' hx' cx' b :
  setitem_0 embedded zero_idxs value = Ok embedded' →
  refresh zero_idxs context_change enc_h_t_change enc_c_t_change context hx cx
    = Ok (context', hx', cx') →
  b ∉ zero_idxs →
  (∀ n, entry embedded' n b = entry embedded n b)
  ∧ (∀ n, entry context' n b = entry context n b)
  ∧ hx' !! b = hx !! b
  ∧ cx' !! b = cx !! b.
Proof.
  intros He Hr Hb. unfold refresh in Hr.
  inv_bind Hr as context1 Hcontext. inv_bind Hr as h Hh. inv_bind Hr as hx1 Hhx.
  inv_bind Hr as c Hc. inv_bind Hr as cx1 Hcx. injection Hr as <- <- <-.
  repeat split.
  - intros n. by eapply setitem_0_frame.
  - intros n. by eapply index_put_dim1_frame.
  - by eapply index_put_frame.
  - by eapply index_put_frame.
Qed.

(** ** The decoding loop *)

(** Line 224 calls the encoder without its second argument. *)
Lemma step_raises multinomial st : raises (step self multinomial st).
Proof.
  unfold step. apply raises_bind_r. intros [[[hx cx] probs] mask].
  apply raises_bind_r. intros d. apply raises_bind_r. intros x.
  by exists TypeError.
Qed.


(** C7, what the code does.  In stochastic mode with two nodes or more
    the decoder returns no trajectory: the first pass of the loop raises. *)
Theorem forward_stochastic_raises multinomial decoder_input before embedded hidden context :
  decode_type self = "stochastic"%string → 2 ≤ seq_len self →
  raises (forward self multinomial decoder_input before embedded hidden context).
Proof.
  intros Hmode Hlen. unfold forward. apply raises_bind_r. intros prob_0.
  rewrite Hmode. simpl.
  destruct ((seq_len self - 1) * 2) as [|k] eqn:Hk; [lia|].
  simpl. apply raises_bind_l, raises_bind_l, step_raises.
Qed.

(** With a single node the loop is empty, and the trajectories hold the
    forced depot entry only. *)
Lemma forward_stochastic_single_node multinomial decoder_input before embedded hidden m context :
  decode_type self = "stochastic"%string → seq_len self ≤ 1 →
  forward self multinomial decoder_input before embedded hidden (m :: context)
  = Ok (Some (([replicate (length m) (1%Q :: replicate (length context) 0%Q)],
               [replicate (length m) 0]), hidden)).
Proof.
  intros Hmode Hlen. unfold forward. simpl. rewrite Hmode. simpl.
  by replace ((seq_len self - 1) * 2) with 0 by lia.
Qed.

(** C9, as the code has it.  With the decode mode ["greedy"] and a
    context of at least one node, the decoder runs no decoding step and
    returns [None]; it raises nothing. *)
Theorem forward_greedy_returns_None multinomial decoder_input before embedded hidden context :
  decode_type self = "greedy"%string → context ≠ [] →
  forward self multinomial decoder_input before embedded hidden context = Ok None.
Proof.
  intros Hmode Hcontext. unfold forward.
  destruct context as [|m context]; [done|]. simpl. by rewrite Hmode.
Qed.

End DecoderFacts.

(** ** The theorems at concrete inputs *)

Section Concrete.
Import PtrNet Examples.
Open Scope Q_scope.

(** Two instances with full capacity 10; instance 0 samples the depot,
    instance 1 samples node 1, whose demand (column 2) is 3.  The step
    returns with the capacity of instance 1 still at 10. *)
Lemma decode_stochastic_capacity_witness :
  ∃ out,
    decode_stochastic (example_decoder "stochastic") (draws [0; 1]%nat) example_probs
      example_features example_embedded [0; 0]%nat [(10, 0); (10, 0)] = Ok out
    ∧ d_idxs out !! 1%nat = Some 1%nat
    ∧ entry example_features 1 1 = Some [3; 4; 3; 1; 3; 0]
    ∧ d_rc_ct out = [(10, 0); (10, 5)]
    ∧ fst <$> d_rc_ct out !! 1%nat = Some 10.
Proof.
  eexists. split; [vm_compute; reflexivity|]. do 3 (split; [reflexivity|]).
  apply (decode_stochastic_capacity (example_decoder "stochastic") (draws [0; 1]%nat)
           example_probs example_features example_embedded [0; 0]%nat [(10, 0); (10, 0)] _
           1%nat 1%nat 0%nat 10 0 [0; 0; 0; 0; 0; 0] [3; 4; 3; 1; 3; 0] 1).
  - vm_compute. reflexivity.
  - reflexivity.
  - reflexivity.
  - reflexivity.
  - discriminate.
  - reflexivity.
  - reflexivity.
  - reflexivity.
  - reflexivity.
  - simpl. lia.
  - simpl. lia.
  - reflexivity.
Defined.

(** The body of the loop for an instance 0 that selected a node with
    demand 3, at distance 5, window opening at 1: the demand is taken from
    both columns of row 0. *)
Example update_instance_row_0 :
  update_instance [0%nat] [5] [3] [1] [(10, 0)] 0 = Ok [(7, 2)].
Proof. reflexivity. Qed.

(** The first masking call for three instances with three nodes, all
    logits 0.  The returned mask marks the depot of every instance; the
    logits of instance 0 are minus infinity at every node, and the logit
    of the marked depot of instance 2 is still 0. *)
Lemma apply_mask_to_logits_rows_witness :
  ∃ logits' maskk,
    apply_mask_to_logits (example_logits 3) None (Some [0; 0; 0]%nat) = Ok (logits', maskk)
    ∧ maskk = [ [1; 0; 0]; [1; 0; 0]; [1; 0; 0] ]%nat
    ∧ logits' !! 0%nat = Some [NegInf; NegInf; NegInf]
    ∧ logits' !! 2%nat = Some [Fin 0; Fin 0; Fin 0].
Proof.
  eexists _, _. split; [reflexivity|]. split; [reflexivity|].
  split.
  - exact (apply_mask_to_logits_rows (example_logits 3) None [0; 0; 0]%nat _ _ 0%nat eq_refl).
  - exact (apply_mask_to_logits_rows (example_logits 3) None [0; 0; 0]%nat _ _ 2%nat eq_refl).
Defined.

(** C3 as stated fails.  After the forced depot selection of two
    instances the returned mask does not mark, for each instance, exactly
    the preceding selection when it is not the depot and nothing when it
    is: the preceding selection of instance 0 is the depot, and the depot
    is marked. *)
Lemma apply_mask_to_logits_marks_depot :
  ∃ logits' maskk,
    apply_mask_to_logits (example_logits 2) None (Some [0; 0]%nat) = Ok (logits', maskk)
    ∧ ¬ (∀ b p j : nat, [0; 0]%nat !! b = Some p →
           entry maskk b j = Some 1%nat ↔ j = p ∧ p ≠ 0%nat).
Proof.
  eexists _, _. split; [reflexivity|]. intros Hclaim.
  destruct (Hclaim 0 0 0 eq_refl)%nat as [Hmarked _].
  by destruct (Hmarked eq_refl) as [_ Hne].
Qed.

Lemma apply_mask_to_logits_mask_witness :
  ∃ logits' maskk,
    apply_mask_to_logits (example_logits 3) (Some [ [1; 0; 0]; [1; 0; 0]; [1; 0; 0] ]%nat)
      (Some [1; 2; 0]%nat) = Ok (logits', maskk)
    ∧ entry maskk 1 0 = Some 0%nat
    ∧ entry maskk 1 2 = Some 1%nat
    ∧ entry maskk 2 0 = Some 1%nat.
Proof.
  eexists _, _. split; [reflexivity|].
  pose proof (λ b p j Hp, apply_mask_to_logits_mask (example_logits 3)
    (Some [ [1; 0; 0]; [1; 0; 0]; [1; 0; 0] ]%nat) [1; 2; 0]%nat _ _ b p j
    eq_refl eq_refl Hp) as Hmask.
  split; [exact (Hmask 1 2 0 eq_refl)%nat|].
  split; [exact (Hmask 1 2 2 eq_refl)%nat|].
  exact (Hmask 2 0 0 eq_refl)%nat.
Defined.

Lemma decode_stochastic_keeps_embeddings_witness :
  ∃ out,
    decode_stochastic (example_decoder "stochastic") (draws [0]%nat) [ [1; 0; 0] ]
      [ [ [0; 0; 0; 0; 0; 0] ]; [ [3; 4; 3; 1; 3; 1] ] ] [ [ [5] ]; [ [6] ] ] [1]%nat [(4, 2)]
    = Ok out
    ∧ d_zero_idxs out = [0%nat] ∧ d_embedded_inputs out = [ [ [5] ]; [ [6] ] ].
Proof.
  eexists. split; [vm_compute; reflexivity|].
  apply (decode_stochastic_keeps_embeddings (example_decoder "stochastic") (draws [0]%nat)
           [ [1; 0; 0] ] [ [ [0; 0; 0; 0; 0; 0] ]; [ [3; 4; 3; 1; 3; 1] ] ] [ [ [5] ]; [ [6] ] ]
           [1]%nat [(4, 2)]).
  vm_compute. reflexivity.
Defined.

Lemma decode_stochastic_depot_reset_witness :
  ∃ out,
    decode_stochastic (example_decoder "stochastic") (draws [0; 1]%nat) example_probs
      example_features example_embedded [2; 0]%nat [(4, 7); (10, 0)] = Ok out
    ∧ d_idxs out !! 0%nat = Some 0%nat
    ∧ d_rc_ct out !! 0%nat = Some (10, 0).
Proof.
  eexists. split; [vm_compute; reflexivity|]. split; [reflexivity|].
  apply (decode_stochastic_depot_reset (example_decoder "stochastic") (draws [0; 1]%nat)
           example_probs example_features example_embedded [2; 0]%nat [(4, 7); (10, 0)]).
  - vm_compute. reflexivity.
  - reflexivity.
Defined.

Lemma decode_stochastic_elapsed_time_witness :
  ∃ out,
    decode_stochastic (example_decoder "stochastic") (draws [0; 1]%nat) example_probs
      example_features example_embedded [2; 0]%nat [(4, 7); (10, 0)] = Ok out
    ∧ d_idxs out !! 1%nat = Some 1%nat
    ∧ entry example_features 0 1 = Some [0; 0; 0; 0; 0; 0]
    ∧ entry example_features 1 1 = Some [3; 4; 3; 1; 3; 0]
    ∧ snd <$> d_rc_ct out !! 1%nat = Some (Qmax (0 + norm [0 - 3; 0 - 4]) 1).
Proof.
  eexists. split; [vm_compute; reflexivity|]. do 3 (split; [reflexivity|]).
  apply (decode_stochastic_elapsed_time (example_decoder "stochastic") (draws [0; 1]%nat)
           example_probs example_features example_embedded [2; 0]%nat [(4, 7); (10, 0)] _
           1%nat 1%nat 0%nat 10 0 [0; 0; 0; 0; 0; 0] [3; 4; 3; 1; 3; 0] 1).
  - vm_compute. reflexivity.
  - reflexivity.
  - reflexivity.
  - reflexivity.
  - discriminate.
  - reflexivity.
  - reflexivity.
  - reflexivity.
  - reflexivity.
  - simpl. lia.
  - simpl. lia.
  - reflexivity.
Defined.

Lemma refresh_frame_witness :
  setitem_0 example_embedded [0%nat] (T2 [ [9] ]) = Ok [ [ [9]; [0] ]; [ [1]; [1] ]; [ [2]; [2] ] ]
  ∧ refresh [0%nat] [ [ [7] ]; [ [8] ]; [ [9] ] ] [ [ [5] ] ] [ [ [6] ] ] example_context
      [ [3]; [4] ] [ [3]; [4] ]
    = Ok ([ [ [7]; [0] ]; [ [8]; [1] ]; [ [9]; [2] ] ], [ [5]; [4] ], [ [6]; [4] ])
  ∧ (1%nat ∉ [0%nat])
  ∧ (∀ n, entry [ [ [9]; [0] ]; [ [1]; [1] ]; [ [2]; [2] ] ] n 1 = entry example_embedded n 1)
  ∧ (∀ n, entry [ [ [7]; [0] ]; [ [8]; [1] ]; [ [9]; [2] ] ] n 1 = entry example_context n 1)
  ∧ [ [5]; [4] ] !! 1%nat = [ [3]; [4] ] !! 1%nat
  ∧ [ [6]; [4] ] !! 1%nat = [ [3]; [4] ] !! 1%nat.
Proof.
  assert (1%nat ∉ [0%nat]) as Hb by (by intros ?%list_elem_of_singleton).
  split; [reflexivity|]. split; [reflexivity|]. split; [exact Hb|].
  exact (refresh_frame [0%nat] (T2 [ [9] ]) example_embedded _ [ [ [7] ]; [ [8] ]; [ [9] ] ]
           [ [ [5] ] ] [ [ [6] ] ] example_context [ [3]; [4] ] [ [3]; [4] ] _ _ _ 1%nat
           eq_refl eq_refl Hb).
Defined.

Lemma forward_stochastic_raises_witness :
  decode_type (example_decoder "stochastic") = "stochastic"%string
  ∧ (2 ≤ seq_len (example_decoder "stochastic"))%nat
  ∧ raises (forward (example_decoder "stochastic") (λ _, draws [0; 1]%nat)
              [ [0; 10; 0]; [0; 10; 0] ] example_features example_embedded
              ([ [0]; [0] ], [ [0]; [0] ]) example_context).
Proof.
  split; [reflexivity|]. split; [simpl; lia|].
  apply forward_stochastic_raises; [reflexivity | simpl; lia].
Defined.

(** C9 as stated fails: the call in greedy mode does not raise. *)
Lemma forward_greedy_does_not_raise :
  ¬ raises (forward (example_decoder "greedy") (λ _, draws [0; 1]%nat)
              [ [0; 10; 0]; [0; 10; 0] ] example_features example_embedded
              ([ [0]; [0] ], [ [0]; [0] ]) example_context).
Proof. intros [e He]. vm_compute in He. discriminate. Qed.

Lemma forward_greedy_returns_None_witness :
  decode_type (example_decoder "greedy") = "greedy"%string
  ∧ example_context ≠ []
  ∧ forward (example_decoder "greedy") (λ _, draws [0; 1]%nat)
      [ [0; 10; 0]; [0; 10; 0] ] example_features example_embedded
      ([ [0]; [0] ], [ [0]; [0] ]) example_context = Ok None.
Proof.
  split; [reflexivity|]. split; [discriminate|].
  apply forward_greedy_returns_None; [reflexivity | discriminate].
Defined.

(** Instance 1 samples the depot, instance 0 samples node 1: the step
    raises at line 69, called from line 273. *)
Lemma decode_stochastic_depot_raises_witness :
  draws [1; 0]%nat example_probs = Ok [1; 0]%nat
  ∧ [1; 0]%nat !! 1%nat = Some 0%nat
  ∧ decode_stochastic (example_decoder "stochastic") (draws [1; 0]%nat) example_probs
      example_features example_embedded [0; 0]%nat [(4, 7); (4, 7)] = Err IndexError
  ∧ raises (decode_stochastic (example_decoder "stochastic") (draws [1; 0]%nat) example_probs
              example_features example_embedded [0; 0]%nat [(4, 7); (4, 7)]).
Proof.
  split; [reflexivity|]. split; [reflexivity|]. split; [vm_compute; reflexivity|].
  apply (decode_stochastic_depot_raises (example_decoder "stochastic") (draws [1; 0]%nat)
           example_probs example_features example_embedded [0; 0]%nat [(4, 7); (4, 7)]
           [1; 0]%nat 1%nat); [reflexivity | reflexivity | lia].
Defined.

(** Both instances sample a node, nobody the depot: the step raises at
    line 271. *)
Lemma decode_stochastic_node_raises_witness :
  draws [1; 2]%nat example_probs = Ok [1; 2]%nat
  ∧ [1; 2]%nat !! 0%nat = Some 1%nat
  ∧ decode_stochastic (example_decoder "stochastic") (draws [1; 2]%nat) example_probs
      example_features example_embedded [0; 0]%nat [(10, 0); (10, 0)] = Err RuntimeError
  ∧ raises (decode_stochastic (example_decoder "stochastic") (draws [1; 2]%nat) example_probs
              example_features example_embedded [0; 0]%nat [(10, 0); (10, 0)]).
Proof.
  split; [reflexivity|]. split; [reflexivity|]. split; [vm_compute; reflexivity|].
  apply (decode_stochastic_node_raises (example_decoder "stochastic") (draws [1; 2]%nat)
           example_probs example_features example_embedded [0; 0]%nat [(10, 0); (10, 0)]
           [1; 2]%nat 1%nat); [reflexivity | reflexivity | lia].
Defined.


(** C10 as stated fails.  One instance of two nodes from the raw draws
    0, 0 (depot), 0, 0, 2, 1234567890123457 (service node): the float
    [t1] is 5 * 1234567890123457 / 2^53, stored as 11497809 / 2^24; the
    float [t1 + 2] is stored as 2815765 / 2^20, which is 2^-24 less than
    the stored start plus 2. *)
Lemma VRPDataset_window_end_rounded :
  ∃ dataset,
    DataGenerator.VRPDataset_init 2 1 [0; 0; 0; 0; 2; 1234567890123457]%Z = Ok dataset
    ∧ dataset = [ [ [0; 0; 0; 0; 0; 0];
                    [0; 0; 3; 11497809 # 16777216; 2815765 # 1048576; 0] ] ]
    ∧ ¬ Forall (DataGenerator.instance_exact 2) dataset.
Proof.
  eexists. split; [vm_compute; reflexivity|]. split; [reflexivity|].
  intros Hall. apply Forall_cons in Hall as [(d & rows & Heq & _ & Hrows & _) _].
  injection Heq as <- <-.
  apply Forall_cons in Hrows as [(x & y & t1 & t2 & demand & Heq & _ & _ & Ht2) _].
  injection Heq as _ _ _ <- <-. vm_compute in Ht2. discriminate.
Qed.

End Concrete.

(** * Further properties *)

(** ** Masking *)

Section MaskingMore.
Import PtrNet.

Lemma index_fill2_in_range {A} (pairs : list (nat * nat)) (x : A) (t t' : list (list A)) i j :
  index_fill2 pairs x t = Ok t' → (i, j) ∈ pairs → is_Some (entry t i j).
Proof.
  unfold index_fill2. revert t.
  induction pairs as [|[i0 j0] pairs IH]; intros t Ht Hin; [by apply elem_of_nil in Hin|].
  simpl in Ht. inv_bind Ht as t1 Ht1.
  apply elem_of_cons in Hin as [[= -> ->]|Hin].
  - unfold setitem2 in Ht1. inv_bind Ht1 as row Hrow. inv_bind Ht1 as row' Hrow'.
    apply getitem_Ok in Hrow. apply setitem_Ok in Hrow' as [Hlt _].
    unfold entry. rewrite Hrow. simpl. by apply lookup_lt_is_Some_2.
  - specialize (IH _ Ht Hin). rewrite (entry_setitem2 _ _ _ _ _ _ _ Ht1) in IH.
    by apply fmap_is_Some in IH.
Qed.

Lemma index_fill2_entry_in {A} (pairs : list (nat * nat)) (x : A) (t t' : list (list A)) i j :
  index_fill2 pairs x t = Ok t' → (i, j) ∈ pairs → entry t' i j = Some x.
Proof.
  intros Ht Hin. rewrite (entry_index_fill2 _ _ _ _ i j Ht).
  destruct (index_fill2_in_range _ _ _ _ _ _ Ht Hin) as [old ->]. simpl.
  by rewrite decide_True.
Qed.

Lemma index_fill2_fixed {A} (pairs : list (nat * nat)) (x : A) (t : list (list A)) :
  (∀ i j, (i, j) ∈ pairs → entry t i j = Some x) → index_fill2 pairs x t = Ok t.
Proof.
  unfold index_fill2. induction pairs as [|[i0 j0] pairs IH]; intros Hx; [done|].
  simpl. assert (setitem2 t i0 j0 x = Ok t) as ->.
  { specialize (Hx i0 j0 ltac:(by left)). unfold entry in Hx. unfold setitem2.
    destruct (t !! i0) as [row|] eqn:Hrow; simpl in Hx; [|done].
    rewrite (proj2 (getitem_Ok _ _ _) Hrow). simpl.
    unfold setitem. rewrite decide_True by (by eapply lookup_lt_Some). simpl.
    by rewrite (list_insert_id row j0 x), (list_insert_id t i0 row). }
  simpl. apply IH. intros i j Hin. apply Hx. by right.
Qed.

Lemma elem_of_concat {A} (t : list (list A)) x :
  x ∈ concat t ↔ ∃ row, x ∈ row ∧ row ∈ t.
Proof.
  rewrite list_elem_of_In, in_concat. split.
  - intros (row & Hrow & Hx). exists row. by rewrite !list_elem_of_In.
  - intros (row & Hx & Hrow). exists row. by rewrite <- !list_elem_of_In.
Qed.

Lemma entry_elem_of_concat {A} (t : list (list A)) i j x :
  entry t i j = Some x → x ∈ concat t.
Proof.
  unfold entry. intros Hx. destruct (t !! i) as [row|] eqn:Hrow; simpl in Hx; [|done].
  apply elem_of_concat. exists row. split; by eapply list_elem_of_lookup_2.
Qed.

Lemma elem_of_concat_entry {A} (t : list (list A)) x :
  x ∈ concat t → ∃ i j, entry t i j = Some x.
Proof.
  intros (row & Hx & Hrow)%elem_of_concat.
  apply list_elem_of_lookup in Hrow as [i Hi]. apply list_elem_of_lookup in Hx as [j Hj].
  exists i, j. unfold entry. by rewrite Hi.
Qed.

Lemma fill_rows_in_range (vs : list nat) (logits logits' : list (list logit)) v :
  for_each fill_row vs logits = Ok logits' → v ∈ vs → v < length logits.
Proof.
  revert logits. induction vs as [|v0 vs IH]; intros logits Hl Hv; [by apply elem_of_nil in Hv|].
  simpl in Hl. inv_bind Hl as logits1 Hlogits1. unfold fill_row in Hlogits1.
  inv_bind Hlogits1 as row Hrow. injection Hlogits1 as <-. apply getitem_Ok in Hrow.
  apply elem_of_cons in Hv as [->|Hv]; [by eapply lookup_lt_Some|].
  specialize (IH _ Hl Hv). by rewrite length_insert in IH.
Qed.

(** The two writes of lines 164-165 leave the previous selection of every
    instance marked. *)
Lemma mask_marks_previous (prev_idxs : list nat) (m0 m1 maskk : list (list nat)) batch_size b p :
  index_fill2 (zip (seq 0 batch_size) prev_idxs) 1 m0 = Ok m1 →
  index_fill2 ((λ b : nat, (b, 0)) <$> nonzero prev_idxs) 0 m1 = Ok maskk →
  length prev_idxs = batch_size → prev_idxs !! b = Some p →
  entry maskk b p = Some 1.
Proof.
  intros Hm1 Hm2 Hlen Hp.
  rewrite (entry_index_fill2 _ _ _ _ b p Hm2).
  rewrite (index_fill2_entry_in _ _ _ _ b p Hm1) by (by apply elem_of_zip_seq). simpl.
  rewrite decide_False; [done|].
  intros (b' & [= <- ->] & Hnz)%list_elem_of_fmap.
  apply elem_of_nonzero in Hnz as (x & Hx & Hne). congruence.
Qed.

(** X1.  A masking call with the previous selections returns only for a
    batch of two instances or more: the mark 1 of line 164 is used as a
    row number by line 166. *)
Theorem apply_mask_to_logits_two_instances logits mask prev_idxs out :
  apply_mask_to_logits logits mask (Some prev_idxs) = Ok out →
  length prev_idxs = length logits → logits ≠ [] →
  2 ≤ length logits.
Proof.
  destruct out as [logits' maskk]. intros Hm Hlen Hne.
  destruct (apply_mask_to_logits_inv _ _ _ _ _ Hm Hlen) as (m1 & Hm1 & Hm2 & Hfill).
  destruct (lookup_lt_is_Some_2 prev_idxs 0) as [p Hp].
  { rewrite Hlen. destruct logits; [done|simpl; lia]. }
  pose proof (mask_marks_previous _ _ _ _ _ _ _ Hm1 Hm2 Hlen Hp) as Hmark.
  apply entry_elem_of_concat in Hmark.
  pose proof (fill_rows_in_range _ _ _ _ Hfill Hmark). lia.
Qed.

(** X2.  The mask a masking call returns is a fixed point: a further call
    with the same previous selections (the glimpses and the pointer of one
    step) returns it again. *)
Theorem apply_mask_to_logits_idempotent logits logits2 mask prev_idxs logits' maskk
    logits2' maskk2 :
  apply_mask_to_logits logits mask (Some prev_idxs) = Ok (logits', maskk) →
  apply_mask_to_logits logits2 (Some maskk) (Some prev_idxs) = Ok (logits2', maskk2) →
  length prev_idxs = length logits → length logits2 = length logits →
  maskk2 = maskk.
Proof.
  intros Hm Hm' Hlen Hlen2.
  destruct (apply_mask_to_logits_inv _ _ _ _ _ Hm Hlen) as (m1 & Hm1 & Hm2 & _).
  destruct (apply_mask_to_logits_inv _ _ _ _ _ Hm' ltac:(congruence))
    as (m1' & Hm1' & Hm2' & _).
  simpl in Hm1'. rewrite Hlen2 in Hm1'.
  rewrite index_fill2_fixed in Hm1'.
  - injection Hm1' as <-. rewrite index_fill2_fixed in Hm2'; [congruence|].
    intros i j Hin. by eapply index_fill2_entry_in.
  - intros b p Hin. apply elem_of_zip_seq in Hin; [|done].
    exact (mask_marks_previous _ _ _ _ _ _ _ Hm1 Hm2 Hlen Hin).
Qed.

Lemma mask_entries_binary logits mask prev_idxs logits' maskk :
  apply_mask_to_logits logits mask (Some prev_idxs) = Ok (logits', maskk) →
  length prev_idxs = length logits →
  (∀ m, mask = Some m → Forall (Forall (λ v, v ≤ 1)) m) →
  Forall (Forall (λ v, v ≤ 1)) maskk.
Proof.
  intros Hm Hlen Hmask.
  destruct (apply_mask_to_logits_inv _ _ _ _ _ Hm Hlen) as (m1 & Hm1 & Hm2 & _).
  assert (∀ i j v, entry (default (zeros_like logits) mask) i j = Some v → v ≤ 1) as Hold.
  { intros i j v. unfold entry. destruct mask as [m|]; simpl.
    - intros Hv. destruct (m !! i) as [row|] eqn:Hrow; simpl in Hv; [|done].
      pose proof (proj1 (Forall_lookup _ _) (Hmask m eq_refl) i row Hrow) as Hrow'.
      by apply (proj1 (Forall_lookup _ _) Hrow' j v).
    - unfold zeros_like. rewrite list_lookup_fmap.
      destruct (logits !! i) as [row|]; simpl; [|done].
      rewrite list_lookup_fmap. destruct (row !! j); simpl; [|done].
      intros [= <-]. lia. }
  apply Forall_lookup. intros i row Hrow. apply Forall_lookup. intros j v Hv.
  assert (entry maskk i j = Some v) as Hentry by (unfold entry; by rewrite Hrow).
  rewrite (entry_index_fill2 _ _ _ _ i j Hm2), (entry_index_fill2 _ _ _ _ i j Hm1) in Hentry.
  destruct (entry _ i j) as [old|] eqn:Hentry0; simpl in Hentry; [|done].
  injection Hentry as <-. specialize (Hold i j old Hentry0).
  repeat case_decide; lia.
Qed.

(** X3.  Marks stay marks: when every entry of the mask passed in is 0 or
    1 (as is the zero mask of the first call), so is every entry of the
    mask returned. *)
Theorem apply_mask_to_logits_binary logits mask prev_idxs logits' maskk :
  apply_mask_to_logits logits mask (Some prev_idxs) = Ok (logits', maskk) →
  length prev_idxs = length logits →
  (∀ m, mask = Some m → Forall (Forall (λ v, v ≤ 1)) m) →
  ∀ row v, row ∈ maskk → v ∈ row → v = 0 ∨ v = 1.
Proof.
  intros Hm Hlen Hmask row v Hrow Hv.
  pose proof (mask_entries_binary _ _ _ _ _ Hm Hlen Hmask) as Hbinary.
  pose proof (proj1 (Forall_forall _ _) Hbinary row Hrow) as Hrow'.
  pose proof (proj1 (Forall_forall _ _) Hrow' v Hv). simpl in *. lia.
Qed.

(** X4.  With such a mask the call changes the logits of instances 0 and 1
    at most: the logits of every other instance come back as they were
    passed in, masked nodes included. *)
Theorem apply_mask_to_logits_other_instances logits mask prev_idxs logits' maskk b :
  apply_mask_to_logits logits mask (Some prev_idxs) = Ok (logits', maskk) →
  length prev_idxs = length logits →
  (∀ m, mask = Some m → Forall (Forall (λ v, v ≤ 1)) m) →
  2 ≤ b →
  logits' !! b = logits !! b.
Proof.
  intros Hm Hlen Hmask Hb.
  pose proof (mask_entries_binary _ _ _ _ _ Hm Hlen Hmask) as Hbinary.
  destruct (apply_mask_to_logits_inv _ _ _ _ _ Hm Hlen) as (m1 & Hm1 & Hm2 & Hfill).
  rewrite (fill_rows_lookup _ _ _ b Hfill).
  destruct (logits !! b) as [row|]; simpl; [|done].
  rewrite decide_False; [done|].
  intros (i & j & Hentry)%elem_of_concat_entry. unfold entry in Hentry.
  destruct (maskk !! i) as [r|] eqn:Hr; simpl in Hentry; [|done].
  pose proof (proj1 (Forall_lookup _ _) Hbinary i r Hr) as Hr'.
  pose proof (proj1 (Forall_lookup _ _) Hr' j b Hentry). simpl in *. lia.
Qed.

End MaskingMore.

(** ** The stochastic decoding step *)

Section DecodingMore.
Import PtrNet.
Context `{Torch}.
Variable self : Decoder.

Lemma set_visited_entry_eq (before before' : list (list (list Q))) n0 b0 n b row :
  set_visited before (n0, b0) = Ok before' → entry before n b = Some row →
  entry before' n b
  = Some (if decide ((n, b) = (n0, b0)) then <[pred (length row):=1%Q]> row else row).
Proof.
  unfold set_visited, entry. intros Hs Hrow.
  inv_bind Hs as m Hm. inv_bind Hs as v Hv. inv_bind Hs as v' Hv'. injection Hs as <-.
  apply getitem_Ok in Hm, Hv. apply setitem_Ok in Hv' as [Hlt ->].
  destruct (decide (n = n0)) as [->|Hn].
  - rewrite list_lookup_insert_eq by (by eapply lookup_lt_Some).
    rewrite Hm in Hrow. simpl in *.
    destruct (decide (b = b0)) as [->|Hb].
    + rewrite list_lookup_insert_eq by (by eapply lookup_lt_Some).
      rewrite Hv in Hrow. injection Hrow as <-. by rewrite decide_True.
    + rewrite list_lookup_insert_ne by done. rewrite Hrow.
      rewrite decide_False; [done|congruence].
  - rewrite list_lookup_insert_ne by done. rewrite Hrow.
    rewrite decide_False; [done|congruence].
Qed.

Lemma visited_loop_entry_eq pairs (before before' : list (list (list Q))) n b row :
  for_each set_visited pairs before = Ok before' → entry before n b = Some row →
  entry before' n b
  = Some (if decide ((n, b) ∈ pairs) then <[pred (length row):=1%Q]> row else row).
Proof.
  revert before row. induction pairs as [|[n0 b0] pairs IH]; intros before row Hl Hrow.
  - simpl in Hl. by injection Hl as <-.
  - simpl in Hl. inv_bind Hl as before1 Hbefore1.
    pose proof (set_visited_entry_eq _ _ _ _ _ _ _ Hbefore1 Hrow) as Hrow1.
    rewrite (IH _ _ Hl Hrow1). f_equal. rewrite if_elem_of_cons.
    destruct (decide ((n, b) = (n0, b0))) as [Heq|Hne].
    + rewrite length_insert, list_insert_insert_eq. by case_decide.
    + done.
Qed.

Lemma elem_of_zip_visited (idxs l visited : list nat) n b :
  mapM (getitem idxs) l = Ok visited →
  (n, b) ∈ zip visited l ↔ b ∈ l ∧ idxs !! b = Some n.
Proof.
  intros Hvisited. apply mapM_Ok_lookup in Hvisited as [Hlen Hvisited]. split.
  - intros [k Hk]%list_elem_of_lookup. rewrite lookup_zip_with in Hk.
    destruct (visited !! k) as [n'|] eqn:Hn'; simpl in Hk; [|done].
    destruct (l !! k) as [b'|] eqn:Hb'; simpl in Hk; [|done].
    injection Hk as <- <-. split; [by eapply list_elem_of_lookup_2|].
    destruct (Hvisited k b' Hb') as (y & Hy & Hget). apply getitem_Ok in Hget. congruence.
  - intros [[k Hk]%list_elem_of_lookup Hn].
    destruct (Hvisited k b Hk) as (y & Hy & Hget). apply getitem_Ok in Hget.
    apply list_elem_of_lookup. exists k. rewrite lookup_zip_with, Hy. simpl.
    rewrite Hk. simpl. congruence.
Qed.

(** What a call that returns has gone through, with the lists it builds
    for the visited flags and for the next decoder input. *)
Lemma decode_stochastic_inv_io multinomial probs before embedded prev_idxs rc out :
  decode_stochastic self multinomial probs before embedded prev_idxs rc = Ok out →
  ∃ visited selected sels0,
    mapM (getitem (d_idxs out)) (nonzero (d_idxs out)) = Ok visited
    ∧ for_each set_visited (zip visited (nonzero (d_idxs out))) before
      = Ok (d_before_embedded_inputs out)
    ∧ gather embedded (d_idxs out) (length probs) = Ok selected
    ∧ sels_embedded self (length probs) selected = Ok sels0
    ∧ sels_state sels0 (d_rc_ct out) = Ok (d_sels out).
Proof.
  unfold decode_stochastic. intros Hd.
  inv_bind Hd as idxs Hidxs. inv_bind Hd as visited Hvisited.
  inv_bind Hd as before' Hbefore'. inv_bind Hd as embedded' Hembedded'.
  inv_bind Hd as selected Hselected. inv_bind Hd as sels0 Hsels0.
  inv_bind Hd as prev Hprev. inv_bind Hd as cur Hcur.
  inv_bind Hd as required_capacity Hreq. inv_bind Hd as t_1 Ht_1.
  inv_bind Hd as rc1 Hrc1. inv_bind Hd as rc2 Hrc2. inv_bind Hd as sels Hsels.
  injection Hd as <-. simpl.
  apply re_embed_Ok in Hembedded' as [_ ->].
  by exists visited, selected, sels0.
Qed.

(** X5.  After a step that returns, the feature row of node [n] of
    instance [b] is the row passed in, with its last column (the visited
    flag) set to 1 when instance [b] sampled [n] and [n] is not the depot:
    the selected nodes are marked, the depot never is, and no other
    feature changes. *)
Theorem decode_stochastic_visited multinomial probs before embedded prev_idxs rc out n b row :
  decode_stochastic self multinomial probs before embedded prev_idxs rc = Ok out →
  entry before n b = Some row →
  entry (d_before_embedded_inputs out) n b
  = Some (if decide (d_idxs out !! b = Some n ∧ n ≠ 0)
          then <[pred (length row):=1%Q]> row else row).
Proof.
  intros Hd Hrow.
  destruct (decode_stochastic_inv_io _ _ _ _ _ _ _ Hd)
    as (visited & selected & sels0 & Hvisited & Hloop & _).
  rewrite (visited_loop_entry_eq _ _ _ _ _ _ Hloop Hrow). f_equal.
  apply decide_ext. rewrite (elem_of_zip_visited _ _ _ _ _ Hvisited), elem_of_nonzero.
  split.
  - intros [(x & Hx & Hne) Hn]. split; [done|congruence].
  - intros [Hn Hne]. split; [by exists n|done].
Qed.

Lemma update_instance_length nz dist req t1 (rc rc' : list (Q * Q)) i :
  update_instance nz dist req t1 rc i = Ok rc' →
  length rc' = length rc ∧ (i ∈ nz → i < length rc).
Proof.
  unfold update_instance. case_decide as Hi; [|intros [= <-]; by split]. intros Hu.
  inv_bind Hu as row Hrow. inv_bind Hu as d Hd. inv_bind Hu as t Ht.
  inv_bind Hu as rc1 Hrc1. inv_bind Hu as row0 Hrow0. inv_bind Hu as c Hc.
  apply setitem_Ok in Hrc1 as [Hlt ->]. apply setitem_Ok in Hu as [_ ->].
  by rewrite !length_insert.
Qed.

Lemma update_loop_length nz dist req t1 l (rc rc' : list (Q * Q)) :
  for_each (update_instance nz dist req t1) l rc = Ok rc' →
  length rc' = length rc ∧ ∀ i, i ∈ l → i ∈ nz → i < length rc.
Proof.
  revert rc. induction l as [|j l IH]; intros rc Hl; simpl in Hl.
  - injection Hl as <-. split; [done|]. intros i Hi. by apply elem_of_nil in Hi.
  - inv_bind Hl as rc1 Hrc1.
    destruct (update_instance_length _ _ _ _ _ _ _ Hrc1) as [Hlen1 Hj].
    destruct (IH _ Hl) as [Hlen Hin]. split; [congruence|].
    intros i [->|Hi]%elem_of_cons Hnz; [by apply Hj|]. rewrite <- Hlen1. by apply Hin.
Qed.

(** After a call that returns with one draw per instance, there is one
    vehicle state per instance. *)
Lemma decode_stochastic_rc_length multinomial probs before embedded prev_idxs rc out :
  decode_stochastic self multinomial probs before embedded prev_idxs rc = Ok out →
  length (d_idxs out) = length probs →
  length probs ≤ length (d_rc_ct out).
Proof.
  intros Hd Hlen.
  destruct (decode_stochastic_inv _ _ _ _ _ _ _ _ Hd)
    as (_ & _ & Hzero & _ & _ & prev & cur & req & t_1 & rc1 & _ & _ & _ & _ & Hrc1 & Hfill).
  destruct (index_fill_length _ _ _ _ Hfill) as [Hlenfill Hin].
  destruct (update_loop_length _ _ _ _ _ _ _ Hrc1) as [Hlenrc Hnz].
  rewrite Hlenfill. rewrite Hzero in Hin.
  pose proof (Hin 0 ltac:(by left)) as H0.
  destruct (length probs) as [|[|k]] eqn:HB; [lia..|].
  destruct (lookup_lt_is_Some_2 (d_idxs out) (S k) ltac:(lia)) as [n Hn].
  assert (S k ∈ nonzero (d_idxs out)) as Hk.
  { apply elem_of_nonzero. exists n. split; [done|]. intros ->.
    apply elem_of_where_zero in Hn. rewrite Hzero in Hn.
    by apply list_elem_of_singleton in Hn. }
  pose proof (Hnz (S k) ltac:(apply elem_of_seq; lia) Hk). lia.
Qed.

(** X6.  The next decoder input a step returns is, for every instance,
    the embedding of the node it sampled (a one-column embedding is
    broadcast over the embedding columns) followed by its new remaining
    capacity and its new elapsed time. *)
Theorem decode_stochastic_next_input multinomial probs before embedded prev_idxs rc out i n emb :
  decode_stochastic self multinomial probs before embedded prev_idxs rc = Ok out →
  length (d_idxs out) = length probs →
  d_idxs out !! i = Some n → entry embedded n i = Some emb →
  ∃ row c t,
    fit_row (embedding_dim self) emb = Ok row
    ∧ d_rc_ct out !! i = Some (c, t)
    ∧ d_sels out !! i = Some (row ++ [c; t]).
Proof.
  intros Hd Hlen Hn Hemb.
  pose proof (decode_stochastic_rc_length _ _ _ _ _ _ _ Hd Hlen) as Hlenrc.
  destruct (decode_stochastic_inv_io _ _ _ _ _ _ _ Hd)
    as (visited & selected & sels0 & _ & _ & Hselected & Hsels0 & Hsels).
  destruct (gather_lookup _ _ _ _ _ _ Hselected Hlen Hn) as (emb' & Hemb' & Hentry).
  assert (emb' = emb) as -> by congruence.
  unfold sels_embedded in Hsels0. case_decide as Hshape; [|done].
  inv_bind Hsels0 as rows Hrows. injection Hsels0 as <-.
  destruct (mapM_Ok_lookup _ _ _ Hrows) as [Hlenrows Hfit].
  destruct (Hfit i emb Hemb') as (row & Hrow & Hfitrow).
  replace (self_embedding_dim self - 2) with (embedding_dim self) in Hfitrow
    by (unfold self_embedding_dim; lia).
  assert (i < length probs) as Hi by (rewrite <- Hlen; by eapply lookup_lt_Some).
  destruct (lookup_lt_is_Some_2 (d_rc_ct out) i ltac:(lia)) as [[c t] Hrc].
  exists row, c, t. split; [done|]. split; [done|].
  assert (write_state (row ++ [0; 0]%Q) (c, t) = row ++ [c; t]) as Hwrite.
  { unfold write_state. rewrite length_app. simpl.
    replace (length row + 2 - 2) with (length row) by lia.
    by rewrite take_app_length. }
  unfold sels_state in Hsels. rewrite length_fmap in Hsels. case_decide as Hlenrc'.
  - injection Hsels as <-.
    by rewrite lookup_zip_with, list_lookup_fmap, Hrow, Hrc; simpl; rewrite Hwrite.
  - destruct (d_rc_ct out) as [|r [|r' rc']] eqn:Hrc_ct; [done| |done].
    injection Hsels as <-. simpl in Hlenrc.
    assert (i = 0) as -> by lia. injection Hrc as ->.
    by rewrite !list_lookup_fmap, Hrow; simpl; rewrite Hwrite.
Qed.

(** X7.  With a norm that is never negative, the elapsed time of an
    instance that sampled a node is, after the step, neither earlier than
    before the step nor earlier than the opening of the node's window. *)
Theorem decode_stochastic_time_monotone multinomial probs before embedded prev_idxs rc out
    i n p c t prev_row cur_row s :
  (∀ v, (0 <= norm v)%Q) →
  decode_stochastic self multinomial probs before embedded prev_idxs rc = Ok out →
  length (d_idxs out) = length probs → length prev_idxs = length probs →
  d_idxs out !! i = Some n → n ≠ 0 → prev_idxs !! i = Some p → rc !! i = Some (c, t) →
  entry before p i = Some prev_row → entry before n i = Some cur_row →
  3 ≤ length prev_row → 5 ≤ length cur_row → cur_row !! 3 = Some s →
  ∃ t', snd <$> d_rc_ct out !! i = Some t' ∧ (t <= t')%Q ∧ (s <= t')%Q.
Proof.
  intros Hnorm Hd Hlen Hlenp Hn Hn0 Hp Hrc Hprev Hcur Hlenprev Hlencur Hs.
  rewrite (decode_stochastic_row _ _ _ _ _ _ _ _ _ _ _ _ _ _ _ _
             Hd Hlen Hlenp Hn Hn0 Hp Hrc Hprev Hcur Hlenprev Hlencur Hs).
  simpl. eexists. split; [done|].
  pose proof (Hnorm (zip_with Qminus (take 2 prev_row) (take 2 cur_row))) as Hd0.
  set (d := norm _) in *.
  split.
  - apply Qle_trans with (t + d)%Q; [lra|apply Q.le_max_l].
  - apply Q.le_max_r.
Qed.

End DecodingMore.

(** ** The graph embedder *)

Lemma raises_mapM {A B} (f : A → result B) (l : list A) x :
  x ∈ l → raises (f x) → raises (mapM f l).
Proof.
  induction l as [|a l IH]; intros Hx Hf; [by apply elem_of_nil in Hx|].
  simpl. apply elem_of_cons in Hx as [->|Hx].
  - by apply raises_bind_l.
  - apply raises_bind_r. intros y. by apply raises_bind_l, IH.
Qed.

Lemma mapM_Ok_fmap {A B C} (f : A → result B) (g : A → result C) (h : B → C)
    (l : list A) (k : list B) :
  (∀ x y, x ∈ l → f x = Ok y → g x = Ok (h y)) →
  mapM f l = Ok k → mapM g l = Ok (h <$> k).
Proof.
  revert k. induction l as [|a l IH]; intros k Hfg Hk; simpl in *.
  - by injection Hk as <-.
  - inv_bind Hk as b Hb. inv_bind Hk as k' Hk'. injection Hk as <-.
    rewrite (Hfg a b ltac:(by left) Hb). simpl.
    rewrite (IH k'); [done| |done]. intros x y Hx. apply Hfg. by right.
Qed.

Section EmbedderFacts.
Import PtrNet Embedder.
Context `{Torch}.
Variables (node_num p_dim R : nat).
Variables (w1 w2 w3 w4 w5 : nat → nat → Q).

Local Abbreviation node_update := (node_update node_num p_dim w1 w2 w3 w4 w5).
Local Abbreviation round := (round node_num p_dim w1 w2 w3 w4 w5).
Local Abbreviation rounds := (rounds node_num p_dim w1 w2 w3 w4 w5).
Local Abbreviation embed := (embed node_num p_dim R w1 w2 w3 w4 w5).

(** The shape of an embedding tensor and the sign of its entries. *)
Local Abbreviation embedding_ok batch_size :=
  (Forall (λ m : list (list Q),
     length m = batch_size
     ∧ Forall (λ row : list Q, length row = p_dim ∧ Forall (λ x, (0 <= x)%Q) row) m)).

Lemma relu_nonneg x : (0 <= relu x)%Q.
Proof.
  unfold relu, Qltb. destruct (0 ?= x)%Q eqn:Hx; try apply Qle_refl.
  apply Qlt_le_weak. by apply Qlt_alt.
Qed.

Lemma node_update_ok inputs batch_size mu i v :
  node_update inputs batch_size mu i = Ok v →
  length v = batch_size
  ∧ Forall (λ row : list Q, length row = p_dim ∧ Forall (λ x, (0 <= x)%Q) row) v.
Proof.
  unfold Embedder.node_update. intros Hv.
  inv_bind Hv as mu_i Hmu_i. inv_bind Hv as item_1 Hitem_1. inv_bind Hv as terms Hterms.
  inv_bind Hv as total Htotal. inv_bind Hv as item_2 Hitem_2. inv_bind Hv as item_3 Hitem_3.
  case_decide as Hshape; [|done]. injection Hv as <-. destruct Hshape as [Hlen Hrows].
  split; [done|]. apply Forall_forall. intros row Hrow.
  split; [by apply (proj1 (Forall_forall _ _) Hrows)|].
  unfold relu_mat in Hrow. apply list_elem_of_fmap in Hrow as (row0 & -> & _).
  apply Forall_forall. intros x (x0 & -> & _)%list_elem_of_fmap. apply relu_nonneg.
Qed.

Lemma round_ok inputs batch_size mu mu' :
  round inputs batch_size mu = Ok mu' →
  length mu' = node_num ∧ embedding_ok batch_size mu'.
Proof.
  unfold Embedder.round. intros Hmu'. split.
  - apply mapM_Ok_lookup in Hmu' as [-> _]. apply length_seq.
  - apply Forall_forall. intros v Hv.
    destruct (mapM_Ok_elem _ _ _ _ Hmu' Hv) as (i & _ & Hi).
    by eapply node_update_ok.
Qed.

Lemma rounds_ok inputs batch_size r mu mu' :
  rounds inputs batch_size r mu = Ok mu' →
  length mu = node_num ∧ embedding_ok batch_size mu →
  length mu' = node_num ∧ embedding_ok batch_size mu'.
Proof.
  revert mu. induction r as [|r IH]; intros mu Hr Hmu; simpl in Hr.
  - by injection Hr as <-.
  - inv_bind Hr as mu1 Hmu1. apply (IH mu1 Hr). by eapply round_ok.
Qed.

Lemma zeros3_ok batch_size :
  length (zeros3 node_num batch_size p_dim) = node_num
  ∧ embedding_ok batch_size (zeros3 node_num batch_size p_dim).
Proof.
  unfold zeros3. split; [apply length_replicate|].
  apply Forall_replicate. split; [apply length_replicate|].
  apply Forall_replicate. split; [apply length_replicate|].
  by apply Forall_replicate.
Qed.

Lemma embed_length inputs mu : embed inputs = Ok mu → length mu = node_num.
Proof.
  unfold Embedder.embed. intros Hmu.
  by destruct (rounds_ok _ _ _ _ _ Hmu (zeros3_ok _)).
Qed.

(** X8.  Whenever the graph embedder returns, it returns [node_num]
    embeddings per instance, one row of [p_dim] entries for each of the
    instances of the input, whatever the number of nodes and columns the
    input has beyond what it reads. *)
Theorem embed_shape inputs mu :
  embed inputs = Ok mu →
  length mu = node_num
  ∧ ∀ m, m ∈ mu →
      length m = match inputs with [] => 0 | m0 :: _ => length m0 end
      ∧ ∀ row, row ∈ m → length row = p_dim.
Proof.
  unfold Embedder.embed. intros Hmu.
  destruct (rounds_ok _ _ _ _ _ Hmu (zeros3_ok _)) as [Hlen Hok].
  split; [done|]. intros m Hm.
  destruct (proj1 (Forall_forall _ _) Hok m Hm) as [Hm_len Hrows].
  split; [done|]. intros row Hrow.
  by destruct (proj1 (Forall_forall _ _) Hrows row Hrow).
Qed.

(** X9.  No entry of an embedding is negative, for any weights and any
    features: every round ends in a rectification, and without a round
    the embedding is zero. *)
Theorem embed_nonneg inputs mu m row x :
  embed inputs = Ok mu → m ∈ mu → row ∈ m → x ∈ row → (0 <= x)%Q.
Proof.
  unfold Embedder.embed. intros Hmu Hm Hrow Hx.
  destruct (rounds_ok _ _ _ _ _ Hmu (zeros3_ok _)) as [_ Hok].
  destruct (proj1 (Forall_forall _ _) Hok m Hm) as [_ Hrows].
  destruct (proj1 (Forall_forall _ _) Hrows row Hrow) as [_ Hxs].
  by apply (proj1 (Forall_forall _ _) Hxs).
Qed.

(** X10.  With a round to run, an input with fewer nodes than [node_num]
    makes the graph embedder raise. *)
Theorem embed_too_few_nodes inputs :
  0 < R → length inputs < node_num → raises (embed inputs).
Proof.
  intros HR Hlen. unfold Embedder.embed. destruct R as [|r]; [lia|]. simpl.
  apply raises_bind_l. unfold Embedder.round.
  apply (raises_mapM _ _ (length inputs)); [apply elem_of_seq; lia|].
  unfold Embedder.node_update.
  apply raises_bind_r. intros mu_i. apply raises_bind_r. intros item_1.
  apply raises_bind_l. apply (raises_mapM _ _ 0); [apply elem_of_seq; lia|].
  unfold distance_term. apply raises_bind_l. exists IndexError.
  unfold getitem. by rewrite lookup_ge_None_2.
Qed.

(** *** One instance at a time *)

Lemma sel_zip_with (f : list Q → list Q → list Q) b (x y : list (list Q)) :
  sel b (zip_with f x y) = zip_with f (sel b x) (sel b y).
Proof. unfold sel. rewrite lookup_zip_with. by destruct (x !! b), (y !! b). Qed.

Lemma sel_fmap (f : list Q → list Q) b (x : list (list Q)) :
  sel b (f <$> x) = f <$> sel b x.
Proof. unfold sel. rewrite list_lookup_fmap. by destruct (x !! b). Qed.

Lemma sel_replicate b n (row : list Q) : b < n → sel b (replicate n row) = [row].
Proof. intros Hb. unfold sel. by rewrite lookup_replicate_2. Qed.

Lemma sel_mapM (f : list Q → result (list Q)) b (x y : list (list Q)) :
  mapM f x = Ok y → mapM f (sel b x) = Ok (sel b y).
Proof.
  intros Hy. apply mapM_Ok_lookup in Hy as [Hlen Hy]. unfold sel.
  destruct (x !! b) as [row|] eqn:Hrow; simpl.
  - destruct (Hy b row Hrow) as (row' & -> & ->). done.
  - rewrite (lookup_ge_None_2 y); [done|]. rewrite Hlen. by apply lookup_ge_None.
Qed.

Lemma sel_Linear_forward (theta : Linear) b (x y : list (list Q)) :
  Linear_forward theta x = Ok y → Linear_forward theta (sel b x) = Ok (sel b y).
Proof. apply sel_mapM. Qed.

Lemma sel_sum_nodes b batch_size (mu : list (list (list Q))) :
  b < batch_size →
  sel b (sum_nodes p_dim batch_size mu) = sum_nodes p_dim 1 (instance b mu).
Proof.
  intros Hb. unfold sum_nodes, instance. induction mu as [|m mu IH]; simpl.
  - by apply sel_replicate.
  - unfold madd at 1 3. by rewrite sel_zip_with, IH.
Qed.

Lemma sel_foldl_madd b (terms : list (list (list Q))) (acc : list (list Q)) :
  sel b (foldl madd acc terms) = foldl madd (sel b acc) (sel b <$> terms).
Proof.
  revert acc. induction terms as [|t terms IH]; intros acc; simpl; [done|].
  rewrite IH. unfold madd at 2 4. by rewrite sel_zip_with.
Qed.

Lemma sel_python_sum b (terms : list (list (list Q))) (total : list (list Q)) :
  python_sum terms = Ok total → python_sum (sel b <$> terms) = Ok (sel b total).
Proof.
  destruct terms as [|t0 terms]; simpl; [done|]. intros [= <-].
  by rewrite sel_foldl_madd, sel_fmap.
Qed.

Lemma getitem_instance b (t : list (list (list Q))) i m :
  getitem t i = Ok m → getitem (instance b t) i = Ok (sel b m).
Proof.
  rewrite !getitem_Ok. unfold instance. rewrite list_lookup_fmap. by intros ->.
Qed.

Lemma distance_term_instance b inputs i j t :
  distance_term p_dim w3 inputs i j = Ok t →
  distance_term p_dim w3 (instance b inputs) i j = Ok (sel b t).
Proof.
  unfold distance_term. intros Ht.
  inv_bind Ht as x_i Hx_i. inv_bind Ht as x_j Hx_j. inv_bind Ht as t0 Ht0.
  injection Ht as <-.
  rewrite (getitem_instance _ _ _ _ Hx_i). simpl.
  rewrite (getitem_instance _ _ _ _ Hx_j). simpl.
  unfold msub. rewrite <- !sel_fmap, <- sel_zip_with, <- sel_fmap.
  rewrite (sel_Linear_forward _ _ _ _ Ht0). simpl.
  unfold relu_mat. by rewrite sel_fmap.
Qed.

Lemma node_update_instance b inputs batch_size mu i v :
  node_update inputs batch_size mu i = Ok v → b < batch_size →
  node_update (instance b inputs) 1 (instance b mu) i = Ok (sel b v).
Proof.
  unfold Embedder.node_update. intros Hv Hb.
  inv_bind Hv as mu_i Hmu_i. inv_bind Hv as item_1 Hitem_1. inv_bind Hv as terms Hterms.
  inv_bind Hv as total Htotal. inv_bind Hv as item_2 Hitem_2. inv_bind Hv as item_3 Hitem_3.
  case_decide as Hshape; [|done]. injection Hv as <-. destruct Hshape as [Hlen Hrows].
  rewrite (getitem_instance _ _ _ _ Hmu_i). simpl.
  rewrite <- (sel_sum_nodes b batch_size mu Hb).
  unfold msub at 1. rewrite <- sel_zip_with. fold (msub (sum_nodes p_dim batch_size mu) mu_i).
  rewrite (sel_Linear_forward _ _ _ _ Hitem_1). simpl.
  rewrite (mapM_Ok_fmap _ (distance_term p_dim w3 (instance b inputs) i) (sel b) _ _
             (λ j t _, distance_term_instance b inputs i j t) Hterms). simpl.
  rewrite (sel_python_sum _ _ _ Htotal). simpl.
  rewrite (sel_Linear_forward _ _ _ _ Hitem_2). simpl.
  assert ((if decide (i = 0)
           then x_i ← getitem (instance b inputs) i; Linear_forward (theta_5 p_dim w5) (take 2 <$> x_i)
           else x_i ← getitem (instance b inputs) i; Linear_forward (theta_4 p_dim w4) x_i)
          = Ok (sel b item_3)) as ->.
  { case_decide; inv_bind Hitem_3 as x_i Hx_i;
      rewrite (getitem_instance _ _ _ _ Hx_i); simpl.
    - rewrite <- sel_fmap. by apply sel_Linear_forward.
    - by apply sel_Linear_forward. }
  simpl. unfold madd, relu_mat. rewrite <- !sel_zip_with, <- sel_fmap.
  destruct (lookup_lt_is_Some_2
              ((λ row : list Q, relu <$> row)
                 <$> zip_with (zip_with Qplus) (zip_with (zip_with Qplus) item_1 item_2) item_3)
              b) as [row Hrow]; [unfold madd, relu_mat in Hlen; lia|].
  rewrite decide_True; [done|]. unfold sel. rewrite Hrow. simpl.
  split; [done|]. constructor; [|done].
  apply (proj1 (Forall_lookup _ _) Hrows b row Hrow).
Qed.

Lemma rounds_instance b inputs batch_size r mu mu' :
  rounds inputs batch_size r mu = Ok mu' → b < batch_size →
  rounds (instance b inputs) 1 r (instance b mu) = Ok (instance b mu').
Proof.
  revert mu. induction r as [|r IH]; intros mu Hr Hb; simpl in *.
  - by injection Hr as <-.
  - inv_bind Hr as mu1 Hmu1. unfold Embedder.round in *.
    rewrite (mapM_Ok_fmap _ (node_update (instance b inputs) 1 (instance b mu)) (sel b) _ _
               (λ i v _ Hv, node_update_instance b inputs batch_size mu i v Hv Hb) Hmu1).
    simpl. by apply IH.
Qed.

(** X11.  The instances of a batch do not influence one another: the
    embeddings of instance [b] in the batch are the embeddings the graph
    embedder returns for instance [b] alone. *)
Theorem embed_instance b inputs mu :
  embed inputs = Ok mu →
  b < match inputs with [] => 0 | m0 :: _ => length m0 end →
  embed (instance b inputs) = Ok (instance b mu).
Proof.
  unfold Embedder.embed. intros Hmu Hb.
  destruct inputs as [|m0 inputs]; [simpl in Hb; lia|].
  destruct (lookup_lt_is_Some_2 m0 b Hb) as [row0 Hrow0].
  assert (instance b (m0 :: inputs) = [row0] :: instance b inputs) as Hinst.
  { unfold instance, sel. cbn [fmap list_fmap]. by rewrite Hrow0. }
  rewrite Hinst at 2 3. cbn [length].
  rewrite <- (rounds_instance b _ _ _ _ _ Hmu Hb). f_equal.
  unfold instance, zeros3. rewrite fmap_replicate. f_equal. symmetry.
  by apply sel_replicate.
Qed.

End EmbedderFacts.

(** ** The actor network *)

Section NetworkFacts.
Import PtrNet Embedder Network.
Context `{Torch}.

Lemma PointerNetwork_forward_inv self multinomial inputs out :
  PointerNetwork_forward self multinomial inputs = Ok out →
  ∃ embedded first decoder_input hidden context hidden',
    Struct2Vec_forward (pn_Struct2Vec self) (T3 (permute_1_0_2 inputs)) = Ok embedded
    ∧ getitem embedded 0 = Ok first
    ∧ forward (pn_decoder self) multinomial decoder_input inputs embedded hidden context
      = Ok (Some (out, hidden')).
Proof.
  unfold PointerNetwork_forward. intros Hf.
  inv_bind Hf as embedded Hembedded. simpl in Hf.
  destruct (lstm (pn_encoder self) embedded _) as [context [enc_h_t enc_c_t]].
  simpl in Hf.
  inv_bind Hf as h Hh. inv_bind Hf as c Hc. inv_bind Hf as first Hfirst.
  inv_bind Hf as rows Hrows. inv_bind Hf as r Hr.
  destruct r as [[[pointer_probs input_idxs] dec_hidden_t]|]; [|done].
  injection Hf as <-. by eexists _, _, _, _, _, _.
Qed.

Section Network.
Variables (embedding_dim hidden_dim seq_len n_glimpses beam_size : nat).
Variables (use_cuda : bool) (vehicle_init_capacity : Q) (p_dim R : nat).
Variables (w1 w2 w3 w4 w5 : nat → nat → Q).
Variable lstm : list (list (list Q)) → list (list (list Q)) * list (list (list Q))
                → list (list (list Q)) * (list (list (list Q)) * list (list (list Q))).
Variable decoder_lstm : list (list Q) → list (list Q) * list (list Q)
                        → list (list Q) * list (list Q).
Variables (pointer glimpse : Attention) (sm : list (list logit) → list (list Q)).

Local Abbreviation network :=
  (PointerNetwork_init embedding_dim hidden_dim seq_len n_glimpses beam_size use_cuda
     vehicle_init_capacity p_dim R w1 w2 w3 w4 w5 lstm decoder_lstm pointer glimpse sm).

(** The network built by the constructor returns for one node only.
    Without a node the call raises where it reads the embedding of the
    depot, at the latest; with two nodes or more the first pass of the
    decoding loop raises.  The kernels are total here, so a kernel that
    raises in the code only makes the call raise sooner. *)
Lemma PointerNetwork_returns_single_node multinomial inputs out :
  PointerNetwork_forward network multinomial inputs = Ok out → seq_len = 1.
Proof.
  intros Hf.
  destruct (PointerNetwork_forward_inv _ _ _ _ Hf)
    as (embedded & first & decoder_input & hidden & context & hidden' & He & Hfirst & Hd).
  simpl in He. apply embed_length in He.
  apply getitem_Ok in Hfirst. apply lookup_lt_Some in Hfirst.
  destruct (decide (2 ≤ seq_len)) as [Hlen|Hlen]; [exfalso|lia].
  unfold forward in Hd. inv_bind Hd as prob_0 Hprob_0. simpl in Hd.
  destruct ((seq_len - 1) * 2) as [|k] eqn:Hk; [lia|]. simpl in Hd.
  inv_bind Hd as st Hst. inv_bind Hst as st1 Hst1.
  match type of Hst1 with
  | step ?d ?m ?s = _ => destruct (step_raises d m s) as [e He']
  end.
  by rewrite He' in Hst1.
Qed.

(** X13.  The actor network, as its constructor builds it, raises on
    every input unless it was built for exactly one node. *)
Theorem PointerNetwork_forward_raises multinomial inputs :
  seq_len ≠ 1 → raises (PointerNetwork_forward network multinomial inputs).
Proof.
  intros Hlen.
  destruct (PointerNetwork_forward network multinomial inputs) as [out|e] eqn:Hf;
    [|by exists e].
  by apply PointerNetwork_returns_single_node in Hf.
Qed.

(** X14.  Whenever the actor network returns, the trajectory it returns
    is the forced first step alone: every instance at the depot, with
    probability 1 on the depot and 0 on every other node.  No service
    node is ever selected. *)
Theorem PointerNetwork_forward_depot_only multinomial inputs pointer_probs input_idxs :
  PointerNetwork_forward network multinomial inputs = Ok (pointer_probs, input_idxs) →
  ∃ batch_size k,
    pointer_probs = [replicate batch_size (1%Q :: replicate k 0%Q)]
    ∧ input_idxs = [replicate batch_size 0].
Proof.
  intros Hf. pose proof (PointerNetwork_returns_single_node _ _ _ Hf) as Hlen.
  destruct (PointerNetwork_forward_inv _ _ _ _ Hf)
    as (embedded & first & decoder_input & hidden & context & hidden' & _ & _ & Hd).
  destruct context as [|m context].
  { unfold forward in Hd. by inv_bind Hd as prob_0 Hprob_0. }
  rewrite (forward_stochastic_single_node _ (multinomial)) in Hd; [|done|simpl; lia].
  injection Hd as <- <- _. by exists (length m), (length context).
Qed.

End Network.

(** *** The actor with its critic *)

Lemma broadcast_elem (xs ys : list nat) pairs x y :
  broadcast xs ys = Ok pairs → (x, y) ∈ pairs → x ∈ xs ∧ y ∈ ys.
Proof.
  unfold broadcast. intros Hpairs Hxy.
  assert (∀ (l : list nat) x0, (x, y) ∈ pair x0 <$> l → x = x0 ∧ y ∈ l) as Hr.
  { by intros l x0 (y' & [= -> ->] & Hy)%list_elem_of_fmap. }
  assert (∀ (l : list nat) y0, (x, y) ∈ (λ x', (x', y0)) <$> l → x ∈ l ∧ y = y0) as Hl.
  { by intros l y0 (x' & [= -> ->] & Hx)%list_elem_of_fmap. }
  case_decide as Hlen.
  - injection Hpairs as <-. apply list_elem_of_lookup in Hxy as [i Hi].
    rewrite lookup_zip_with in Hi.
    destruct (xs !! i) as [x'|] eqn:Hx; simpl in Hi; [|done].
    destruct (ys !! i) as [y'|] eqn:Hy; simpl in Hi; [|done].
    injection Hi as <- <-. split; by eapply list_elem_of_lookup_2.
  - destruct xs as [|x0 [|x1 xs]].
    + destruct ys as [|y0 [|y1 ys]]; try done.
      injection Hpairs as <-. by apply elem_of_nil in Hxy.
    + injection Hpairs as <-. apply Hr in Hxy as [-> Hy]. split; [by left|done].
    + destruct ys as [|y0 [|y1 ys]]; try done.
      injection Hpairs as <-. apply (Hl (x0 :: x1 :: xs) y0) in Hxy as [Hx ->].
      split; [done|by left].
Qed.

Lemma select_actions_elem {A} (t : list (list A)) batch_size action_id (a : list A) row :
  select_actions t batch_size action_id = Ok a → row ∈ a →
  ∃ b n, n ∈ action_id ∧ entry t b n = Some row.
Proof.
  unfold select_actions. intros Ha Hrow. inv_bind Ha as pairs Hpairs.
  destruct (mapM_Ok_elem _ _ _ _ Ha Hrow) as ([b n] & Hbn & Hget).
  destruct (broadcast_elem _ _ _ _ _ Hpairs Hbn) as [_ Hn].
  exists b, n. split; [done|]. by apply getitem2_Ok.
Qed.

Lemma view_rows_elem {A} cols (l : list A) rows row x :
  view_rows cols l = Ok rows → row ∈ rows → x ∈ row → x ∈ l.
Proof.
  unfold view_rows. intros Hrows Hrow Hx. repeat case_decide; try done.
  injection Hrows as <-. apply list_elem_of_fmap in Hrow as (r & -> & _).
  apply list_elem_of_lookup in Hx as [i Hi]. apply lookup_take_Some in Hi as [Hi _].
  rewrite lookup_drop in Hi. by eapply list_elem_of_lookup_2.
Qed.

Lemma transpose_1_0_elem {A} cols (t : list (list A)) l x :
  l ∈ transpose_1_0 cols t → x ∈ l → ∃ row, row ∈ t ∧ x ∈ row.
Proof.
  unfold transpose_1_0. intros (j & -> & _)%list_elem_of_fmap Hx.
  apply list_elem_of_omap in Hx as (row & Hrow & Hj).
  exists row. split; [done|]. by eapply list_elem_of_lookup_2.
Qed.

Section TopLevel.
Variables (embedding_dim hidden_dim seq_len n_glimpses n_process_blocks beam_size : nat).
Variables (is_train use_cuda : bool) (vehicle_init_capacity : Q) (p_dim R : nat).
Variables (w1 w2 w3 w4 w5 : nat → nat → Q).
Variables lstm critic_lstm :
  list (list (list Q)) → list (list (list Q)) * list (list (list Q))
  → list (list (list Q)) * (list (list (list Q)) * list (list (list Q))).
Variable decoder_lstm : list (list Q) → list (list Q) * list (list Q)
                        → list (list Q) * list (list Q).
Variables (pointer glimpse process_block : Attention).
Variables (sm critic_sm : list (list logit) → list (list Q)).
Variable critic_decoder : list (list Q) → result (list (list Q)).

Local Abbreviation model :=
  (NeuralCombOptRL_init embedding_dim hidden_dim seq_len n_glimpses n_process_blocks beam_size
     is_train use_cuda vehicle_init_capacity p_dim R w1 w2 w3 w4 w5 lstm critic_lstm
     decoder_lstm pointer glimpse process_block sm critic_sm critic_decoder).

(** The selections the actor of the model returns. *)
Lemma actor_net_selections multinomial inputs pointer_probs input_idxs :
  PointerNetwork_forward (actor_net model) multinomial inputs = Ok (pointer_probs, input_idxs) →
  ∃ batch_size, input_idxs = [replicate batch_size 0].
Proof.
  intros Hf. pose proof (PointerNetwork_returns_single_node _ _ _ _ _ _ _ _ _ _ _ _ _ _ _ _
                           _ _ _ _ _ _ Hf) as Hlen.
  destruct (PointerNetwork_forward_inv _ _ _ _ Hf)
    as (embedded & first & decoder_input & hidden & context & hidden' & _ & _ & Hd).
  destruct context as [|m context].
  { unfold forward in Hd. by inv_bind Hd as prob_0 Hprob_0. }
  rewrite (forward_stochastic_single_node _ (multinomial)) in Hd; [|done|simpl; lia].
  injection Hd as _ <- _. by exists (length m).
Qed.

(** X17.  The model raises on every input unless it was built for
    exactly one node: the actor is called first, and the critic is not
    reached. *)
Theorem NeuralCombOptRL_forward_raises multinomial inputs :
  seq_len ≠ 1 → raises (NeuralCombOptRL_forward model multinomial inputs).
Proof.
  intros Hlen. unfold NeuralCombOptRL_forward. apply raises_bind_l.
  destruct (PointerNetwork_forward (actor_net model) multinomial inputs) as [out|e] eqn:Hf;
    [|by exists e].
  by apply PointerNetwork_returns_single_node in Hf.
Qed.

(** X18.  Whenever the model returns, every action index it returns is
    the depot (index 0), and every row of the actions it returns is the
    feature row of the first node of some instance of the input. *)
Theorem NeuralCombOptRL_forward_depot_only multinomial inputs b probs actions action_idxs :
  NeuralCombOptRL_forward model multinomial inputs = Ok (b, probs, actions, action_idxs) →
  (∀ l n, l ∈ action_idxs → n ∈ l → n = 0)
  ∧ (∀ a row, a ∈ actions → row ∈ a → ∃ i, entry inputs i 0 = Some row).
Proof.
  unfold NeuralCombOptRL_forward. intros Hf.
  inv_bind Hf as out Hout. destruct out as [probs_ idxs].
  destruct (actor_net_selections _ _ _ _ Hout) as [batch_size ->].
  inv_bind Hf as actions0 Hactions. inv_bind Hf as probs0 Hprobs. inv_bind Hf as b0 Hb.
  inv_bind Hf as flat Hflat. inv_bind Hf as rows Hrows. injection Hf as <- <- <- <-.
  injection Hflat as <-. simpl in Hrows. rewrite app_nil_r in Hrows.
  split.
  - intros l n Hl Hn.
    destruct (transpose_1_0_elem _ _ _ _ Hl Hn) as (row & Hrow & Hn').
    pose proof (view_rows_elem _ _ _ _ _ Hrows Hrow Hn') as Hin.
    by apply elem_of_replicate in Hin as [-> _].
  - intros a row Ha Hrow.
    destruct (mapM_Ok_elem _ _ _ _ Hactions Ha) as (action_id & Hid & Hsel).
    apply list_elem_of_singleton in Hid as ->.
    destruct (select_actions_elem _ _ _ _ _ Hsel Hrow) as (i & n & Hn & Hentry).
    apply elem_of_replicate in Hn as [-> _]. by exists i.
Qed.

End TopLevel.

End NetworkFacts.

(** ** The data set *)

Section GeneratorMore.
Import DataGenerator.
Context {G : Type} `{Random G}.

Lemma make_samples_ok node_num n g :
  ∃ dataset, make_samples node_num n g = Ok dataset
             ∧ length dataset = n ∧ Forall (instance_ok node_num) dataset.
Proof.
  revert g. induction n as [|n IH]; intros g; simpl.
  { exists []. by repeat split. }
  destruct (make_sample_ok node_num g) as (s & Hs & Hok).
  destruct (make_sample node_num g) as [rs g1]. simpl in Hs. subst rs.
  destruct (IH g1) as (ds & -> & Hlen & Hds). simpl.
  exists (s :: ds). repeat split; [simpl; by rewrite Hlen | by constructor].
Qed.

Lemma instance_ok_shape node_num sample :
  instance_ok node_num sample →
  length sample = Z.to_nat (Z.max 1 node_num) ∧ Forall (λ row, length row = 6) sample.
Proof.
  intros (d & rows & -> & Hd & Hrows & Hlen). split; [simpl; lia|].
  constructor; [by apply depot_ok_length|].
  eapply Forall_impl; [exact Hrows|]. apply service_ok_length.
Qed.

(** X15.  Every index from [-len(dataset)] up to [len(dataset) - 1]
    reads an instance of the data set, a tensor of [node_num] rows (one
    row when [node_num] is below 1) of six columns. *)
Theorem VRPDataset_getitem_shape node_num num_samples g dataset idx :
  VRPDataset_init node_num num_samples g = Ok dataset →
  (- VRPDataset_len dataset ≤ idx < VRPDataset_len dataset)%Z →
  ∃ sample,
    VRPDataset_getitem dataset idx = Ok sample
    ∧ length sample = Z.to_nat (Z.max 1 node_num)
    ∧ ∀ row, row ∈ sample → length row = 6.
Proof.
  unfold VRPDataset_init, VRPDataset_len, VRPDataset_getitem. intros Hinit Hidx.
  destruct (make_samples_ok node_num (Z.to_nat num_samples) g) as (ds & Hds & _ & Hok).
  assert (ds = dataset) as -> by congruence.
  set (i := if (idx <? 0)%Z then (idx + Z.of_nat (length dataset))%Z else idx).
  assert (0 ≤ i < Z.of_nat (length dataset))%Z as Hi.
  { unfold i. destruct (Z.ltb_spec idx 0); lia. }
  rewrite (proj2 (Z.leb_le 0 i)), (proj2 (Z.ltb_lt i _)) by lia. simpl.
  destruct (lookup_lt_is_Some_2 dataset (Z.to_nat i) ltac:(lia)) as [sample Hsample].
  exists sample. split; [by apply getitem_Ok|].
  destruct (instance_ok_shape node_num sample) as [Hlen Hrows].
  { by apply (proj1 (Forall_lookup _ _) Hok (Z.to_nat i)). }
  split; [done|]. intros row Hrow. by apply (proj1 (Forall_forall _ _) Hrows).
Qed.

Lemma make_samples_prefix node_num n n' g ds ds' :
  n ≤ n' → make_samples node_num n g = Ok ds → make_samples node_num n' g = Ok ds' →
  ds = take n ds'.
Proof.
  revert n' g ds ds'. induction n as [|n IH]; intros n' g ds ds' Hn Hds Hds'; simpl in Hds.
  { by injection Hds as <-. }
  destruct n' as [|n']; [lia|]. simpl in Hds'.
  destruct (make_sample node_num g) as [rs g1].
  inv_bind Hds as s Hs. inv_bind Hds as rest Hrest. injection Hds as <-.
  inv_bind Hds' as s' Hs'. inv_bind Hds' as rest' Hrest'. injection Hds' as <-.
  simpl. f_equal; [congruence|]. apply (IH n' g1); [lia|done..].
Qed.

(** X16.  The instances are drawn one after the other: from the same
    state of the random number generator (the same seed) and for the same
    number of nodes, the data set of [num_samples] instances is the
    beginning of every data set of more instances. *)
Theorem VRPDataset_prefix node_num num_samples num_samples' g :
  (num_samples ≤ num_samples')%Z →
  ∃ dataset dataset',
    VRPDataset_init node_num num_samples g = Ok dataset
    ∧ VRPDataset_init node_num num_samples' g = Ok dataset'
    ∧ dataset = take (length dataset) dataset'.
Proof.
  intros Hle. unfold VRPDataset_init.
  destruct (make_samples_ok node_num (Z.to_nat num_samples) g) as (ds & Hds & Hlen & _).
  destruct (make_samples_ok node_num (Z.to_nat num_samples') g) as (ds' & Hds' & _ & _).
  exists ds, ds'. split; [done|]. split; [done|]. rewrite Hlen.
  apply (make_samples_prefix node_num _ (Z.to_nat num_samples') g); [lia|done..].
Qed.

End GeneratorMore.

(** ** The further properties at concrete inputs *)

Section ConcreteMore.
Import DataGenerator PtrNet Embedder Network Examples.
Open Scope Q_scope.

Lemma apply_mask_to_logits_two_instances_witness :
  ∃ out,
    apply_mask_to_logits (example_logits 2) None (Some [0; 0]%nat) = Ok out
    ∧ (2 ≤ length (example_logits 2))%nat.
Proof.
  eexists. split; [reflexivity|].
  apply (apply_mask_to_logits_two_instances (example_logits 2) None [0; 0]%nat _ eq_refl eq_refl).
  discriminate.
Defined.

(** Three instances whose previous selections are nodes 1, 0 and 0: the
    second masking call of the step returns the mask of the first. *)
Lemma apply_mask_to_logits_idempotent_witness :
  ∃ logits' maskk logits2' maskk2,
    apply_mask_to_logits (example_logits 3) None (Some [1; 0; 0]%nat) = Ok (logits', maskk)
    ∧ apply_mask_to_logits (example_logits 3) (Some maskk) (Some [1; 0; 0]%nat)
      = Ok (logits2', maskk2)
    ∧ maskk = [ [0; 1; 0]; [1; 0; 0]; [1; 0; 0] ]%nat
    ∧ maskk2 = maskk.
Proof.
  eexists _, _, _, _. split; [reflexivity|]. split; [reflexivity|]. split; [reflexivity|].
  exact (apply_mask_to_logits_idempotent (example_logits 3) (example_logits 3) None
           [1; 0; 0]%nat _ _ _ _ eq_refl eq_refl eq_refl eq_refl).
Defined.

Lemma apply_mask_to_logits_binary_witness :
  ∃ logits' maskk,
    apply_mask_to_logits (example_logits 3) None (Some [1; 0; 0]%nat) = Ok (logits', maskk)
    ∧ ∀ row v, row ∈ maskk → v ∈ row → v = 0%nat ∨ v = 1%nat.
Proof.
  eexists _, _. split; [reflexivity|].
  apply (apply_mask_to_logits_binary (example_logits 3) None [1; 0; 0]%nat _ _ eq_refl eq_refl).
  discriminate.
Defined.

Lemma apply_mask_to_logits_other_instances_witness :
  ∃ logits' maskk,
    apply_mask_to_logits (example_logits 3) None (Some [1; 0; 0]%nat) = Ok (logits', maskk)
    ∧ logits' !! 2%nat = example_logits 3 !! 2%nat.
Proof.
  eexists _, _. split; [reflexivity|].
  apply (apply_mask_to_logits_other_instances (example_logits 3) None [1; 0; 0]%nat _ _ 2%nat
           eq_refl eq_refl); [discriminate | lia].
Defined.

(** Instance 0 samples the depot, instance 1 samples node 1: the visited
    flag of node 1 of instance 1 is set, the depot row of instance 0 is
    as it was. *)
Lemma decode_stochastic_visited_witness :
  ∃ out,
    decode_stochastic (example_decoder "stochastic") (draws [0; 1]%nat) example_probs
      example_features example_embedded [0; 0]%nat [(10, 0); (10, 0)] = Ok out
    ∧ entry example_features 1 1 = Some [3; 4; 3; 1; 3; 0]
    ∧ entry (d_before_embedded_inputs out) 1 1 = Some [3; 4; 3; 1; 3; 1].
Proof.
  eexists. split; [vm_compute; reflexivity|]. split; [reflexivity|].
  exact (decode_stochastic_visited (example_decoder "stochastic") (draws [0; 1]%nat)
           example_probs example_features example_embedded [0; 0]%nat [(10, 0); (10, 0)] _
           1%nat 1%nat [3; 4; 3; 1; 3; 0] eq_refl eq_refl).
Defined.

(** Embeddings of one column given to a decoder of three embedding
    columns: the embedding [1] of node 1 fills the three columns of the
    next input of instance 1. *)
Lemma decode_stochastic_next_input_witness :
  ∃ out,
    decode_stochastic example_wide_decoder (draws [0; 1]%nat) example_probs
      example_features example_embedded [0; 0]%nat [(10, 0); (10, 0)] = Ok out
    ∧ d_idxs out !! 1%nat = Some 1%nat
    ∧ entry example_embedded 1 1 = Some [1]
    ∧ d_sels out !! 1%nat = Some [1; 1; 1; 10; 5]
    ∧ ∃ row c t,
        fit_row 3 [1] = Ok row
        ∧ d_rc_ct out !! 1%nat = Some (c, t) ∧ d_sels out !! 1%nat = Some (row ++ [c; t]).
Proof.
  eexists. split; [vm_compute; reflexivity|]. do 3 (split; [reflexivity|]).
  exact (decode_stochastic_next_input example_wide_decoder (draws [0; 1]%nat)
           example_probs example_features example_embedded [0; 0]%nat [(10, 0); (10, 0)] _
           1%nat 1%nat [1] eq_refl eq_refl eq_refl eq_refl).
Defined.

Lemma example_norm_nonneg (v : list Q) : 0 <= norm v.
Proof.
  unfold norm. simpl. unfold Qsqrt, Qle. simpl.
  rewrite Z.mul_1_r. apply Z.sqrt_nonneg.
Qed.

(** Instance 1 leaves the depot at time 0 for node 1, at distance 5,
    whose window opens at 1. *)
Lemma decode_stochastic_time_monotone_witness :
  ∃ out,
    decode_stochastic (example_decoder "stochastic") (draws [0; 1]%nat) example_probs
      example_features example_embedded [0; 0]%nat [(10, 0); (10, 0)] = Ok out
    ∧ d_idxs out !! 1%nat = Some 1%nat
    ∧ ∃ t', snd <$> d_rc_ct out !! 1%nat = Some t' ∧ 0 <= t' ∧ 1 <= t'.
Proof.
  eexists. split; [vm_compute; reflexivity|]. split; [reflexivity|].
  apply (decode_stochastic_time_monotone (example_decoder "stochastic") (draws [0; 1]%nat)
           example_probs example_features example_embedded [0; 0]%nat [(10, 0); (10, 0)] _
           1%nat 1%nat 0%nat 10 0 [0; 0; 0; 0; 0; 0] [3; 4; 3; 1; 3; 0] 1).
  - exact example_norm_nonneg.
  - vm_compute. reflexivity.
  - reflexivity.
  - reflexivity.
  - reflexivity.
  - discriminate.
  - reflexivity.
  - reflexivity.
  - reflexivity.
  - reflexivity.
  - simpl. lia.
  - simpl. lia.
  - reflexivity.
Defined.

Lemma decode_stochastic_returns_witness :
  shapes_ok (example_decoder "stochastic") (length example_probs) [0; 1]%nat [0; 0]%nat
    example_features example_embedded [(10, 0); (10, 0)]
  ∧ where_zero [0; 1]%nat = [0%nat]
  ∧ ∃ out,
      decode_stochastic (example_decoder "stochastic") (draws [0; 1]%nat) example_probs
        example_features example_embedded [0; 0]%nat [(10, 0); (10, 0)] = Ok out.
Proof.
  assert (shapes_ok (example_decoder "stochastic") (length example_probs) [0; 1]%nat
            [0; 0]%nat example_features example_embedded [(10, 0); (10, 0)]) as Hshapes.
  { split; try reflexivity; unfold shaped; repeat (constructor; simpl; try lia). }
  split; [exact Hshapes|]. split; [reflexivity|].
  exact (decode_stochastic_returns (example_decoder "stochastic") (draws [0; 1]%nat)
           example_probs example_features example_embedded [0; 0]%nat [(10, 0); (10, 0)]
           [0; 1]%nat Hshapes eq_refl eq_refl).
Defined.

(** The graph embedder for two nodes, embeddings of one entry, two rounds
    and weights 1, on two instances of two nodes. *)
Lemma embed_shape_witness :
  ∃ mu,
    embed 2 1 2 example_weight example_weight example_weight example_weight example_weight
      example_nodes = Ok mu
    ∧ length mu = 2%nat
    ∧ ∀ m, m ∈ mu → length m = 2%nat ∧ ∀ row, row ∈ m → length row = 1%nat.
Proof.
  eexists. split; [vm_compute; reflexivity|].
  apply (embed_shape 2 1 2 example_weight example_weight example_weight example_weight
           example_weight example_nodes).
  vm_compute. reflexivity.
Defined.

Lemma embed_nonneg_witness :
  embed 2 1 2 example_weight example_weight example_weight example_weight example_weight
    example_nodes = Ok [ [ [24]; [15] ]; [ [24]; [15] ] ]
  ∧ 0 <= 15.
Proof.
  split; [vm_compute; reflexivity|].
  apply (embed_nonneg 2 1 2 example_weight example_weight example_weight example_weight
           example_weight example_nodes [ [ [24]; [15] ]; [ [24]; [15] ] ] [ [24]; [15] ] [15] 15).
  - vm_compute. reflexivity.
  - left.
  - right. left.
  - left.
Defined.

(** Two nodes passed to an embedder built for three. *)
Lemma embed_too_few_nodes_witness :
  (length example_nodes < 3)%nat
  ∧ raises (embed 3 1 2 example_weight example_weight example_weight example_weight
              example_weight example_nodes).
Proof.
  split; [simpl; lia|].
  apply (embed_too_few_nodes 3 1 2 example_weight example_weight example_weight example_weight
           example_weight example_nodes); simpl; lia.
Defined.

Lemma embed_instance_witness :
  ∃ mu,
    embed 2 1 2 example_weight example_weight example_weight example_weight example_weight
      example_nodes = Ok mu
    ∧ instance 1 example_nodes = [ [ [1; 1; 0; 0; 0; 0] ]; [ [1; 1; 5; 2; 4; 0] ] ]
    ∧ embed 2 1 2 example_weight example_weight example_weight example_weight example_weight
        (instance 1 example_nodes) = Ok (instance 1 mu).
Proof.
  eexists. split; [vm_compute; reflexivity|]. split; [reflexivity|].
  apply (embed_instance 2 1 2 example_weight example_weight example_weight example_weight
           example_weight 1%nat example_nodes).
  - vm_compute. reflexivity.
  - simpl. lia.
Defined.

(** The network built for two nodes, on two instances of two nodes. *)
Lemma PointerNetwork_forward_raises_witness :
  2%nat ≠ 1%nat
  ∧ raises (PointerNetwork_forward (example_network 2) (λ _, draws [0; 1]%nat) example_batch_2).
Proof.
  split; [lia|].
  apply (PointerNetwork_forward_raises 1 1 2 1 0 false 10 1 1
           example_weight example_weight example_weight example_weight example_weight
           (lstm example_encoder) (decoder_lstm (example_decoder "stochastic"))
           flat_attention flat_attention (sm (example_decoder "stochastic"))
           (λ _, draws [0; 1]%nat) example_batch_2).
  lia.
Defined.

(** The network built for one node, on two instances of one node. *)
Lemma PointerNetwork_forward_depot_only_witness :
  ∃ pointer_probs input_idxs,
    PointerNetwork_forward (example_network 1) (λ _, draws [0; 1]%nat) example_batch_1
    = Ok (pointer_probs, input_idxs)
    ∧ input_idxs = [ [0; 0] ]%nat
    ∧ ∃ batch_size k,
        pointer_probs = [replicate batch_size (1 :: replicate k 0)]
        ∧ input_idxs = [replicate batch_size 0%nat].
Proof.
  eexists _, _. split; [vm_compute; reflexivity|]. split; [reflexivity|].
  apply (PointerNetwork_forward_depot_only 1 1 1 1 0 false 10 1 1
           example_weight example_weight example_weight example_weight example_weight
           (lstm example_encoder) (decoder_lstm (example_decoder "stochastic"))
           flat_attention flat_attention (sm (example_decoder "stochastic"))
           (λ _, draws [0; 1]%nat) example_batch_1).
  vm_compute. reflexivity.
Defined.

(** Two instances of three nodes from the counter state 0; index -1 reads
    the last of them. *)
Lemma VRPDataset_getitem_shape_witness :
  ∃ dataset,
    VRPDataset_init 3 2 0%Z = Ok dataset
    ∧ (- VRPDataset_len dataset ≤ -1 < VRPDataset_len dataset)%Z
    ∧ ∃ sample,
        VRPDataset_getitem dataset (-1) = Ok sample
        ∧ length sample = Z.to_nat (Z.max 1 3)
        ∧ ∀ row, row ∈ sample → length row = 6%nat.
Proof.
  eexists. split; [vm_compute; reflexivity|].
  split; [vm_compute; split; [discriminate|reflexivity]|].
  apply (VRPDataset_getitem_shape 3 2 0%Z _ (-1)%Z).
  - vm_compute. reflexivity.
  - vm_compute. split; [discriminate|reflexivity].
Defined.

Lemma VRPDataset_prefix_witness :
  (2 ≤ 3)%Z
  ∧ ∃ dataset dataset',
      VRPDataset_init 3 2 0%Z = Ok dataset
      ∧ VRPDataset_init 3 3 0%Z = Ok dataset'
      ∧ dataset = take (length dataset) dataset'.
Proof.
  split; [lia|]. apply (VRPDataset_prefix 3 2 3 0%Z). lia.
Defined.

(** The model built for two nodes, in training mode. *)
Lemma NeuralCombOptRL_forward_raises_witness :
  2%nat ≠ 1%nat
  ∧ raises (NeuralCombOptRL_forward (example_model 2 true) (λ _, draws [0; 1]%nat)
              example_batch_2).
Proof.
  split; [lia|].
  apply (NeuralCombOptRL_forward_raises 1 1 2 1 1 0 true false 10 1 1
           example_weight example_weight example_weight example_weight example_weight
           (lstm example_encoder) (lstm example_encoder)
           (decoder_lstm (example_decoder "stochastic"))
           flat_attention flat_attention flat_attention
           (sm (example_decoder "stochastic")) (sm (example_decoder "stochastic"))
           (λ x, Ok x) (λ _, draws [0; 1]%nat) example_batch_2).
  lia.
Defined.

(** The model built for one node, in training mode, on two instances of
    one node: the actions are the two depot rows. *)
Lemma NeuralCombOptRL_forward_depot_only_witness :
  ∃ b probs actions action_idxs,
    NeuralCombOptRL_forward (example_model 1 true) (λ _, draws [0; 1]%nat) example_batch_1
    = Ok (b, probs, actions, action_idxs)
    ∧ actions = [ [ [3; 4; 0; 0; 0; 0]; [0; 0; 0; 0; 0; 0] ] ]
    ∧ action_idxs = [ [0]; [0] ]%nat
    ∧ (∀ l n, l ∈ action_idxs → n ∈ l → n = 0%nat)
    ∧ (∀ a row, a ∈ actions → row ∈ a → ∃ i, entry example_batch_1 i 0 = Some row).
Proof.
  eexists _, _, _, _. split; [vm_compute; reflexivity|]. do 2 (split; [reflexivity|]).
  apply (NeuralCombOptRL_forward_depot_only 1 1 1 1 1 0 true false 10 1 1
           example_weight example_weight example_weight example_weight example_weight
           (lstm example_encoder) (lstm example_encoder)
           (decoder_lstm (example_decoder "stochastic"))
           flat_attention flat_attention flat_attention
           (sm (example_decoder "stochastic")) (sm (example_decoder "stochastic"))
           (λ x, Ok x) (λ _, draws [0; 1]%nat) example_batch_1
           [ [0; 0] ] (Selected [ [1; 1] ])).
  vm_compute. reflexivity.
Defined.

End ConcreteMore.
